(** * The image-location index of the plazas dashboard (imageIndex.js v3.0)

    A shallow embedding of the client-side image index: the builder that
    flattens the remote tree into a primary map and an alias map, the local
    persistence layer on [localStorage], and the tiered lookup
    [findImageUrls].  Line numbers are those of [src/unnamed/part_002],
    where the module starts at line 531.

    Conventions of the model.
    - A JavaScript string is a [string]: a sequence of 8-bit code units.
      [trim], [toLowerCase] and the character classes of the regular
      expression are exact on ASCII text; code units above 127 are left
      alone (no-break space and the other Unicode spaces are not trimmed,
      letters outside ASCII are not lowered).
    - A JavaScript [Map] is an association list in insertion order
      ([JsMap]): [map_set] on a present key replaces the value in place, on
      an absent key it appends.
    - JSON values are taken by their shape: the tree, the version body, the
      array of the single-key endpoint and the three payloads of the cache
      are records, lists and options; a text that does not parse is a
      failure of [res.json()] or of [JSON.parse].
    - Effects (module state, [localStorage], [fetch], [Date.now], the
      notifications) are threaded through the state-and-exception monad [M].
      The outside world is an oracle [Env] read at the current [tick], so
      that two requests to one endpoint may get different answers.  The
      awaited calls of the module run one after the other.
    - [mostrarNotificacion] and [console] belong to collaborators and are
      taken to return; notifications are kept in the trace. *)

From Stdlib Require Import String Ascii List ZArith Lia Bool Arith DecimalString.
Import ListNotations.
Open Scope string_scope.
Open Scope nat_scope.

(* ------------------------------------------------------------------ *)
(** ** JavaScript strings *)

Module Js.

Definition code (c : ascii) : nat := nat_of_ascii c.

(** White space as [String.prototype.trim] and the class [\s] see it, in the
    ASCII range: TAB, LF, VT, FF, CR and SPACE. *)
Definition is_space (c : ascii) : bool :=
  let n := code c in ((9 <=? n) && (n <=? 13)) || (n =? 32).

Definition is_digit (c : ascii) : bool :=
  let n := code c in (48 <=? n) && (n <=? 57).

Definition is_upper (c : ascii) : bool :=
  let n := code c in (65 <=? n) && (n <=? 90).

Definition is_lower (c : ascii) : bool :=
  let n := code c in (97 <=? n) && (n <=? 122).

Definition lower (c : ascii) : ascii :=
  if is_upper c then ascii_of_nat (code c + 32) else c.

Definition upper (c : ascii) : ascii :=
  if is_lower c then ascii_of_nat (code c - 32) else c.

Fixpoint toLowerCase (s : string) : string :=
  match s with
  | EmptyString => EmptyString
  | String c r => String (lower c) (toLowerCase r)
  end.

Fixpoint trimStart (s : string) : string :=
  match s with
  | EmptyString => EmptyString
  | String c r => if is_space c then trimStart r else s
  end.

Fixpoint trimEnd (s : string) : string :=
  match s with
  | EmptyString => EmptyString
  | String c r =>
      match trimEnd r with
      | EmptyString => if is_space c then EmptyString else String c EmptyString
      | t => String c t
      end
  end.

Definition trim (s : string) : string := trimEnd (trimStart s).

(** [hay.startsWith(needle)]. *)
Definition startsWith (hay needle : string) : bool := prefix needle hay.

(** [hay.includes(needle)]. *)
Fixpoint includes (hay needle : string) : bool :=
  prefix needle hay ||
  match hay with
  | EmptyString => false
  | String _ r => includes r needle
  end.

Fixpoint drop (n : nat) (s : string) : string :=
  match n, s with
  | O, _ => s
  | S _, EmptyString => EmptyString
  | S m, String _ r => drop m r
  end.

(** [s.replace(pat, '')] with a string pattern: the first occurrence goes. *)
Fixpoint replace_first_empty (s pat : string) : string :=
  if prefix pat s then drop (String.length pat) s
  else match s with
       | EmptyString => EmptyString
       | String c r => String c (replace_first_empty r pat)
       end.

Fixpoint replicate (n : nat) (c : ascii) : string :=
  match n with
  | O => EmptyString
  | S m => String c (replicate m c)
  end.

(** [s.padStart(n, c)] for a one-character filler. *)
Definition padStart (n : nat) (c : ascii) (s : string) : string :=
  replicate (n - String.length s) c ++ s.

(** A string is truthy when it is not empty. *)
Definition truthy (s : string) : bool := negb (String.eqb s "").

(** An optional string field is truthy when present and not empty. *)
Definition truthy_opt (o : option string) : bool :=
  match o with
  | Some s => truthy s
  | None => false
  end.

(** [a ?? b] on a field that may be absent. *)
Definition nullish {A} (a : option A) (b : option A) : option A :=
  match a with
  | Some _ => a
  | None => b
  end.

(** [a || b] on optional strings: the first truthy operand, else [b]. *)
Definition or_else (a b : option string) : option string :=
  if truthy_opt a then a else b.

End Js.

Notation "a ?? b" := (Js.nullish a b) (at level 45, right associativity).

(* ------------------------------------------------------------------ *)
(** ** JavaScript [Map] in insertion order *)

Definition JsMap (V : Type) : Type := list (string * V).

Fixpoint map_get {V} (m : JsMap V) (k : string) : option V :=
  match m with
  | [] => None
  | (k', v) :: r => if String.eqb k' k then Some v else map_get r k
  end.

Fixpoint map_set {V} (m : JsMap V) (k : string) (v : V) : JsMap V :=
  match m with
  | [] => [(k, v)]
  | (k', v') :: r =>
      if String.eqb k' k then (k, v) :: r else (k', v') :: map_set r k v
  end.

Definition map_size {V} (m : JsMap V) : nat := List.length m.

(** [new Map(pairs)]: the pairs are set one after the other. *)
Definition map_of_entries {V} (l : list (string * V)) : JsMap V :=
  fold_left (fun m kv => map_set m (fst kv) (snd kv)) l [].

(* ------------------------------------------------------------------ *)
(** ** Data model *)

(** One image of the index: [{name, url, size}]. *)
Record IndexEntry := mkEntry {
  e_name : option string;
  e_url  : string;
  e_size : option Z
}.

(** A file node of the remote tree: [{i|id, n|name, s|size,
    mediumUrl|thumbnailUrl|directUrl}], every field optional. *)
Record Item := mkItem {
  it_i : option string;
  it_id : option string;
  it_n : option string;
  it_name : option string;
  it_s : option Z;
  it_size : option Z;
  it_mediumUrl : option string;
  it_thumbnailUrl : option string;
  it_directUrl : option string
}.

(** A plaza folder: [{k?, name?, alias?, children?}]. *)
Record Carpeta := mkCarpeta {
  c_k : option string;
  c_name : option string;
  c_alias : option string;
  c_children : option (list Item)
}.

(** A state node: [{children?}]. *)
Record NodoEstado := mkNodo {
  ne_children : option (list Carpeta)
}.

(** The tree payload; [dd_children] is [driveData.structure?.children]. *)
Record DriveData := mkDrive {
  dd_children : option (list NodoEstado)
}.

Definition urls (archivos : list IndexEntry) : list string :=
  map e_url archivos.

(* ------------------------------------------------------------------ *)
(** ** Index builder (pure part) *)

Definition _driveUrl (fileId : string) : string :=
  "https://drive.google.com/thumbnail?id=" ++ fileId ++ "&sz=w800".

Module Patron.

(** The class [[A-Za-z1l]]. *)
Definition is_tipo (c : ascii) : bool :=
  Js.is_upper c || Js.is_lower c || (Js.code c =? 49).

Fixpoint skip_spaces (s : string) : string :=
  match s with
  | EmptyString => EmptyString
  | String c r => if Js.is_space c then skip_spaces r else s
  end.

(** [(\d{2,3})], greedy: three digits when the third character is a digit,
    two otherwise.  In [PATRON] the group is followed by ["-"] or ends the
    pattern, so giving a digit back never lets the match go on: the greedy
    choice is the only one. *)
Definition digits23 (s : string) : option (string * string) :=
  match s with
  | String a (String b r) =>
      if Js.is_digit a && Js.is_digit b then
        match r with
        | String c r' =>
            if Js.is_digit c
            then Some (String a (String b (String c EmptyString)), r')
            else Some (String a (String b EmptyString), r)
        | EmptyString => Some (String a (String b EmptyString), r)
        end
      else None
  | _ => None
  end.

Definition expect_dash (s : string) : option string :=
  match s with
  | String c r => if Js.code c =? 45 then Some r else None
  | EmptyString => None
  end.

(** The four captures of a match. *)
Record Captura := mkCaptura {
  m1 : ascii; m2 : string; m3 : string; m4 : string
}.

(** [PATRON] anchored at the head of [s]:
    [([A-Za-z1l])-\s*(\d{2,3})-(\d{2,3})-(\d{2,3})]. *)
Definition match_here (s : string) : option Captura :=
  match s with
  | String t r0 =>
      if is_tipo t then
        match expect_dash r0 with
        | Some r1 =>
            match digits23 (skip_spaces r1) with
            | Some (g2, r2) =>
                match expect_dash r2 with
                | Some r3 =>
                    match digits23 r3 with
                    | Some (g3, r4) =>
                        match expect_dash r4 with
                        | Some r5 =>
                            match digits23 r5 with
                            | Some (g4, _) => Some (mkCaptura t g2 g3 g4)
                            | None => None
                            end
                        | None => None
                        end
                    | None => None
                    end
                | None => None
                end
            | None => None
            end
        | None => None
        end
      else None
  | EmptyString => None
  end.

(** [PATRON.exec(nombre)]: the leftmost match. *)
Fixpoint exec (s : string) : option Captura :=
  match match_here s with
  | Some m => Some m
  | None =>
      match s with
      | EmptyString => None
      | String _ r => exec r
      end
  end.

End Patron.

Definition _normalizarClaveClienteFallback (nombre : string) : string :=
  match Patron.exec nombre with
  | None => Js.toLowerCase (Js.trim nombre)
  | Some m =>
      let tipo := Js.upper (Patron.m1 m) in
      let tipo := if (Js.code tipo =? 76) || (Js.code tipo =? 49)
                  then "I"%char else tipo in
      let e := Js.padStart 2 "0" (Patron.m2 m) in
      let n := Js.padStart 3 "0" (Patron.m3 m) in
      let p := Js.padStart 2 "0" (Patron.m4 m) in
      Js.toLowerCase (String tipo ("-" ++ e ++ "-" ++ n ++ "-" ++ p))
  end.

(** What [_descargarYConstruirIndice] returns. *)
Record Construido := mkConstruido {
  nuevoIndice : JsMap (list IndexEntry);
  nuevoAlias : JsMap string;
  totalCarpetas : nat;
  totalArchivos : nat
}.

(** The body of the loop over [carpeta.children]: one file. *)
Definition procesar_item (acc : list IndexEntry * nat) (item : Item)
  : list IndexEntry * nat :=
  let '(archivos, total) := acc in
  let fileId := it_i item ?? it_id item in
  let fileUrl :=
    it_mediumUrl item ?? it_thumbnailUrl item ?? it_directUrl item
      ?? (match fileId with
          | Some f => if Js.truthy f then Some (_driveUrl f) else None
          | None => None
          end) in
  match fileUrl with
  | Some u =>
      if Js.truthy_opt fileId && Js.truthy u then
        ((archivos ++ [mkEntry (it_n item ?? it_name item) u
                               (it_s item ?? it_size item)])%list,
         S total)
      else acc
  | None => acc
  end.

(** The key a folder is filed under: the field [k], else the client-side
    normalization of [name ?? '']. *)
Definition clave_de_carpeta (carpeta : Carpeta) : string :=
  match c_k carpeta with
  | Some k => k
  | None =>
      _normalizarClaveClienteFallback
        (match c_name carpeta with Some n => n | None => "" end)
  end.

(** The body of the loop over [nodoEstado.children]: one folder. *)
Definition procesar_carpeta (b : Construido) (carpeta : Carpeta) : Construido :=
  match c_children carpeta with
  | None => b
  | Some [] => b
  | Some items =>
      let claveNorm := clave_de_carpeta carpeta in
      if negb (Js.truthy claveNorm) then b
      else
        let '(archivos, total) :=
          fold_left procesar_item items ([], totalArchivos b) in
        if 0 <? List.length archivos then
          mkConstruido
            (map_set (nuevoIndice b) claveNorm archivos)
            (match c_alias carpeta with
             | Some a =>
                 if Js.truthy a
                 then map_set (nuevoAlias b) (Js.toLowerCase a) claveNorm
                 else nuevoAlias b
             | None => nuevoAlias b
             end)
            (S (totalCarpetas b))
            total
        else
          mkConstruido (nuevoIndice b) (nuevoAlias b) (totalCarpetas b) total
  end.

(** The body of the loop over [nodosEstado]: one state node. *)
Definition procesar_nodo (b : Construido) (nodo : NodoEstado) : Construido :=
  match ne_children nodo with
  | None => b
  | Some carpetas => fold_left procesar_carpeta carpetas b
  end.

Definition construido_vacio : Construido := mkConstruido [] [] 0 0.

(** The index built from a parsed tree (lines 727-770). *)
Definition construir (driveData : DriveData) : Construido :=
  let nodosEstado :=
    match dd_children driveData with Some l => l | None => [] end in
  fold_left procesar_nodo nodosEstado construido_vacio.

(* ------------------------------------------------------------------ *)
(** ** What [localStorage] holds *)

(** The metadata record [{timestamp, version, carpetas, archivos}]. *)
Record Meta := mkMeta {
  timestamp : Z;
  version : string;
  carpetas : nat;
  archivos : nat
}.

(** A stored value, by the shape [JSON.parse] gives back.  The first three
    are what [_guardarEnCacheLocal] writes; [StOther raw] is any text that
    [JSON.parse] rejects.  A payload of one shape read where another is
    expected is outside this data model and is treated as a [TypeError]. *)
Inductive Stored :=
| StIndex (entradas : list (string * list IndexEntry))
| StAlias (entradas : list (string * string))
| StMeta (meta : Meta)
| StOther (raw : string).

(** The storage area, its keys in the order [key(n)] gives them.  Here
    that is the order of insertion, kept when a key is removed; the Storage
    interface leaves the order to the user agent, and no result below
    depends on what it is after a removal. *)
Definition LocalStorage : Type := list (string * Stored).

Definition ls_getItem (ls : LocalStorage) (k : string) : option Stored :=
  map_get ls k.

Definition ls_setItem (ls : LocalStorage) (k : string) (v : Stored)
  : LocalStorage := map_set ls k v.

Fixpoint ls_removeItem (ls : LocalStorage) (k : string) : LocalStorage :=
  match ls with
  | [] => []
  | (k', v) :: r =>
      if String.eqb k' k then r else (k', v) :: ls_removeItem r k
  end.

Definition ls_key (ls : LocalStorage) (i : nat) : option string :=
  option_map fst (nth_error ls i).

(** The text [JSON.stringify] produces, needed only for its length. *)
Module Json.

Definition hex_digit (n : nat) : ascii :=
  if n <? 10 then ascii_of_nat (48 + n) else ascii_of_nat (87 + n).

Definition escape_char (c : ascii) : string :=
  let n := Js.code c in
  if n =? 34 then String (ascii_of_nat 92) (String (ascii_of_nat 34) "")
  else if n =? 92 then "\\"
  else if n =? 8 then "\b"
  else if n =? 9 then "\t"
  else if n =? 10 then "\n"
  else if n =? 12 then "\f"
  else if n =? 13 then "\r"
  else if n <? 32 then
    "\u00" ++ String (hex_digit (n / 16)) (String (hex_digit (n mod 16)) "")
  else String c "".

Fixpoint escape (s : string) : string :=
  match s with
  | EmptyString => EmptyString
  | String c r => escape_char c ++ escape r
  end.

Definition quote : string := String (ascii_of_nat 34) "".

Definition str (s : string) : string := quote ++ escape s ++ quote.

Definition num (z : Z) : string := NilZero.string_of_int (Z.to_int z).

Fixpoint join (l : list string) : string :=
  match l with
  | [] => ""
  | [x] => x
  | x :: r => x ++ "," ++ join r
  end.

Definition field (name value : string) : string := str name ++ ":" ++ value.

(** [undefined] properties are left out. *)
Definition entry (e : IndexEntry) : string :=
  "{" ++ join
    ((match e_name e with Some n => [field "name" (str n)] | None => [] end)
     ++ [field "url" (str (e_url e))]
     ++ (match e_size e with Some z => [field "size" (num z)] | None => [] end))%list
  ++ "}".

Definition array (l : list string) : string := "[" ++ join l ++ "]".

Definition stringify (v : Stored) : string :=
  match v with
  | StIndex l =>
      array (map (fun kv => array [str (fst kv); array (map entry (snd kv))]) l)
  | StAlias l =>
      array (map (fun kv => array [str (fst kv); str (snd kv)]) l)
  | StMeta m =>
      "{" ++ join [field "timestamp" (num (timestamp m));
                   field "version" (str (version m));
                   field "carpetas" (num (Z.of_nat (carpetas m)));
                   field "archivos" (num (Z.of_nat (archivos m)))] ++ "}"
  | StOther raw => raw
  end.

End Json.

(** The characters a storage area holds: keys and values. *)
Fixpoint ls_chars (ls : LocalStorage) : nat :=
  match ls with
  | [] => 0
  | (k, v) :: r =>
      String.length k + String.length (Json.stringify v) + ls_chars r
  end.

(** [!cached] is false for any stored text but the empty one. *)
Definition stored_truthy (v : Stored) : bool :=
  match v with
  | StOther raw => Js.truthy raw
  | _ => true
  end.

(* ------------------------------------------------------------------ *)
(** ** The outside world and the module state *)

Inductive Exn :=
| NetworkError
| HttpError (status : nat)
| SyntaxError
| TypeError
| QuotaExceededError.

(** What [await fetch(url)] followed by [res.json()] can give: the promise
    rejects, or a response arrives with its [ok] flag, its status and a body
    that parses ([Some]) or not ([None]). *)
Inductive Response (B : Type) :=
| Rejected
| Replied (ok : bool) (status : nat) (body : option B).
Arguments Rejected {B}.
Arguments Replied {B} ok status body.

(** Body of [/api/drive-tree-version]. *)
Record VersionBody := mkVersion {
  v_version : option string;
  v_lastModified : option string
}.

(** The collaborators, read at the current tick of the state. *)
Record Env := mkEnv {
  fetch_version : nat -> Response VersionBody;
  fetch_tree : nat -> Response DriveData;
  fetch_local : nat -> string -> Response (list string);
  date_now : nat -> Z;
  storage_accepts : LocalStorage -> string -> Stored -> bool
}.

(** The notifications the module shows: after a build from the network,
    after a load from the cache, after the offline fallback, after a build
    that failed, and after a periodic check that brought a new version (with
    [nuevaVersion?.substring(0, 8)]). *)
Inductive Aviso :=
| AvisoActualizado (carpetas : nat)
| AvisoDesdeCache
| AvisoFallback (meta : Meta)
| AvisoError
| AvisoIndiceActualizado (prefijo : option string).

Inductive Event :=
| EvConstruir (forzarRecarga : bool)
| EvFetchVersion
| EvFetchTree
| EvFetchLocal (clave : string)
| EvNotificar (aviso : Aviso).

Record State := mkState {
  imagenIndex : JsMap (list IndexEntry);
  aliasIndex : JsMap string;
  driveTreeVersion : option string;
  localStorage : LocalStorage;
  tick : nat;
  trace : list Event
}.

Definition TTL_CACHE_MS : Z := 2 * 60 * 60 * 1000.
Definition TTL_LIMPIEZA_MS : Z := 7 * 24 * 60 * 60 * 1000.
Definition CACHE_PREFIX : string := "imagenIndex_v".
Definition CACHE_META_PREFIX : string := "imagenIndex_meta_v".

(** The objects [construirIndiceImagenes] returns; an absent property is
    [None]. *)
Record BuildResult := mkResult {
  success : bool;
  fromCache : option bool;
  isFallback : option bool;
  stats : option (nat * nat);
  error : option Exn
}.

Definition res_en_cache : BuildResult :=
  mkResult true (Some true) None None None.
Definition res_construido (c a : nat) : BuildResult :=
  mkResult true (Some false) None (Some (c, a)) None.
Definition res_fallback : BuildResult :=
  mkResult true (Some true) (Some true) None None.
Definition res_error (e : Exn) : BuildResult :=
  mkResult false None None None (Some e).

(** What [verificarActualizacionIndice] returns. *)
Record Actualizacion := mkAct {
  necesitaActualizar : bool;
  nuevaVersion : option string;
  act_error : option Exn
}.

(* ------------------------------------------------------------------ *)
(** ** The monad of the module: state and exceptions *)

Inductive Outcome (A : Type) :=
| Ret (a : A)
| Throw (e : Exn).
Arguments Ret {A} a.
Arguments Throw {A} e.

Definition M (A : Type) : Type := State -> Outcome A * State.

Definition ret {A} (a : A) : M A := fun s => (Ret a, s).

Definition throw {A} (e : Exn) : M A := fun s => (Throw e, s).

Definition bind {A B} (m : M A) (f : A -> M B) : M B :=
  fun s =>
    match m s with
    | (Ret a, s') => f a s'
    | (Throw e, s') => (Throw e, s')
    end.

(** [try { m } catch (e) { h e }]: what [m] did to the state stays. *)
Definition try_catch {A} (m : M A) (h : Exn -> M A) : M A :=
  fun s =>
    match m s with
    | (Ret a, s') => (Ret a, s')
    | (Throw e, s') => h e s'
    end.

Notation "x <- m ;; k" := (bind m (fun x => k))
  (at level 61, m at next level, right associativity).
Notation "m ;; k" := (bind m (fun _ => k))
  (at level 61, right associativity).

Definition get : M State := fun s => (Ret s, s).

Definition set_imagenIndex (m : JsMap (list IndexEntry)) : M unit :=
  fun s => (Ret tt, mkState m (aliasIndex s) (driveTreeVersion s)
                            (localStorage s) (tick s) (trace s)).

Definition set_aliasIndex (m : JsMap string) : M unit :=
  fun s => (Ret tt, mkState (imagenIndex s) m (driveTreeVersion s)
                            (localStorage s) (tick s) (trace s)).

Definition set_driveTreeVersion (v : option string) : M unit :=
  fun s => (Ret tt, mkState (imagenIndex s) (aliasIndex s) v
                            (localStorage s) (tick s) (trace s)).

Definition set_localStorage (ls : LocalStorage) : M unit :=
  fun s => (Ret tt, mkState (imagenIndex s) (aliasIndex s)
                            (driveTreeVersion s) ls (tick s) (trace s)).

(** One event more in the trace; with [tickea] the world also moves one
    tick on. *)
Definition emit (tickea : bool) (e : Event) : M unit :=
  fun s => (Ret tt, mkState (imagenIndex s) (aliasIndex s)
                            (driveTreeVersion s) (localStorage s)
                            (if tickea then S (tick s) else tick s)
                            (trace s ++ [e])%list).

Definition mostrarNotificacion (a : Aviso) : M unit :=
  emit false (EvNotificar a).

Definition getItem (k : string) : M (option Stored) :=
  fun s => (Ret (ls_getItem (localStorage s) k), s).

Definition removeItem (k : string) : M unit :=
  s <- get ;; set_localStorage (ls_removeItem (localStorage s) k).

Definition JSON_parse_meta (v : Stored) : M Meta :=
  match v with
  | StMeta m => ret m
  | StOther _ => throw SyntaxError
  | _ => throw TypeError
  end.

Definition JSON_parse_index (v : Stored)
  : M (list (string * list IndexEntry)) :=
  match v with
  | StIndex l => ret l
  | StOther _ => throw SyntaxError
  | _ => throw TypeError
  end.

Definition JSON_parse_alias (v : Stored) : M (list (string * string)) :=
  match v with
  | StAlias l => ret l
  | StOther _ => throw SyntaxError
  | _ => throw TypeError
  end.

Definition opt_string_eqb (a b : option string) : bool :=
  match a, b with
  | Some x, Some y => String.eqb x y
  | None, None => true
  | _, _ => false
  end.

(* ------------------------------------------------------------------ *)
(** ** The program *)

Section Programa.

Variable env : Env.

Definition fetch_drive_tree_version : M (Response VersionBody) :=
  s <- get ;; emit true EvFetchVersion ;; ret (fetch_version env (tick s)).

Definition fetch_drive_tree : M (Response DriveData) :=
  s <- get ;; emit true EvFetchTree ;; ret (fetch_tree env (tick s)).

Definition fetch_imagenes_local (clave : string) : M (Response (list string)) :=
  s <- get ;; emit true (EvFetchLocal clave) ;;
  ret (fetch_local env (tick s) clave).

Definition Date_now : M Z :=
  fun s => (Ret (date_now env (tick s)),
            mkState (imagenIndex s) (aliasIndex s) (driveTreeVersion s)
                    (localStorage s) (S (tick s)) (trace s)).

(** [localStorage.setItem]: the user agent may refuse the write. *)
Definition setItem (k : string) (v : Stored) : M unit :=
  s <- get ;;
  if storage_accepts env (localStorage s) k v
  then set_localStorage (ls_setItem (localStorage s) k v)
  else throw QuotaExceededError.

(** Lines 877-887. *)
Definition _buscarImagenesLocales (clave : string) : M (list string) :=
  try_catch
    (res <- fetch_imagenes_local clave ;;
     match res with
     | Rejected => throw NetworkError
     | Replied ok _ body =>
         if ok then
           match body with
           | None => throw SyntaxError
           | Some imgs => if 0 <? List.length imgs then ret imgs else ret []
           end
         else ret []
     end)
    (fun _ => ret []).

(** Lines 855-875.  The state of the scan is the triple
    [(mejorScore, mejorCarpeta, mejorArchivos)], which the source sets
    together; [None] stands for the initial [Infinity], [null], [null].
    On [score === 0] the loop breaks: the rest of the entries is not read. *)
Definition coincide (carpeta claveNorm : string) : bool :=
  Js.includes carpeta claveNorm || Js.includes claveNorm carpeta.

Definition score_de (carpeta claveNorm : string) : nat :=
  let a := String.length carpeta in
  let b := String.length claveNorm in
  if a <? b then b - a else a - b.

Definition mejora (score : nat) (mejorScore : option nat) : bool :=
  match mejorScore with
  | None => true
  | Some m => score <? m
  end.

Fixpoint parcial_loop (claveNorm : string)
    (entradas : list (string * list IndexEntry))
    (mejor : option (nat * string * list IndexEntry))
  : option (nat * string * list IndexEntry) :=
  match entradas with
  | [] => mejor
  | (carpeta, archivos) :: resto =>
      if coincide carpeta claveNorm then
        let score := score_de carpeta claveNorm in
        if mejora score (option_map (fun m => fst (fst m)) mejor) then
          if score =? 0 then Some (score, carpeta, archivos)
          else parcial_loop claveNorm resto (Some (score, carpeta, archivos))
        else parcial_loop claveNorm resto mejor
      else parcial_loop claveNorm resto mejor
  end.

Definition _busquedaParcial (indice : JsMap (list IndexEntry))
    (claveNorm : string) : list string :=
  match parcial_loop claveNorm indice None with
  | None => []
  | Some (_, _, mejorArchivos) => urls mejorArchivos
  end.

(** Lines 721-726 and 770: the download; the loops are [construir]. *)
Definition _descargarYConstruirIndice : M Construido :=
  res <- fetch_drive_tree ;;
  match res with
  | Rejected => throw NetworkError
  | Replied ok status body =>
      if negb ok then throw (HttpError status)
      else match body with
           | None => throw SyntaxError
           | Some driveData => ret (construir driveData)
           end
  end.

Definition restaurar_alias (cachedAlias : option Stored) : M (JsMap string) :=
  match cachedAlias with
  | Some ca =>
      if stored_truthy ca
      then l <- JSON_parse_alias ca ;; ret (map_of_entries l)
      else ret []
  | None => ret []
  end.

(** Lines 773-793. *)
Definition _cargarDesdeCacheLocal (versionActual : string)
  : M (option BuildResult) :=
  try_catch
    (cachedIndex <- getItem (CACHE_PREFIX ++ versionActual) ;;
     cachedAlias <- getItem (CACHE_PREFIX ++ "alias_" ++ versionActual) ;;
     cachedMeta <- getItem (CACHE_META_PREFIX ++ versionActual) ;;
     match cachedIndex, cachedMeta with
     | Some ci, Some cm =>
         if stored_truthy ci && stored_truthy cm then
           meta <- JSON_parse_meta cm ;;
           ahora <- Date_now ;;
           if (TTL_CACHE_MS <=? ahora - timestamp meta)%Z then ret None
           else
             l <- JSON_parse_index ci ;;
             set_imagenIndex (map_of_entries l) ;;
             al <- restaurar_alias cachedAlias ;;
             set_aliasIndex al ;;
             set_driveTreeVersion (Some versionActual) ;;
             mostrarNotificacion AvisoDesdeCache ;;
             ret (Some res_en_cache)
         else ret None
     | _, _ => ret None
     end)
    (fun _ => ret None).

(** Lines 812-824: [i] runs from [desde - 1] down to [0] over the storage
    as it is at each step. *)
Fixpoint limpiar (ahora : Z) (desde : nat) : M unit :=
  match desde with
  | O => ret tt
  | S i =>
      s <- get ;;
      match ls_key (localStorage s) i with
      | Some key =>
          if Js.startsWith key CACHE_META_PREFIX then
            try_catch
              (v <- getItem key ;;
               oldMeta <- match v with
                          | Some t => JSON_parse_meta t
                          | None => throw TypeError
                          end ;;
               if (TTL_LIMPIEZA_MS <? ahora - timestamp oldMeta)%Z then
                 let ver := Js.replace_first_empty key CACHE_META_PREFIX in
                 removeItem (CACHE_PREFIX ++ ver) ;;
                 removeItem (CACHE_PREFIX ++ "alias_" ++ ver) ;;
                 removeItem key
               else ret tt)
              (fun _ => ret tt)
          else ret tt
      | None => ret tt
      end ;;
      limpiar ahora i
  end.

(** Lines 795-828. *)
Definition _guardarEnCacheLocal (versionActual : string)
    (totalCarpetas totalArchivos : nat) : M unit :=
  if String.eqb versionActual "unknown" then ret tt
  else
    try_catch
      (s <- get ;;
       setItem (CACHE_PREFIX ++ versionActual) (StIndex (imagenIndex s)) ;;
       setItem (CACHE_PREFIX ++ "alias_" ++ versionActual)
               (StAlias (aliasIndex s)) ;;
       t <- Date_now ;;
       setItem (CACHE_META_PREFIX ++ versionActual)
               (StMeta (mkMeta t versionActual totalCarpetas totalArchivos)) ;;
       ahora <- Date_now ;;
       s' <- get ;;
       limpiar ahora (List.length (localStorage s')))
      (fun _ => ret tt).

(** Line 834: the keys the fallback scan stops at. *)
Definition es_clave_de_indice (key : string) : bool :=
  Js.startsWith key CACHE_PREFIX
  && negb (Js.includes key "_meta_")
  && negb (Js.includes key "alias_").

(** Lines 832-847; the storage is not written inside the loop, so the scan
    runs over the keys as they stand at its start. *)
Fixpoint fallback_loop (keys : list string) : M (option BuildResult) :=
  match keys with
  | [] => ret None
  | key :: resto =>
      if negb (es_clave_de_indice key) then fallback_loop resto
      else
        let ver := Js.replace_first_empty key CACHE_PREFIX in
        cachedIndex <- getItem key ;;
        cachedAlias <- getItem (CACHE_PREFIX ++ "alias_" ++ ver) ;;
        cachedMeta <- getItem (CACHE_META_PREFIX ++ ver) ;;
        match cachedIndex, cachedMeta with
        | Some ci, Some cm =>
            if stored_truthy ci && stored_truthy cm then
              meta <- JSON_parse_meta cm ;;
              l <- JSON_parse_index ci ;;
              set_imagenIndex (map_of_entries l) ;;
              al <- restaurar_alias cachedAlias ;;
              set_aliasIndex al ;;
              set_driveTreeVersion (Some ver) ;;
              mostrarNotificacion (AvisoFallback meta) ;;
              ret (Some res_fallback)
            else fallback_loop resto
        | _, _ => fallback_loop resto
        end
  end.

(** Lines 830-852. *)
Definition _cargarFallbackLocal : M (option BuildResult) :=
  try_catch
    (s <- get ;; fallback_loop (map fst (localStorage s)))
    (fun _ => ret None).

(** Lines 568-577: the version token, ['unknown'] on any failure. *)
Definition obtener_version : M string :=
  try_catch
    (res <- fetch_drive_tree_version ;;
     match res with
     | Rejected => throw NetworkError
     | Replied ok _ body =>
         if ok then
           match body with
           | None => throw SyntaxError
           | Some d =>
               match Js.or_else (Js.or_else (v_version d) (v_lastModified d))
                                (Some "unknown") with
               | Some v => ret v
               | None => ret "unknown"
               end
           end
         else ret "unknown"
     end)
    (fun _ => ret "unknown").

(** Lines 566-600: the body of the [try] of [construirIndiceImagenes]. *)
Definition construir_cuerpo (forzarRecarga : bool) : M BuildResult :=
  versionActual <- obtener_version ;;
  s <- get ;;
  if negb forzarRecarga
     && opt_string_eqb (driveTreeVersion s) (Some versionActual)
     && (0 <? map_size (imagenIndex s))
  then ret res_en_cache
  else
    resultado <- (if negb forzarRecarga
                     && negb (String.eqb versionActual "unknown")
                  then _cargarDesdeCacheLocal versionActual
                  else ret None) ;;
    match resultado with
    | Some r => ret r
    | None =>
        b <- _descargarYConstruirIndice ;;
        set_imagenIndex (nuevoIndice b) ;;
        set_aliasIndex (nuevoAlias b) ;;
        set_driveTreeVersion (Some versionActual) ;;
        _guardarEnCacheLocal versionActual (totalCarpetas b)
                             (totalArchivos b) ;;
        mostrarNotificacion (AvisoActualizado (totalCarpetas b)) ;;
        ret (res_construido (totalCarpetas b) (totalArchivos b))
    end.

(** Lines 602-608: its [catch]. *)
Definition construir_rescate (error : Exn) : M BuildResult :=
  fallback <- _cargarFallbackLocal ;;
  match fallback with
  | Some r => ret r
  | None =>
      mostrarNotificacion AvisoError ;;
      ret (res_error error)
  end.

(** Lines 564-609.  The first event of the trace records the call and its
    flag (the source logs the call at the same place). *)
Definition construirIndiceImagenes (forzarRecarga : bool) : M BuildResult :=
  try_catch
    (emit false (EvConstruir forzarRecarga) ;; construir_cuerpo forzarRecarga)
    construir_rescate.

(** Lines 662-674. *)
Definition verificarActualizacionIndice : M Actualizacion :=
  try_catch
    (res <- fetch_drive_tree_version ;;
     match res with
     | Rejected => throw NetworkError
     | Replied ok _ body =>
         if negb ok then ret (mkAct false None None)
         else
           match body with
           | None => throw SyntaxError
           | Some data =>
               let nueva := Js.or_else (v_version data) (v_lastModified data) in
               s <- get ;;
               if Js.truthy_opt nueva
                  && negb (opt_string_eqb nueva (driveTreeVersion s))
               then ret (mkAct true nueva None)
               else ret (mkAct false None None)
           end
     end)
    (fun e => ret (mkAct false None (Some e))).

(** [m?.length] of an index entry list that may be absent. *)
Definition con_imagenes (o : option (list IndexEntry)) : bool :=
  match o with
  | Some l => 0 <? List.length l
  | None => false
  end.

Definition normalizar (claveOriginal : string) : string :=
  Js.toLowerCase (Js.trim claveOriginal).

(** Lines 625-654: the tiers, once an index is in place. *)
Definition buscar_por_niveles (claveNorm : string) : M (list string) :=
  s <- get ;;
  let exacto := map_get (imagenIndex s) claveNorm in
  if con_imagenes exacto then
    ret (match exacto with Some l => urls l | None => [] end)
  else
    let desde :=
      match map_get (aliasIndex s) claveNorm with
      | Some porAlias =>
          if Js.truthy porAlias then map_get (imagenIndex s) porAlias else None
      | None => None
      end in
    if con_imagenes desde then
      ret (match desde with Some l => urls l | None => [] end)
    else
      let parcial := _busquedaParcial (imagenIndex s) claveNorm in
      if 0 <? List.length parcial then ret parcial
      else
        actualizacion <- verificarActualizacionIndice ;;
        hallado <-
          (if necesitaActualizar actualizacion then
             construirIndiceImagenes true ;;
             s' <- get ;;
             ret (map_get (imagenIndex s') claveNorm)
           else ret None) ;;
        if con_imagenes hallado then
          ret (match hallado with Some l => urls l | None => [] end)
        else _buscarImagenesLocales claveNorm.

(** Lines 615-660. *)
Definition findImageUrls (claveOriginal : string) : M (list string) :=
  try_catch
    (let claveNorm := normalizar claveOriginal in
     if negb (Js.truthy claveNorm) then _buscarImagenesLocales ""
     else
       s <- get ;;
       if map_size (imagenIndex s) =? 0 then
         r <- construirIndiceImagenes false ;;
         if negb (success r) then _buscarImagenesLocales claveNorm
         else buscar_por_niveles claveNorm
       else buscar_por_niveles claveNorm)
    (fun _ => _buscarImagenesLocales (normalizar claveOriginal)).

End Programa.


(* ------------------------------------------------------------------ *)
(** ** The rest of the module: index size and the periodic check *)

(** Line 692. *)
Definition getIndiceSize : M nat :=
  s <- get ;; ret (map_size (imagenIndex s)).

(** [s.substring(0, n)]. *)
Fixpoint substring_desde_0 (n : nat) (s : string) : string :=
  match n, s with
  | O, _ => EmptyString
  | S _, EmptyString => EmptyString
  | S m, String c r => String c (substring_desde_0 m r)
  end.

(** Lines 678-688: what the timer of [iniciarActualizacionAutomatica] runs
    every fifteen minutes; the timer itself is not modelled.  Its
    notification goes to the trace, after those of the build. *)
Definition verificacion_automatica (env : Env) : M unit :=
  try_catch
    (act <- verificarActualizacionIndice env ;;
     if necesitaActualizar act then
       r <- construirIndiceImagenes env true ;;
       if success r
       then mostrarNotificacion
              (AvisoIndiceActualizado
                 (option_map (substring_desde_0 8) (nuevaVersion act)))
       else ret tt
     else ret tt)
    (fun _ => ret tt).

(* ------------------------------------------------------------------ *)
(** ** The request cache of utils.js *)

Module Utils.

(** What [fetchData] throws. *)
Inductive Error :=
| ErrorDeRed
| ErrorDeSintaxis
| ErrorDeTipo
| ErrorHttp (mensaje : string).

(** The module state of utils.js that [fetchData] uses, with the requests
    made so far. *)
Record Estado (D : Type) := mkEstado {
  cache : JsMap D;
  cacheTimers : JsMap Z;
  pedidos : list string
}.
Arguments mkEstado {D} cache cacheTimers pedidos.
Arguments cache {D} e.
Arguments cacheTimers {D} e.
Arguments pedidos {D} e.

Definition CACHE_TTL : Z := 5 * 60 * 1000.

(** The text of [`Error ${status}`]. *)
Definition mensaje_de_status (status : nat) : string :=
  "Error " ++ NilZero.string_of_uint (Nat.to_uint status).

Section FetchData.

(** JSON values are left abstract: [D] with its truthiness and its
    [error] property ([None] when reading a property of the value throws,
    as on [null]; [Some None] when the property is falsy; [Some (Some m)]
    when it is truthy and reads [m] as a message). *)
Variable D : Type.
Variable es_truthy : D -> bool.
Variable propiedad_error : D -> option (option string).

(** Lines 308-314: the entry served without a request, if any. *)
Definition servido_de_cache (now : Z) (url : string) (e : Estado D)
  : option D :=
  match map_get (cache e) url, map_get (cacheTimers e) url with
  | Some cached, Some cachedTime =>
      if es_truthy cached && negb (cachedTime =? 0)%Z
         && (now - cachedTime <? CACHE_TTL)%Z
      then Some cached
      else None
  | _, _ => None
  end.

(** Lines 316-325: the request, [respuesta] being what [fetch(url)]
    followed by [response.json()] gives. *)
Definition pedir (now : Z) (respuesta : Response D) (url : string)
    (e : Estado D) : (D + Error) * Estado D :=
  let e1 := mkEstado (cache e) (cacheTimers e) (pedidos e ++ [url])%list in
  match respuesta with
  | Rejected => (inr ErrorDeRed, e1)
  | Replied ok status body =>
      if negb ok then
        match body with
        | None => (inr (ErrorHttp (mensaje_de_status status)), e1)
        | Some error =>
            match propiedad_error error with
            | None => (inr ErrorDeTipo, e1)
            | Some (Some m) => (inr (ErrorHttp m), e1)
            | Some None => (inr (ErrorHttp (mensaje_de_status status)), e1)
            end
        end
      else
        match body with
        | None => (inr ErrorDeSintaxis, e1)
        | Some data =>
            (inl data,
             mkEstado (map_set (cache e) url data)
                      (map_set (cacheTimers e) url now)
                      (pedidos e ++ [url])%list)
        end
  end.

(** Lines 307-326; [now] is what [Date.now()] gives at the call. *)
Definition fetchData (now : Z) (respuesta : Response D) (url : string)
    (e : Estado D) : (D + Error) * Estado D :=
  match servido_de_cache now url e with
  | Some cached => (inl cached, e)
  | None => pedir now respuesta url e
  end.

End FetchData.

End Utils.
(* ------------------------------------------------------------------ *)
(** ** Vocabulary of the statements *)

(** Every key of the primary index is a non-empty string filed with a
    non-empty list, and every alias is a non-empty string that leads to
    such a key. *)
Definition bien_formado (b : Construido) : Prop :=
  (forall k l, map_get (nuevoIndice b) k = Some l -> k <> "" /\ l <> [])
  /\ (forall a k, map_get (nuevoAlias b) a = Some k ->
        a <> "" /\ k <> "" /\
        exists l, map_get (nuevoIndice b) k = Some l /\ l <> []).

(** [m] moves every state along the relation [R], whatever it returns. *)
Definition respeta (R : State -> State -> Prop) {A} (m : M A) : Prop :=
  forall s, R s (snd (m s)).

(** The module state and the trace are as before; storage and clock may
    have moved. *)
Definition quieto (s s' : State) : Prop :=
  imagenIndex s' = imagenIndex s /\ aliasIndex s' = aliasIndex s
  /\ driveTreeVersion s' = driveTreeVersion s /\ trace s' = trace s.

Definition es_construir (e : Event) : bool :=
  match e with
  | EvConstruir _ => true
  | _ => false
  end.

(** The trace has grown, by events that are not calls of the builder. *)
Definition sin_construir (s s' : State) : Prop :=
  exists evs, trace s' = (trace s ++ evs)%list
              /\ forallb (fun e => negb (es_construir e)) evs = true.

(** [wp m Q s]: if [m] returns from [s], the value and the final state
    satisfy [Q].  (What happens when [m] throws is left to the [try]
    around it.) *)
Definition wp {A} (m : M A) (Q : A -> State -> Prop) (s : State) : Prop :=
  match m s with
  | (Ret a, s') => Q a s'
  | (Throw _, _) => True
  end.

(** The four answers of a build.  A built index is in place, whole, when
    the answer says so. *)
Definition instalado (r : BuildResult) (s' : State) : Prop :=
  fromCache r = Some false ->
  exists driveData,
    r = res_construido (totalCarpetas (construir driveData))
                       (totalArchivos (construir driveData))
    /\ imagenIndex s' = nuevoIndice (construir driveData)
    /\ aliasIndex s' = nuevoAlias (construir driveData).

(* ------------------------------------------------------------------ *)
(** ** Concrete trees, worlds and states *)

Module Ejemplo.

(** A file node that carries only its identifier [i]. *)
Definition archivo (i : string) : Item :=
  mkItem (Some i) None None None None None None None None.

Definition carpeta (k : string) (alias : option string) (ids : list string)
  : Carpeta :=
  mkCarpeta (Some k) None alias (Some (map archivo ids)).

Definition arbol_de (carpetas : list Carpeta) : DriveData :=
  mkDrive (Some [mkNodo (Some carpetas)]).

(** A world whose server answers version [v] and tree [arbol], whose
    single-key endpoint knows no image, whose clock stands at [0] and whose
    storage takes every write. *)
Definition mundo (v : string) (arbol : DriveData) : Env :=
  mkEnv (fun _ => Replied true 200 (Some (mkVersion (Some v) None)))
        (fun _ => Replied true 200 (Some arbol))
        (fun _ _ => Replied true 200 (Some []))
        (fun _ => 0%Z)
        (fun _ _ _ => true).

(** The module as it is loaded: nothing indexed, nothing stored. *)
Definition inicial : State := mkState [] [] None [] 0 [].

(** The state a first build leaves. *)
Definition tras_construir (e : Env) : State :=
  snd (construirIndiceImagenes e false inicial).

(** Scenarios A and B: one folder, two files, one alias. *)
Definition arbol_plaza : DriveData :=
  arbol_de [carpeta "i-01-002-03" (Some "Plaza Centro") ["f1"; "f2"]].

Definition mundo_plaza : Env := mundo "v1" arbol_plaza.

(** An alias that is also the key of another folder. *)
Definition arbol_alias_clave : DriveData :=
  arbol_de [carpeta "a" (Some "b") ["f1"]; carpeta "b" None ["f2"]].

(** An alias written with spaces around it. *)
Definition arbol_alias_espacios : DriveData :=
  arbol_de [carpeta "i-01" (Some " Plaza ") ["f1"]].

End Ejemplo.

(* ------------------------------------------------------------------ *)
(** ** Vocabulary of the fuzzy tier *)

(** [n] occurs in [h]. *)
Definition subcadena (n h : string) : Prop :=
  exists a b, h = a ++ n ++ b.

(** The stored key [carpeta] is a candidate for the query. *)
Definition aceptada (claveNorm carpeta : string) : Prop :=
  subcadena claveNorm carpeta \/ subcadena carpeta claveNorm.

(** The absolute difference of the two lengths. *)
Definition distancia (claveNorm carpeta : string) : Z :=
  Z.abs (Z.of_nat (String.length carpeta) - Z.of_nat (String.length claveNorm)).

(** What the scan knows after reading [vistos]: nothing matched, or the
    best so far is one of them, matches, and no match among them is nearer. *)
Definition lo_mejor (q : string) (vistos : list (string * list IndexEntry))
    (mejor : option (nat * string * list IndexEntry)) : Prop :=
  match mejor with
  | None => forall k f, In (k, f) vistos -> coincide k q = false
  | Some (sc, k, f) =>
      In (k, f) vistos /\ coincide k q = true /\ sc = score_de k q
      /\ forall k' f', In (k', f') vistos -> coincide k' q = true ->
                       sc <= score_de k' q
  end.

(** While every candidate read is strictly farther than [sc], the best held
    stays strictly farther than [sc], and the loop does not break. *)
Definition mas_lejos (sc : nat) (mejor : option (nat * string * list IndexEntry))
  : Prop :=
  match mejor with
  | None => True
  | Some (m, _, _) => sc < m
  end.

(** The exact tier finds nothing for [c]. *)
Definition falla_exacta (s : State) (c : string) : Prop :=
  con_imagenes (map_get (imagenIndex s) c) = false.

(** The alias tier finds nothing for [c]. *)
Definition falla_alias (s : State) (c : string) : Prop :=
  forall k, map_get (aliasIndex s) c = Some k -> Js.truthy k = true ->
            con_imagenes (map_get (imagenIndex s) k) = false.

(* ------------------------------------------------------------------ *)
(** ** Vocabulary of the trace *)

(** Calls of the builder recorded in a trace. *)
Definition construcciones (t : list Event) : nat :=
  List.length (filter es_construir t).

Definition es_forzada (e : Event) : bool :=
  match e with
  | EvConstruir true => true
  | _ => false
  end.

(** Forced calls of the builder recorded in a trace. *)
Definition forzadas (t : list Event) : nat :=
  List.length (filter es_forzada t).

(** The single-key endpoint has nothing to give: the request fails, the
    answer is not [ok], its body does not parse, or it is an empty array. *)
Definition sin_locales (env : Env) : Prop :=
  forall n k,
    match fetch_local env n k with
    | Replied true _ (Some (_ :: _)) => False
    | _ => True
    end.

(** The state once the version endpoint has been asked. *)
Definition tras_consulta (s : State) : State :=
  mkState (imagenIndex s) (aliasIndex s) (driveTreeVersion s)
          (localStorage s) (S (tick s)) (trace s ++ [EvFetchVersion])%list.

(** What the exact tier gives on the index of [s]. *)
Definition exacto_en (s : State) (c : string) : list string :=
  match map_get (imagenIndex s) c with
  | Some l => urls l
  | None => []
  end.

(** An answer of the lookup that is a miss or the images of one folder of
    the index held at the end. *)
Definition vacio_o_del_indice (l : list string) (s' : State) : Prop :=
  l = [] \/ exists k f, In (k, f) (imagenIndex s') /\ f <> [] /\ l = urls f.

(** Scenario D: the server moves from version ["v1"] to ["v2"], and the
    tree gains the folder ["x-99"], once the first build (four ticks) is
    over. *)
Definition mundo_cambiante : Env :=
  mkEnv (fun n => Replied true 200
                    (Some (mkVersion (Some (if n <? 4 then "v1" else "v2"))
                                     None)))
        (fun n => Replied true 200
                    (Some (if n <? 4 then Ejemplo.arbol_plaza
                           else Ejemplo.arbol_de
                                  [Ejemplo.carpeta "i-01-002-03" None ["f1"];
                                   Ejemplo.carpeta "x-99" None ["f9"]])))
        (fun _ _ => Replied true 200 (Some []))
        (fun _ => 0%Z)
        (fun _ _ _ => true).

(* ------------------------------------------------------------------ *)
(** ** Vocabulary of the builder's key resolution *)

(** A name made of white space only (or empty). *)
Fixpoint en_blanco (s : string) : bool :=
  match s with
  | EmptyString => true
  | String c r => Js.is_space c && en_blanco r
  end.

(** The folder resolves to the empty key: its server key is the empty
    string, or it has no server key and its name is absent or blank. *)
Definition sin_clave (carpeta : Carpeta) : Prop :=
  c_k carpeta = Some ""
  \/ (c_k carpeta = None
      /\ match c_name carpeta with
         | None => True
         | Some n => en_blanco n = true
         end).

(** A folder named in free text, with no server key and one file. *)
Definition arbol_sin_patron : DriveData :=
  Ejemplo.arbol_de
    [mkCarpeta None (Some "Sin patron") None (Some [Ejemplo.archivo "f3"])].

(* ------------------------------------------------------------------ *)
(** ** Vocabulary of the offline fallback *)

Definition es_descarga (e : Event) : bool :=
  match e with
  | EvFetchTree => true
  | _ => false
  end.

(** Up to here the storage has not been written and the tree has not been
    asked for. *)
Definition sin_descargar (s s' : State) : Prop :=
  localStorage s' = localStorage s
  /\ exists evs, trace s' = (trace s ++ evs)%list
                 /\ forallb (fun e => negb (es_descarga e)) evs = true.

(** The events a run from [s] to [s'] added to the trace. *)
Definition eventos_nuevos (s s' : State) : list Event :=
  skipn (List.length (trace s)) (trace s').

(** The tree endpoint never delivers a tree: the request fails, the answer
    is not [ok], or its body does not parse. *)
Definition arbol_caido (env : Env) : Prop :=
  forall n,
    match fetch_tree env n with
    | Replied true _ (Some _) => False
    | _ => True
    end.

(** Line 835: the version token of an index key. *)
Definition version_de (key : string) : string :=
  Js.replace_first_empty key CACHE_PREFIX.

(** Lines 834-839: the scan stops at [key]: the key passes the filter and
    both its payload and its metadata record are there. *)
Definition es_candidato (ls : LocalStorage) (key : string) : bool :=
  es_clave_de_indice key
  && match ls_getItem ls key,
           ls_getItem ls (CACHE_META_PREFIX ++ version_de key) with
     | Some ci, Some cm => stored_truthy ci && stored_truthy cm
     | _, _ => false
     end.

(** Lines 784 and 842: the alias map a stored alias payload restores to,
    when it can be read. *)
Definition alias_guardado (o : option Stored) : option (JsMap string) :=
  match o with
  | None => Some []
  | Some (StAlias l) => Some (map_of_entries l)
  | Some (StOther raw) => if Js.truthy raw then None else Some []
  | Some _ => None
  end.

(** A storage that holds the version ["v1"], written at time [0]. *)
Definition almacen_v1 : LocalStorage :=
  [("theme", StOther "dark");
   ("imagenIndex_vv1", StIndex [("i-01-002-03", [mkEntry None "u1" None])]);
   ("imagenIndex_valias_v1", StAlias [("plaza centro", "i-01-002-03")]);
   ("imagenIndex_meta_vv1", StMeta (mkMeta 0 "v1" 1 1))].

(** A storage that holds the version ["alias_1"], as a build at that
    version writes it. *)
Definition almacen_alias_1 : LocalStorage :=
  [("imagenIndex_valias_1",
    StIndex [("i-01-002-03", [mkEntry None "u1" None])]);
   ("imagenIndex_valias_alias_1", StAlias []);
   ("imagenIndex_meta_valias_1", StMeta (mkMeta 0 "alias_1" 1 1))].

(** A storage whose first index payload is not JSON; the version ["v1"]
    follows it, whole. *)
Definition almacen_ilegible : LocalStorage :=
  [("imagenIndex_vv0", StOther "{");
   ("imagenIndex_meta_vv0", StMeta (mkMeta 0 "v0" 1 1));
   ("imagenIndex_vv1", StIndex [("i-01-002-03", [mkEntry None "u1" None])]);
   ("imagenIndex_meta_vv1", StMeta (mkMeta 0 "v1" 1 1))].

(** The server answers the version [v] but no tree; the clock stands a year
    after time [0]. *)
Definition mundo_sin_arbol (v : string) : Env :=
  mkEnv (fun _ => Replied true 200 (Some (mkVersion (Some v) None)))
        (fun _ => Rejected)
        (fun _ _ => Rejected)
        (fun _ => 31536000000%Z)
        (fun _ _ _ => true).

(** The state the fallback leaves when it restores the version [ver]. *)
Definition restaurado (s : State) (ver : string)
    (l : list (string * list IndexEntry)) (al : JsMap string) (m : Meta)
  : State :=
  mkState (map_of_entries l) al (Some ver) (localStorage s) (tick s)
          (trace s ++ [EvNotificar (AvisoFallback m)])%list.

(* ------------------------------------------------------------------ *)
(** ** Vocabulary of the storage quota *)

(** A user agent that takes a write as long as the area, keys and values,
    stays within [cuota] characters. *)
Definition acepta_hasta (cuota : nat) (ls : LocalStorage) (k : string)
    (v : Stored) : bool :=
  ls_chars (ls_setItem ls k v) <=? cuota.

(** No server, the clock at [0], and a storage of [cuota] characters. *)
Definition mundo_con_cuota (cuota : nat) : Env :=
  mkEnv (fun _ => Rejected) (fun _ => Rejected) (fun _ _ => Rejected)
        (fun _ => 0%Z) (acepta_hasta cuota).

(** The module holding the index [idx] at version ["v1"], nothing stored. *)
Definition con_indice (idx : JsMap (list IndexEntry)) : State :=
  mkState idx [] (Some "v1") [] 0 [].

(** An index whose single key is 4 800 000 characters long. *)
Definition indice_grande : JsMap (list IndexEntry) :=
  [(Js.replicate (4800 * 1000) "a", [mkEntry None "u" None])].

(* ------------------------------------------------------------------ *)
(** ** Vocabulary of the further properties *)

(** No white space anywhere in the string. *)
Definition sin_espacios (s : string) : bool :=
  forallb (fun c => negb (Js.is_space c)) (list_ascii_of_string s).

(** Decimal digits only. *)
Definition solo_digitos (s : string) : bool :=
  forallb Js.is_digit (list_ascii_of_string s).

(** What [trimStart] leaves does not begin with white space, nor does what
    [trimEnd] then leaves. *)
Definition empieza_bien (s : string) : Prop :=
  match s with
  | EmptyString => True
  | String c _ => Js.is_space c = false
  end.

(** A capture of [(\d{2,3})]: two or three digits. *)
Definition grupo_de_digitos (g : string) : Prop :=
  solo_digitos g = true /\ (String.length g = 2 \/ String.length g = 3).

(** Lines 708-709: the type letter of a key, from the captured character. *)
Definition letra_de_tipo (c : ascii) : ascii :=
  if (Js.code c =? 108) || (Js.code c =? 76) || (Js.code c =? 49)
  then "i"%char else Js.lower c.

(** Line 712: the middle group, padded to three digits. *)
Definition grupo_central (g : string) : string :=
  if String.length g =? 2 then String "0" g else g.

(** Lines 880-884: what the single-key endpoint's answer is worth. *)
Definition imagenes_de (r : Response (list string)) : list string :=
  match r with
  | Replied true _ (Some (x :: l)) => x :: l
  | _ => []
  end.

(** The state once the single-key endpoint has been asked for [clave]. *)
Definition tras_local (s : State) (clave : string) : State :=
  mkState (imagenIndex s) (aliasIndex s) (driveTreeVersion s)
          (localStorage s) (S (tick s)) (trace s ++ [EvFetchLocal clave])%list.

(** Lines 626-644: what the exact, the alias and the fuzzy tier give, in
    this order, on the index of [s]. *)
Definition del_indice (s : State) (c : string) : list string :=
  if con_imagenes (map_get (imagenIndex s) c) then exacto_en s c
  else
    match map_get (aliasIndex s) c with
    | Some k =>
        if Js.truthy k && con_imagenes (map_get (imagenIndex s) k)
        then exacto_en s k
        else _busquedaParcial (imagenIndex s) c
    | None => _busquedaParcial (imagenIndex s) c
    end.

(** Lines 568-577: the version a build works with, from the answer of the
    version endpoint. *)
Definition version_leida (r : Response VersionBody) : string :=
  match r with
  | Replied true _ (Some d) =>
      match Js.or_else (Js.or_else (v_version d) (v_lastModified d))
                       (Some "unknown") with
      | Some v => v
      | None => "unknown"
      end
  | _ => "unknown"
  end.

(** The state a call of the builder is in once it has read the version. *)
Definition tras_version (forzar : bool) (s : State) : State :=
  mkState (imagenIndex s) (aliasIndex s) (driveTreeVersion s)
          (localStorage s) (S (tick s))
          (trace s ++ [EvConstruir forzar; EvFetchVersion])%list.


(** The images an index holds, all keys together. *)
Fixpoint total_imagenes (idx : JsMap (list IndexEntry)) : nat :=
  match idx with
  | [] => 0
  | (_, l) :: r => List.length l + total_imagenes r
  end.

(** Lines 746-755: the entries a folder's files give. *)
Definition archivos_de (items : list Item) : list IndexEntry :=
  fst (fold_left procesar_item items ([], 0)).

(** What every build keeps: keys are filed once, the counters are at least
    what the maps hold, and no entry has an empty URL. *)
Definition bien_contado (b : Construido) : Prop :=
  NoDup (map fst (nuevoIndice b))
  /\ NoDup (map fst (nuevoAlias b))
  /\ map_size (nuevoIndice b) <= totalCarpetas b
  /\ map_size (nuevoAlias b) <= totalCarpetas b
  /\ total_imagenes (nuevoIndice b) <= totalArchivos b
  /\ (forall k l e, In (k, l) (nuevoIndice b) -> In e l -> e_url e <> "").

(** Lines 733-768: the folders of a tree in the order the two loops visit
    them. *)
Definition carpetas_de (driveData : DriveData) : list Carpeta :=
  flat_map (fun nodo => match ne_children nodo with
                        | Some carpetas => carpetas
                        | None => []
                        end)
           (match dd_children driveData with Some l => l | None => [] end).

(** The files of a folder that reach the index. *)
Definition archivos_de_carpeta (carpeta : Carpeta) : list IndexEntry :=
  match c_children carpeta with
  | Some items => archivos_de items
  | None => []
  end.

(** Lines 738, 744 and 757: a folder is filed when it has children, a
    non-empty key and at least one usable file. *)
Definition aporta (carpeta : Carpeta) : bool :=
  Js.truthy (clave_de_carpeta carpeta)
  && (0 <? List.length (archivos_de_carpeta carpeta)).

Definition aporta_clave (k : string) (carpeta : Carpeta) : bool :=
  aporta carpeta && String.eqb (clave_de_carpeta carpeta) k.

(** Line 761: a filed folder with a non-empty alias files it in lower
    case. *)
Definition aporta_alias (a : string) (carpeta : Carpeta) : bool :=
  aporta carpeta
  && match c_alias carpeta with
     | Some al => Js.truthy al && String.eqb (Js.toLowerCase al) a
     | None => false
     end.

Definition ultimo {A} (l : list A) : option A :=
  match rev l with
  | [] => None
  | x :: _ => Some x
  end.

(* ------------------------------------------------------------------ *)
(** ** Vocabulary of the storage cache *)

(** The metadata record under [key] is older than the cleanup allows. *)
Definition caducado (ahora : Z) (key : string) (v : Stored) : bool :=
  Js.startsWith key CACHE_META_PREFIX
  && match v with
     | StMeta m => (TTL_LIMPIEZA_MS <? ahora - timestamp m)%Z
     | _ => false
     end.

(** No metadata record of the storage is older than the cleanup allows. *)
Definition nada_caducado (ahora : Z) (ls : LocalStorage) : Prop :=
  forall key v, In (key, v) ls -> caducado ahora key v = false.

(** Lines 813-823 on the storage alone: one turn of the cleanup loop, at
    position [i]. *)
Definition paso_limpieza (ahora : Z) (ls : LocalStorage) (i : nat)
  : LocalStorage :=
  match ls_key ls i with
  | Some key =>
      match ls_getItem ls key with
      | Some v =>
          if caducado ahora key v then
            let ver := Js.replace_first_empty key CACHE_META_PREFIX in
            ls_removeItem
              (ls_removeItem (ls_removeItem ls (CACHE_PREFIX ++ ver))
                             (CACHE_PREFIX ++ "alias_" ++ ver))
              key
          else ls
      | None => ls
      end
  | None => ls
  end.

(** Lines 812-824 on the storage alone. *)
Fixpoint limpieza (ahora : Z) (ls : LocalStorage) (desde : nat)
  : LocalStorage :=
  match desde with
  | O => ls
  | S i => limpieza ahora (paso_limpieza ahora ls i) i
  end.

(** Lines 797-808: the storage once the three records of a version are
    written. *)
Definition con_version (ls : LocalStorage) (v : string)
    (idx : JsMap (list IndexEntry)) (al : JsMap string) (m : Meta)
  : LocalStorage :=
  ls_setItem
    (ls_setItem (ls_setItem ls (CACHE_PREFIX ++ v) (StIndex idx))
                (CACHE_PREFIX ++ "alias_" ++ v) (StAlias al))
    (CACHE_META_PREFIX ++ v) (StMeta m).

(** The storage takes every write. *)
Definition sin_cuota (env : Env) : Prop :=
  forall ls k v, storage_accepts env ls k v = true.

(** Lines 797-808: the storage takes the three writes of a save, one after
    the other. *)
Definition acepta_version (env : Env) (ls : LocalStorage) (v : string)
    (idx : JsMap (list IndexEntry)) (al : JsMap string) (m : Meta) : Prop :=
  storage_accepts env ls (CACHE_PREFIX ++ v) (StIndex idx) = true
  /\ storage_accepts env
       (ls_setItem ls (CACHE_PREFIX ++ v) (StIndex idx))
       (CACHE_PREFIX ++ "alias_" ++ v) (StAlias al) = true
  /\ storage_accepts env
       (ls_setItem (ls_setItem ls (CACHE_PREFIX ++ v) (StIndex idx))
                   (CACHE_PREFIX ++ "alias_" ++ v) (StAlias al))
       (CACHE_META_PREFIX ++ v) (StMeta m) = true.

(* ------------------------------------------------------------------ *)
(** ** Vocabulary of a lookup that misses *)

(** Lines 646-655: tiers 4 and 5, what [findImageUrls] does once the exact,
    the alias and the fuzzy tier have found nothing. *)
Definition niveles_4_y_5 (env : Env) (claveNorm : string) : M (list string) :=
  actualizacion <- verificarActualizacionIndice env ;;
  hallado <-
    (if necesitaActualizar actualizacion then
       construirIndiceImagenes env true ;;
       s' <- get ;;
       ret (map_get (imagenIndex s') claveNorm)
     else ret None) ;;
  if con_imagenes hallado then
    ret (match hallado with Some l => urls l | None => [] end)
  else _buscarImagenesLocales env claveNorm.

(** Lines 620-623: [s0] is the state in which the tiers of a call made in
    [s] start: [s] itself when an index is held, else the state a first,
    unforced build leaves when it answers [success]. *)
Definition empieza_en (env : Env) (s s0 : State) : Prop :=
  (imagenIndex s <> [] /\ s0 = s)
  \/ (imagenIndex s = []
      /\ exists r0, construirIndiceImagenes env false s = (Ret r0, s0)
                    /\ success r0 = true).

(** An answer of the lookup for the key [c]: a miss, or what the tiers give
    for [c] on the index held at the end. *)
Definition vacio_o_hallado (c : string) (l : list string) (s' : State)
  : Prop :=
  l = [] \/ l = del_indice s' c.

(** An answer of tiers 4 and 5 for the key [c]: a miss, or what the exact
    tier gives for [c] on the index held at the end. *)
Definition vacio_o_exacto (c : string) (l : list string) (s' : State)
  : Prop :=
  l = [] \/ l = exacto_en s' c.

(* ------------------------------------------------------------------ *)
(** ** Vocabulary of the periodic check *)

(** The state once the notification [a] has been shown. *)
Definition notificado (s : State) (a : Aviso) : State :=
  mkState (imagenIndex s) (aliasIndex s) (driveTreeVersion s)
          (localStorage s) (tick s) (trace s ++ [EvNotificar a])%list.
(* ------------------------------------------------------------------ *)
(** ** Facts about [JsMap] *)

Section MapFacts.

Context {V : Type}.

Lemma map_get_set_same (m : JsMap V) k v :
  map_get (map_set m k v) k = Some v.
Proof.
  induction m as [|[k' v'] r IH]; simpl.
  - now rewrite String.eqb_refl.
  - destruct (String.eqb k' k) eqn:E; simpl.
    + now rewrite String.eqb_refl.
    + now rewrite E.
Qed.

Lemma map_get_set_other (m : JsMap V) k k' v :
  k <> k' -> map_get (map_set m k v) k' = map_get m k'.
Proof.
  intros Hne. induction m as [|[k0 v0] r IH]; simpl.
  - destruct (String.eqb_spec k k'); [contradiction|reflexivity].
  - destruct (String.eqb_spec k0 k) as [->|Hk]; simpl.
    + destruct (String.eqb_spec k k'); [contradiction|reflexivity].
    + destruct (String.eqb_spec k0 k'); [reflexivity|exact IH].
Qed.

Lemma map_get_In (m : JsMap V) k v :
  map_get m k = Some v -> In (k, v) m.
Proof.
  induction m as [|[k0 v0] r IH]; simpl; [discriminate|].
  destruct (String.eqb_spec k0 k) as [->|Hk].
  - intros [= ->]. now left.
  - intros H. right. now apply IH.
Qed.

Lemma map_get_some_size (m : JsMap V) k v :
  map_get m k = Some v -> (map_size m =? 0) = false.
Proof. destruct m; simpl; [discriminate|reflexivity]. Qed.

End MapFacts.

(* ------------------------------------------------------------------ *)
(** ** What the builder guarantees *)

Lemma truthy_true_iff s : Js.truthy s = true <-> s <> "".
Proof.
  unfold Js.truthy. destruct (String.eqb_spec s ""); simpl; split;
    congruence.
Qed.

Lemma toLowerCase_nonempty s : s <> "" -> Js.toLowerCase s <> "".
Proof. destruct s; simpl; congruence. Qed.

Lemma longitud_positiva {A} (l : list A) :
  (0 <? List.length l) = true <-> l <> [].
Proof.
  destruct l; simpl; split; intros H.
  - discriminate.
  - now contradiction H.
  - discriminate.
  - reflexivity.
Qed.


Lemma bien_formado_vacio : bien_formado construido_vacio.
Proof. split; simpl; intros; discriminate. Qed.

Lemma procesar_carpeta_bien_formado b carpeta :
  bien_formado b -> bien_formado (procesar_carpeta b carpeta).
Proof.
  intros [Hi Ha]. unfold procesar_carpeta.
  destruct (c_children carpeta) as [[|it items]|]; try (split; assumption).
  destruct (Js.truthy (clave_de_carpeta carpeta)) eqn:Hk; cbn [negb];
    [|split; assumption].
  destruct (fold_left procesar_item (it :: items) ([], totalArchivos b))
    as [archs total].
  destruct (0 <? List.length archs) eqn:Hlen; [|split; simpl; assumption].
  apply truthy_true_iff in Hk. apply longitud_positiva in Hlen.
  set (clave := clave_de_carpeta carpeta) in *.
  assert (Hi' : forall k l,
             map_get (map_set (nuevoIndice b) clave archs) k = Some l ->
             k <> "" /\ l <> []).
  { intros k l. destruct (String.eqb_spec clave k) as [<-|Hne].
    - rewrite map_get_set_same. intros [= <-]. now split.
    - rewrite map_get_set_other by assumption. apply Hi. }
  assert (Hkeep : forall k, k <> "" ->
             (exists l, map_get (nuevoIndice b) k = Some l /\ l <> []) ->
             exists l, map_get (map_set (nuevoIndice b) clave archs) k = Some l
                       /\ l <> []).
  { intros k _ [l [Hl Hne]]. destruct (String.eqb_spec clave k) as [<-|Hd].
    - exists archs. now rewrite map_get_set_same.
    - exists l. now rewrite map_get_set_other. }
  split; simpl; [exact Hi'|].
  intros a k. destruct (c_alias carpeta) as [al|].
  - destruct (Js.truthy al) eqn:Hal.
    + apply truthy_true_iff in Hal.
      destruct (String.eqb_spec (Js.toLowerCase al) a) as [<-|Hd].
      * rewrite map_get_set_same. intros [= <-].
        split; [now apply toLowerCase_nonempty|]. split; [assumption|].
        exists archs. now rewrite map_get_set_same.
      * rewrite map_get_set_other by assumption. intros H.
        destruct (Ha _ _ H) as [H1 [H2 H3]]. auto.
    + intros H. destruct (Ha _ _ H) as [H1 [H2 H3]]. auto.
  - intros H. destruct (Ha _ _ H) as [H1 [H2 H3]]. auto.
Qed.

Lemma fold_bien_formado {X} (f : Construido -> X -> Construido) :
  (forall b x, bien_formado b -> bien_formado (f b x)) ->
  forall l b, bien_formado b -> bien_formado (fold_left f l b).
Proof.
  intros Hf l. induction l as [|x r IH]; simpl; intros b Hb; auto.
Qed.

Lemma procesar_nodo_bien_formado b nodo :
  bien_formado b -> bien_formado (procesar_nodo b nodo).
Proof.
  intros Hb. unfold procesar_nodo. destruct (ne_children nodo); auto.
  apply fold_bien_formado; auto using procesar_carpeta_bien_formado.
Qed.

Lemma construir_bien_formado driveData : bien_formado (construir driveData).
Proof.
  unfold construir. apply fold_bien_formado;
    auto using procesar_nodo_bien_formado, bien_formado_vacio.
Qed.

(* ------------------------------------------------------------------ *)
(** ** Reasoning about the monad *)


Section Respeta.

Variable R : State -> State -> Prop.
Hypothesis R_refl : forall s, R s s.
Hypothesis R_trans : forall a b c, R a b -> R b c -> R a c.

Lemma respeta_ret {A} (a : A) : respeta R (ret a).
Proof. intros s. apply R_refl. Qed.

Lemma respeta_throw {A} e : respeta R (@throw A e).
Proof. intros s. apply R_refl. Qed.

Lemma respeta_get : respeta R get.
Proof. intros s. apply R_refl. Qed.

Lemma respeta_bind {A B} (m : M A) (f : A -> M B) :
  respeta R m -> (forall a, respeta R (f a)) -> respeta R (bind m f).
Proof.
  intros Hm Hf s. unfold bind. specialize (Hm s).
  destruct (m s) as [[a|e] s1]; simpl in *; [|assumption].
  eapply R_trans; [exact Hm|apply Hf].
Qed.

Lemma respeta_try_catch {A} (m : M A) (h : Exn -> M A) :
  respeta R m -> (forall e, respeta R (h e)) -> respeta R (try_catch m h).
Proof.
  intros Hm Hh s. unfold try_catch. specialize (Hm s).
  destruct (m s) as [[a|e] s1]; simpl in *; [assumption|].
  eapply R_trans; [exact Hm|apply Hh].
Qed.

End Respeta.

(** A [try] whose handler returns never throws. *)
Lemma try_catch_devuelve {A} (m : M A) (h : Exn -> M A) :
  (forall e s, exists a s', h e s = (Ret a, s')) ->
  forall s, exists a s', try_catch m h s = (Ret a, s').
Proof.
  intros Hh s. unfold try_catch. destruct (m s) as [[a|e] s1]; eauto.
Qed.

Lemma try_catch_no_lanza {A} (m : M A) (h : Exn -> M A) s e s' :
  (forall e s, exists a s', h e s = (Ret a, s')) ->
  try_catch m h s <> (Throw e, s').
Proof.
  intros Hh E. destruct (try_catch_devuelve m h Hh s) as (a & s1 & E1).
  congruence.
Qed.


Lemma quieto_refl s : quieto s s.
Proof. repeat split. Qed.

Lemma quieto_trans a b c : quieto a b -> quieto b c -> quieto a c.
Proof.
  intros (H1 & H2 & H3 & H4) (K1 & K2 & K3 & K4).
  repeat split; congruence.
Qed.


Lemma sin_construir_refl s : sin_construir s s.
Proof. exists []. now rewrite app_nil_r. Qed.

Lemma sin_construir_trans a b c :
  sin_construir a b -> sin_construir b c -> sin_construir a c.
Proof.
  intros (e1 & H1 & F1) (e2 & H2 & F2). exists (e1 ++ e2)%list.
  rewrite H2, H1, app_assoc, forallb_app, F1, F2. now split.
Qed.

Lemma quieto_sin_construir a b : quieto a b -> sin_construir a b.
Proof.
  intros (_ & _ & _ & H). exists []. now rewrite app_nil_r.
Qed.

Create HintDb respeta.

#[local] Hint Resolve quieto_refl quieto_trans sin_construir_refl
  sin_construir_trans : respeta.

(** One step of a proof that a program respects a relation: open the
    outermost monadic operator or the outermost test. *)
Ltac paso_respeta :=
  match goal with
  | |- respeta _ (bind _ _) =>
      apply respeta_bind; [eauto with respeta| |intros ?]
  | |- respeta _ (try_catch _ _) =>
      apply respeta_try_catch; [eauto with respeta| |intros ?]
  | |- respeta _ (ret _) => apply respeta_ret; eauto with respeta
  | |- respeta _ (throw _) => apply respeta_throw; eauto with respeta
  | |- respeta _ get => apply respeta_get; eauto with respeta
  | |- respeta _ (match ?x with _ => _ end) => destruct x
  end.

Section Hechos.

Variable env : Env.

Lemma quieto_getItem k : respeta quieto (getItem k).
Proof. intros s. apply quieto_refl. Qed.

Lemma quieto_set_localStorage ls : respeta quieto (set_localStorage ls).
Proof. intros s. repeat split. Qed.

Lemma quieto_Date_now : respeta quieto (Date_now env).
Proof. intros s. repeat split. Qed.

Lemma quieto_setItem k v : respeta quieto (setItem env k v).
Proof.
  unfold setItem. repeat paso_respeta; auto using quieto_set_localStorage.
Qed.

Lemma quieto_removeItem k : respeta quieto (removeItem k).
Proof.
  unfold removeItem. repeat paso_respeta; auto using quieto_set_localStorage.
Qed.

Lemma quieto_JSON_parse_meta v : respeta quieto (JSON_parse_meta v).
Proof. unfold JSON_parse_meta. repeat paso_respeta. Qed.

Lemma quieto_JSON_parse_index v : respeta quieto (JSON_parse_index v).
Proof. unfold JSON_parse_index. repeat paso_respeta. Qed.

Lemma quieto_JSON_parse_alias v : respeta quieto (JSON_parse_alias v).
Proof. unfold JSON_parse_alias. repeat paso_respeta. Qed.

#[local] Hint Resolve quieto_getItem quieto_set_localStorage quieto_Date_now
  quieto_setItem quieto_removeItem quieto_JSON_parse_meta
  quieto_JSON_parse_index quieto_JSON_parse_alias : respeta.

Lemma quieto_limpiar ahora desde : respeta quieto (limpiar ahora desde).
Proof.
  induction desde as [|i IH]; simpl.
  - paso_respeta.
  - repeat (paso_respeta; eauto with respeta).
Qed.

Lemma quieto_guardar v c a : respeta quieto (_guardarEnCacheLocal env v c a).
Proof.
  unfold _guardarEnCacheLocal.
  repeat (paso_respeta; eauto using quieto_limpiar with respeta).
Qed.

Lemma guardar_devuelve v c a s :
  exists s', _guardarEnCacheLocal env v c a s = (Ret tt, s') /\ quieto s s'.
Proof.
  pose proof (quieto_guardar v c a s) as Hq.
  unfold _guardarEnCacheLocal in *.
  destruct (String.eqb v "unknown"); [eexists; split; [reflexivity|exact Hq]|].
  unfold try_catch in *.
  match goal with
  | |- context [match ?m s with _ => _ end] => destruct (m s) as [[[]|e] s1]
  end; eexists; split; try reflexivity; exact Hq.
Qed.

End Hechos.


Lemma wp_ret {A} (a : A) (Q : A -> State -> Prop) s : Q a s -> wp (ret a) Q s.
Proof. trivial. Qed.

Lemma wp_throw {A} e (Q : A -> State -> Prop) s : wp (throw e) Q s.
Proof. exact I. Qed.

Lemma wp_bind {A B} (m : M A) (f : A -> M B) Q s :
  wp m (fun a s1 => wp (f a) Q s1) s -> wp (bind m f) Q s.
Proof.
  unfold wp, bind. destruct (m s) as [[a|e] s1]; trivial.
Qed.

Lemma wp_bind_any {A B} (m : M A) (f : A -> M B) Q s :
  (forall a s1, wp (f a) Q s1) -> wp (bind m f) Q s.
Proof.
  intros H. apply wp_bind. unfold wp at 1.
  destruct (m s) as [[a|e] s1]; trivial.
Qed.

Lemma wp_try_catch {A} (m : M A) (h : Exn -> M A) Q s :
  wp m Q s -> (forall e s1, wp (h e) Q s1) -> wp (try_catch m h) Q s.
Proof.
  unfold wp, try_catch. intros Hm Hh.
  destruct (m s) as [[a|e] s1]; [assumption|apply Hh].
Qed.

Lemma wp_mono {A} (m : M A) (Q Q' : A -> State -> Prop) s :
  (forall a s', Q a s' -> Q' a s') -> wp m Q s -> wp m Q' s.
Proof.
  unfold wp. intros H. destruct (m s) as [[a|e] s1]; auto.
Qed.

Lemma wp_respeta {A} (m : M A) R s :
  respeta R m -> wp m (fun _ s' => R s s') s.
Proof.
  intros H. specialize (H s). unfold wp.
  destruct (m s) as [[a|e] s1]; simpl in *; trivial.
Qed.

Lemma wp_elim {A} (m : M A) Q s a s' :
  wp m Q s -> m s = (Ret a, s') -> Q a s'.
Proof. unfold wp. intros H E. now rewrite E in H. Qed.

Section Construccion.

Variable env : Env.

(** A restored cache answers [{success: true, fromCache: true}]. *)
Lemma cargar_cache_wp v s :
  wp (_cargarDesdeCacheLocal env v)
     (fun o _ => o = None \/ o = Some res_en_cache) s.
Proof.
  unfold _cargarDesdeCacheLocal.
  apply wp_try_catch; [|intros; apply wp_ret; now left].
  repeat (apply wp_bind_any; intros).
  repeat match goal with
         | |- wp (match ?x with _ => _ end) _ _ => destruct x
         | |- wp (bind _ _) _ _ => apply wp_bind_any; intros
         | |- wp (ret _) _ _ => apply wp_ret; auto
         end.
Qed.

Lemma cargar_cache_devuelve v s :
  exists o s', _cargarDesdeCacheLocal env v s = (Ret o, s')
               /\ (o = None \/ o = Some res_en_cache).
Proof.
  destruct (_cargarDesdeCacheLocal env v s) as [[o|e] s'] eqn:E.
  - exists o, s'. split; [reflexivity|].
    exact (wp_elim _ _ _ _ _ (cargar_cache_wp v s) E).
  - exfalso. revert E. unfold _cargarDesdeCacheLocal.
    apply try_catch_no_lanza. intros e0 s0. do 2 eexists. reflexivity.
Qed.

Lemma descargar_wp s :
  wp (_descargarYConstruirIndice env)
     (fun b _ => exists driveData, b = construir driveData) s.
Proof.
  unfold _descargarYConstruirIndice. apply wp_bind_any. intros res s1.
  destruct res as [|ok st [dd|]]; try exact I;
    destruct ok; simpl; try exact I.
  apply wp_ret. now exists dd.
Qed.


Lemma construir_cuerpo_wp forzar s :
  wp (construir_cuerpo env forzar) instalado s.
Proof.
  unfold construir_cuerpo.
  apply wp_bind_any. intros v s1. apply wp_bind_any. intros s1' s1''.
  match goal with |- wp (if ?c then _ else _) _ _ => destruct c end.
  { apply wp_ret. intros H. discriminate. }
  apply wp_bind.
  eapply wp_mono;
    [|match goal with
      | |- wp (if ?c then _ else _) _ _ =>
          destruct c; [apply cargar_cache_wp|apply wp_ret; now left]
      end].
  intros o s2 [->| ->]; [|apply wp_ret; intros H; discriminate].
  apply wp_bind. eapply wp_mono; [|apply descargar_wp].
  intros b s3 [dd ->]. unfold wp, bind, set_imagenIndex, set_aliasIndex,
    set_driveTreeVersion, mostrarNotificacion, emit, ret. simpl.
  match goal with
  | |- context [_guardarEnCacheLocal env ?a ?b ?c ?st] =>
      destruct (guardar_devuelve env a b c st) as (s4 & E & Hq)
  end.
  rewrite E. simpl. intros _. exists dd.
  destruct Hq as (H1 & H2 & _). simpl in *. auto.
Qed.

Lemma rescate_wp error s :
  wp (construir_rescate error) instalado s.
Proof.
  unfold construir_rescate, _cargarFallbackLocal.
  apply wp_bind. apply wp_try_catch.
  - apply wp_bind_any. intros s1 s2. revert s2.
    induction (map fst (localStorage s1)) as [|key resto IH]; intros s2;
      simpl.
    + apply wp_ret. apply wp_bind_any. intros. apply wp_ret.
      intros H; discriminate.
    + destruct (es_clave_de_indice key); simpl; [|apply IH].
      repeat (apply wp_bind_any; intros).
      repeat match goal with
             | |- wp (match ?x with _ => _ end) _ _ => destruct x
             | |- wp (bind _ _) _ _ => apply wp_bind_any; intros
             | |- wp (ret (Some _)) _ _ =>
                 apply wp_ret, wp_ret; intros H; discriminate
             | |- wp (fallback_loop _) _ _ => apply IH
             end.
  - intros e s1. apply wp_ret. apply wp_bind_any. intros. apply wp_ret.
    intros H; discriminate.
Qed.

Lemma fallback_devuelve s :
  exists o s', _cargarFallbackLocal s = (Ret o, s').
Proof.
  unfold _cargarFallbackLocal. apply try_catch_devuelve.
  intros e0 s0. do 2 eexists. reflexivity.
Qed.

Lemma rescate_devuelve error s :
  exists r s', construir_rescate error s = (Ret r, s').
Proof.
  unfold construir_rescate, bind.
  destruct (fallback_devuelve s) as (o & s1 & E). rewrite E.
  destruct o; unfold mostrarNotificacion, emit, ret; simpl; eauto.
Qed.

(** A build always answers, and a freshly built index is installed whole. *)
Lemma construirIndiceImagenes_devuelve forzar s :
  exists r s', construirIndiceImagenes env forzar s = (Ret r, s')
               /\ instalado r s'.
Proof.
  pose proof (fun s0 => construir_cuerpo_wp forzar s0) as Hc.
  unfold construirIndiceImagenes, try_catch, bind at 1.
  unfold emit at 1. simpl.
  match goal with
  | |- context [construir_cuerpo env forzar ?st] =>
      specialize (Hc st); unfold wp in Hc;
        destruct (construir_cuerpo env forzar st) as [[r|e] s1]
  end.
  - eauto.
  - destruct (rescate_devuelve e s1) as (r & s2 & E).
    pose proof (rescate_wp e s1) as Hr. unfold wp in Hr.
    rewrite E in *. eauto.
Qed.

End Construccion.

(* ------------------------------------------------------------------ *)
(** ** The fuzzy scan *)

Lemma prefix_iff n h : prefix n h = true <-> exists b, h = n ++ b.
Proof.
  revert h. induction n as [|c n IH]; intros h.
  - split; [intros _; now exists h|intros _; now destruct h].
  - destruct h as [|d h]; simpl;
      [split; [discriminate|intros [b Hb]; discriminate]|].
    destruct (Ascii.ascii_dec c d) as [->|Hne].
    + rewrite IH. split; intros [b Hb]; exists b; congruence.
    + split; [discriminate|]. intros [b Hb]. congruence.
Qed.

Lemma includes_iff h n : Js.includes h n = true <-> subcadena n h.
Proof.
  unfold subcadena. induction h as [|d h IH]; cbn [Js.includes].
  - rewrite orb_false_r, prefix_iff. split.
    + intros [b Hb]. now exists "", b.
    + intros [a [b Hb]]. destruct a; [now exists b|discriminate].
  - rewrite orb_true_iff, prefix_iff, IH. split.
    + intros [[b Hb]|[a [b Hb]]].
      * now exists "", b.
      * exists (String d a), b. simpl. now rewrite Hb.
    + intros [[|d' a] [b Hb]].
      * left. now exists b.
      * right. exists a, b. simpl in Hb. congruence.
Qed.

Lemma coincide_iff carpeta claveNorm :
  coincide carpeta claveNorm = true <-> aceptada claveNorm carpeta.
Proof.
  unfold coincide, aceptada. now rewrite orb_true_iff, !includes_iff.
Qed.

Lemma score_distancia carpeta claveNorm :
  Z.of_nat (score_de carpeta claveNorm) = distancia claveNorm carpeta.
Proof.
  unfold score_de, distancia.
  destruct (Nat.ltb_spec (String.length carpeta) (String.length claveNorm));
    lia.
Qed.

Section Parcial.

Variable q : string.

Lemma lo_mejor_cero vistos k f :
  In (k, f) vistos -> coincide k q = true -> score_de k q = 0 ->
  lo_mejor q vistos (Some (0, k, f)).
Proof.
  intros Hin Hc Hs. repeat split; auto. intros. lia.
Qed.

Lemma parcial_loop_lo_mejor resto :
  forall vistos mejor,
    lo_mejor q vistos mejor ->
    lo_mejor q (vistos ++ resto)%list (parcial_loop q resto mejor).
Proof.
  induction resto as [|[k f] resto IH]; intros vistos mejor Hm; simpl.
  - now rewrite app_nil_r.
  - replace (vistos ++ (k, f) :: resto)%list
      with ((vistos ++ [(k, f)]) ++ resto)%list
      by now rewrite <- app_assoc.
    destruct (coincide k q) eqn:Hc.
    + destruct (mejora (score_de k q) (option_map (fun m => fst (fst m)) mejor))
        eqn:Hmej.
      * destruct (score_de k q =? 0) eqn:Hz.
        -- apply Nat.eqb_eq in Hz. rewrite Hz.
           apply lo_mejor_cero; auto.
           rewrite in_app_iff. left. rewrite in_app_iff. right. now left.
        -- apply IH. repeat split; auto.
           ++ rewrite in_app_iff. right. now left.
           ++ intros k' f' Hin Hc'. rewrite in_app_iff in Hin.
              destruct Hin as [Hin|[[= <- <-]|[]]]; [|lia].
              destruct mejor as [[[sc k0] f0]|]; simpl in *.
              ** destruct Hm as (_ & _ & -> & Hmin).
                 apply Nat.ltb_lt in Hmej.
                 specialize (Hmin _ _ Hin Hc'). lia.
              ** rewrite (Hm _ _ Hin) in Hc'. discriminate.
      * apply IH. destruct mejor as [[[sc k0] f0]|]; simpl in *;
          [|discriminate].
        destruct Hm as (Hin & Hc0 & -> & Hmin).
        repeat split; auto.
        -- rewrite in_app_iff. now left.
        -- intros k' f' Hin' Hc'. rewrite in_app_iff in Hin'.
           destruct Hin' as [Hin'|[[= <- <-]|[]]]; eauto.
           simpl in Hmej. apply Nat.ltb_ge in Hmej. exact Hmej.
    + apply IH. destruct mejor as [[[sc k0] f0]|]; simpl in *.
      * destruct Hm as (Hin & Hc0 & -> & Hmin). repeat split; auto.
        -- rewrite in_app_iff. now left.
        -- intros k' f' Hin' Hc'. rewrite in_app_iff in Hin'.
           destruct Hin' as [Hin'|[[= <- <-]|[]]]; eauto. congruence.
      * intros k' f' Hin'. rewrite in_app_iff in Hin'.
        destruct Hin' as [Hin'|[[= <- <-]|[]]]; eauto.
Qed.

(** Once a best is held, a later candidate that is not strictly nearer
    leaves it in place. *)
Lemma parcial_loop_se_queda resto :
  forall sc k f,
    (forall k' f', In (k', f') resto -> coincide k' q = true ->
                   sc <= score_de k' q) ->
    parcial_loop q resto (Some (sc, k, f)) = Some (sc, k, f).
Proof.
  induction resto as [|[k' f'] resto IH]; intros sc k f Hge; simpl;
    [reflexivity|].
  destruct (coincide k' q) eqn:Hc.
  - assert (Hle : sc <= score_de k' q) by (apply (Hge k' f'); simpl; auto).
    apply Nat.ltb_ge in Hle. rewrite Hle.
    apply IH. intros; eapply Hge; simpl; eauto.
  - apply IH. intros; eapply Hge; simpl; eauto.
Qed.

Lemma parcial_loop_prefijo pre :
  forall sc resto mejor,
    (forall k' f', In (k', f') pre -> coincide k' q = true ->
                   sc < score_de k' q) ->
    mas_lejos sc mejor ->
    exists mejor',
      parcial_loop q (pre ++ resto)%list mejor = parcial_loop q resto mejor'
      /\ mas_lejos sc mejor'.
Proof.
  induction pre as [|[k' f'] pre IH]; intros sc resto mejor Hgt Hm; simpl.
  - now exists mejor.
  - assert (Hgt' : forall k f, In (k, f) pre -> coincide k q = true ->
                               sc < score_de k q)
      by (intros; eapply Hgt; simpl; eauto).
    destruct (coincide k' q) eqn:Hc; [|now apply IH].
    assert (Hlt : sc < score_de k' q) by (apply (Hgt k' f'); simpl; auto).
    destruct (mejora (score_de k' q) (option_map (fun m => fst (fst m)) mejor));
      [|now apply IH].
    destruct (Nat.eqb_spec (score_de k' q) 0) as [Hz|_]; [lia|].
    now apply IH.
Qed.

Lemma mas_lejos_mejora sc mejor :
  mas_lejos sc mejor ->
  mejora sc (option_map (fun m => fst (fst m)) mejor) = true.
Proof.
  destruct mejor as [[[m k] f]|]; simpl; [|reflexivity].
  intros H. now apply Nat.ltb_lt.
Qed.

(** The first of the nearest candidates is the one returned. *)
Lemma parcial_loop_primero pre k f post :
  coincide k q = true ->
  (forall k' f', In (k', f') pre -> coincide k' q = true ->
                 score_de k q < score_de k' q) ->
  (forall k' f', In (k', f') post -> coincide k' q = true ->
                 score_de k q <= score_de k' q) ->
  parcial_loop q (pre ++ (k, f) :: post)%list None
  = Some (score_de k q, k, f).
Proof.
  intros Hc Hpre Hpost.
  destruct (parcial_loop_prefijo pre (score_de k q) ((k, f) :: post) None
              Hpre I) as (mejor' & -> & Hm).
  simpl. rewrite Hc, (mas_lejos_mejora _ _ Hm).
  destruct (Nat.eqb_spec (score_de k q) 0) as [Hz|_].
  - now rewrite Hz.
  - now apply parcial_loop_se_queda.
Qed.

(** After a candidate of the same length as the query the result does not
    depend on what follows it. *)
Lemma parcial_loop_corte pre k f post :
  forall mejor,
    coincide k q = true -> score_de k q = 0 ->
    parcial_loop q (pre ++ (k, f) :: post)%list mejor
    = parcial_loop q (pre ++ [(k, f)])%list mejor.
Proof.
  induction pre as [|[k' f'] pre IH]; intros mejor Hc Hz; simpl.
  - rewrite Hc, Hz. simpl.
    destruct mejor as [[[m k0] f0]|]; simpl; [|reflexivity].
    destruct (0 <? m) eqn:Hm; [reflexivity|].
    apply parcial_loop_se_queda. intros. apply Nat.ltb_ge in Hm. lia.
  - destruct (coincide k' q); [|now apply IH].
    destruct (mejora (score_de k' q) (option_map (fun m => fst (fst m)) mejor));
      [|now apply IH].
    destruct (score_de k' q =? 0); [reflexivity|now apply IH].
Qed.

End Parcial.

(* ------------------------------------------------------------------ *)
(** ** The trace of calls *)

Lemma respeta_quieto_sin_construir {A} (m : M A) :
  respeta quieto m -> respeta sin_construir m.
Proof. intros H s. apply quieto_sin_construir, H. Qed.

Lemma sin_construir_emit tickea e :
  es_construir e = false -> respeta sin_construir (emit tickea e).
Proof.
  intros He s. exists [e]. simpl. now rewrite He.
Qed.

Lemma sin_construir_set_imagenIndex m :
  respeta sin_construir (set_imagenIndex m).
Proof. intros s. exists []. simpl. now rewrite app_nil_r. Qed.

Lemma sin_construir_set_aliasIndex m :
  respeta sin_construir (set_aliasIndex m).
Proof. intros s. exists []. simpl. now rewrite app_nil_r. Qed.

Lemma sin_construir_set_driveTreeVersion v :
  respeta sin_construir (set_driveTreeVersion v).
Proof. intros s. exists []. simpl. now rewrite app_nil_r. Qed.

#[local] Hint Resolve sin_construir_set_imagenIndex
  sin_construir_set_aliasIndex sin_construir_set_driveTreeVersion : respeta.

#[local] Hint Extern 1 (respeta sin_construir (mostrarNotificacion _)) =>
  apply sin_construir_emit; reflexivity : respeta.
#[local] Hint Extern 1 (respeta sin_construir (emit _ _)) =>
  apply sin_construir_emit; reflexivity : respeta.
#[local] Hint Extern 2 (respeta sin_construir _) =>
  apply respeta_quieto_sin_construir : respeta.

Section Traza.

Variable env : Env.

#[local] Hint Resolve quieto_getItem quieto_set_localStorage
  quieto_setItem quieto_removeItem quieto_JSON_parse_meta
  quieto_JSON_parse_index quieto_JSON_parse_alias quieto_limpiar
  quieto_guardar quieto_Date_now : respeta.

Ltac pasos := repeat (paso_respeta; eauto with respeta).

Lemma sin_construir_fetch_version :
  respeta sin_construir (fetch_drive_tree_version env).
Proof. unfold fetch_drive_tree_version. pasos. Qed.

Lemma sin_construir_fetch_tree :
  respeta sin_construir (fetch_drive_tree env).
Proof. unfold fetch_drive_tree. pasos. Qed.

Lemma sin_construir_fetch_local k :
  respeta sin_construir (fetch_imagenes_local env k).
Proof. unfold fetch_imagenes_local. pasos. Qed.

#[local] Hint Resolve sin_construir_fetch_version sin_construir_fetch_tree
  sin_construir_fetch_local : respeta.

Lemma sin_construir_locales k :
  respeta sin_construir (_buscarImagenesLocales env k).
Proof. unfold _buscarImagenesLocales. pasos. Qed.

Lemma sin_construir_obtener_version :
  respeta sin_construir (obtener_version env).
Proof. unfold obtener_version. pasos. Qed.

Lemma sin_construir_verificar :
  respeta sin_construir (verificarActualizacionIndice env).
Proof. unfold verificarActualizacionIndice. pasos. Qed.

Lemma sin_construir_restaurar_alias o :
  respeta sin_construir (restaurar_alias o).
Proof. unfold restaurar_alias. pasos. Qed.

#[local] Hint Resolve sin_construir_restaurar_alias : respeta.

Lemma sin_construir_cargar_cache v :
  respeta sin_construir (_cargarDesdeCacheLocal env v).
Proof. unfold _cargarDesdeCacheLocal. pasos. Qed.

Lemma sin_construir_descargar :
  respeta sin_construir (_descargarYConstruirIndice env).
Proof. unfold _descargarYConstruirIndice. pasos. Qed.

Lemma sin_construir_fallback_loop keys :
  respeta sin_construir (fallback_loop keys).
Proof.
  induction keys as [|key resto IH]; simpl; pasos.
Qed.

Lemma sin_construir_fallback : respeta sin_construir _cargarFallbackLocal.
Proof.
  unfold _cargarFallbackLocal. pasos. apply sin_construir_fallback_loop.
Qed.

#[local] Hint Resolve sin_construir_obtener_version sin_construir_cargar_cache
  sin_construir_descargar sin_construir_fallback : respeta.

Lemma sin_construir_cuerpo forzar :
  respeta sin_construir (construir_cuerpo env forzar).
Proof. unfold construir_cuerpo. pasos. Qed.

Lemma sin_construir_rescate error :
  respeta sin_construir (construir_rescate error).
Proof. unfold construir_rescate. pasos. Qed.

(** A call of the builder leaves one call event, its own, in the trace. *)
Lemma traza_construir forzar s :
  exists evs,
    trace (snd (construirIndiceImagenes env forzar s))
    = (trace s ++ EvConstruir forzar :: evs)%list
    /\ forallb (fun e => negb (es_construir e)) evs = true.
Proof.
  assert (H : respeta sin_construir
                (try_catch (construir_cuerpo env forzar) construir_rescate)).
  { apply respeta_try_catch; eauto with respeta.
    - apply sin_construir_cuerpo.
    - apply sin_construir_rescate. }
  unfold construirIndiceImagenes, try_catch, bind at 1. unfold emit at 1.
  simpl.
  match goal with
  | |- context [construir_cuerpo env forzar ?st] =>
      specialize (H st); unfold try_catch in H;
        destruct (construir_cuerpo env forzar st) as [[r|e] s1]
  end; simpl in H |- *; destruct H as (evs & Ht & Hf); simpl in Ht;
    exists evs; rewrite Ht, <- app_assoc; auto.
Qed.

End Traza.

Lemma forzadas_app t evs :
  forzadas (t ++ evs) = forzadas t + forzadas evs.
Proof. unfold forzadas. now rewrite filter_app, length_app. Qed.

Lemma construcciones_app t evs :
  construcciones (t ++ evs) = construcciones t + construcciones evs.
Proof. unfold construcciones. now rewrite filter_app, length_app. Qed.

Lemma sin_construir_cuenta evs :
  forallb (fun e => negb (es_construir e)) evs = true ->
  construcciones evs = 0 /\ forzadas evs = 0.
Proof.
  unfold construcciones, forzadas.
  induction evs as [|e evs IH]; simpl; [auto|].
  rewrite andb_true_iff. intros [He Hr]. destruct (IH Hr) as [H1 H2].
  destruct e as [[]| | | |]; simpl in *; try discriminate; auto.
Qed.

Lemma sin_construir_cuentas s s' :
  sin_construir s s' ->
  construcciones (trace s') = construcciones (trace s)
  /\ forzadas (trace s') = forzadas (trace s).
Proof.
  intros (evs & -> & Hf). destruct (sin_construir_cuenta evs Hf) as [H1 H2].
  rewrite construcciones_app, forzadas_app. lia.
Qed.

(* ------------------------------------------------------------------ *)
(** ** Tier 1 and tier 2 *)

Section Niveles.

Variable env : Env.

(** The exact tier answers from the map and touches nothing. *)
Lemma nivel_exacto s q k entradas :
  normalizar q = k -> k <> "" -> entradas <> [] ->
  map_get (imagenIndex s) k = Some entradas ->
  findImageUrls env q s = (Ret (urls entradas), s).
Proof.
  intros Hq Hk He Hget.
  unfold findImageUrls, try_catch, bind, get. rewrite Hq.
  apply truthy_true_iff in Hk. rewrite Hk. cbn [negb].
  rewrite (map_get_some_size _ _ _ Hget).
  unfold buscar_por_niveles, bind, get. rewrite Hget.
  apply longitud_positiva in He. unfold con_imagenes. rewrite He.
  reflexivity.
Qed.

(** The alias tier answers when the exact tier has nothing under the
    alias itself. *)
Lemma nivel_alias s q a k entradas :
  normalizar q = a -> a <> "" -> k <> "" -> entradas <> [] ->
  map_get (imagenIndex s) a = None ->
  map_get (aliasIndex s) a = Some k ->
  map_get (imagenIndex s) k = Some entradas ->
  findImageUrls env q s = (Ret (urls entradas), s).
Proof.
  intros Hq Ha Hk He Hno Hal Hget.
  unfold findImageUrls, try_catch, bind, get. rewrite Hq.
  apply truthy_true_iff in Ha. rewrite Ha. cbn [negb].
  rewrite (map_get_some_size _ _ _ Hget).
  unfold buscar_por_niveles, bind, get. rewrite Hno, Hal.
  apply truthy_true_iff in Hk. rewrite Hk, Hget.
  apply longitud_positiva in He. unfold con_imagenes. rewrite He.
  reflexivity.
Qed.

End Niveles.

(** C1.  After a build from the network, for every key [k] of the primary
    index and every input [q] whose trimmed, lower-case form is [k] (the
    key itself, which the server delivers in that form, or the key in
    another case or with space around it), [findImageUrls q] returns
    exactly the URLs of the entries recorded for [k], in their order, by
    the exact tier: the state, trace included, is left as it was. *)
Theorem C1_exact_match env forzar s0 r s q k entradas :
  construirIndiceImagenes env forzar s0 = (Ret r, s) ->
  fromCache r = Some false ->
  map_get (imagenIndex s) k = Some entradas ->
  normalizar q = k ->
  findImageUrls env q s = (Ret (urls entradas), s).
Proof.
  intros Hb Hr Hget Hq.
  destruct (construirIndiceImagenes_devuelve env forzar s0)
    as (r' & s' & E & Hi).
  rewrite Hb in E. injection E as <- <-.
  destruct (Hi Hr) as (dd & _ & Hidx & _).
  destruct (construir_bien_formado dd) as [Hbf _].
  rewrite Hidx in Hget. destruct (Hbf _ _ Hget) as [Hk He].
  rewrite <- Hidx in Hget. now apply nivel_exacto with (k := k).
Qed.

(** Scenario A: the key ["i-01-002-03"] asked as [" I-01-002-03 "]. *)
Lemma C1_exact_match_witness :
  findImageUrls Ejemplo.mundo_plaza " I-01-002-03 "
                (Ejemplo.tras_construir Ejemplo.mundo_plaza)
  = (Ret ["https://drive.google.com/thumbnail?id=f1&sz=w800";
          "https://drive.google.com/thumbnail?id=f2&sz=w800"],
     Ejemplo.tras_construir Ejemplo.mundo_plaza).
Proof.
  apply (C1_exact_match Ejemplo.mundo_plaza false Ejemplo.inicial
           (res_construido 1 2) _ " I-01-002-03 " "i-01-002-03"
           [mkEntry None "https://drive.google.com/thumbnail?id=f1&sz=w800"
                    None;
            mkEntry None "https://drive.google.com/thumbnail?id=f2&sz=w800"
                    None]);
    vm_compute; reflexivity.
Defined.

(** C2 (as amended).  After a build from the network, let the alias index
    map [a] to [k], and let [a] not be a key of the primary index other
    than [k].  Then for every input [qa] whose normal form is [a],
    [findImageUrls qa] returns the URLs of the entries recorded for [k],
    leaving the state as it was; every input [qk] whose normal form is [k]
    gets the same answer. *)
Theorem C2_alias_match env forzar s0 r s qa a k :
  construirIndiceImagenes env forzar s0 = (Ret r, s) ->
  fromCache r = Some false ->
  map_get (aliasIndex s) a = Some k ->
  map_get (imagenIndex s) a = None \/ a = k ->
  normalizar qa = a ->
  exists entradas,
    map_get (imagenIndex s) k = Some entradas
    /\ findImageUrls env qa s = (Ret (urls entradas), s)
    /\ forall qk, normalizar qk = k ->
                  findImageUrls env qk s = findImageUrls env qa s.
Proof.
  intros Hb Hr Hal Hno Hq.
  destruct (construirIndiceImagenes_devuelve env forzar s0)
    as (r' & s' & E & Hi).
  rewrite Hb in E. injection E as <- <-.
  destruct (Hi Hr) as (dd & _ & Hidx & Halias).
  destruct (construir_bien_formado dd) as [Hbf Hba].
  rewrite Halias in Hal.
  destruct (Hba _ _ Hal) as (Ha & Hk & entradas & Hget & He).
  rewrite <- Halias in Hal. rewrite <- Hidx in Hget.
  exists entradas. split; [exact Hget|].
  assert (Hk1 : forall qk, normalizar qk = k ->
                  findImageUrls env qk s = (Ret (urls entradas), s))
    by (intros qk Hqk; now apply nivel_exacto with (k := k)).
  assert (Ha1 : findImageUrls env qa s = (Ret (urls entradas), s)).
  { destruct Hno as [Hno| ->]; [|now apply Hk1].
    now apply nivel_alias with (a := a) (k := k). }
  split; [exact Ha1|]. intros qk Hqk. now rewrite Ha1, Hk1.
Qed.

(** Scenario B: the alias ["Plaza Centro"] asked as ["plaza centro"]. *)
Lemma C2_alias_match_witness :
  exists entradas,
    map_get (imagenIndex (Ejemplo.tras_construir Ejemplo.mundo_plaza))
            "i-01-002-03" = Some entradas
    /\ findImageUrls Ejemplo.mundo_plaza "plaza centro"
                     (Ejemplo.tras_construir Ejemplo.mundo_plaza)
       = (Ret (urls entradas), Ejemplo.tras_construir Ejemplo.mundo_plaza)
    /\ forall qk, normalizar qk = "i-01-002-03" ->
         findImageUrls Ejemplo.mundo_plaza qk
                       (Ejemplo.tras_construir Ejemplo.mundo_plaza)
         = findImageUrls Ejemplo.mundo_plaza "plaza centro"
                         (Ejemplo.tras_construir Ejemplo.mundo_plaza).
Proof.
  apply (C2_alias_match Ejemplo.mundo_plaza false Ejemplo.inicial
           (res_construido 1 2) _ "plaza centro" "plaza centro"
           "i-01-002-03").
  - vm_compute; reflexivity.
  - reflexivity.
  - vm_compute; reflexivity.
  - left. vm_compute; reflexivity.
  - vm_compute; reflexivity.
Defined.

(** C2 as stated fails when the alias is itself the key of another folder:
    the alias ["b"] is recorded for the key ["a"], yet asking for ["b"]
    returns the images filed under the key ["b"], found first by the exact
    tier, and not those of ["a"].  It also fails for an alias recorded with
    spaces around it: [" plaza "] is recorded for ["i-01"], and asking for
    it finds nothing, since the input is trimmed and the stored alias is
    not. *)
Lemma C2_counterexample :
  let env := Ejemplo.mundo "v1" Ejemplo.arbol_alias_clave in
  let s := Ejemplo.tras_construir env in
  let env' := Ejemplo.mundo "v1" Ejemplo.arbol_alias_espacios in
  let s' := Ejemplo.tras_construir env' in
  (construirIndiceImagenes env false Ejemplo.inicial
     = (Ret (res_construido 2 2), s)
   /\ map_get (aliasIndex s) "b" = Some "a"
   /\ fst (findImageUrls env "a" s)
      = Ret ["https://drive.google.com/thumbnail?id=f1&sz=w800"]
   /\ fst (findImageUrls env "b" s)
      = Ret ["https://drive.google.com/thumbnail?id=f2&sz=w800"])
  /\ (construirIndiceImagenes env' false Ejemplo.inicial
      = (Ret (res_construido 1 1), s')
      /\ map_get (aliasIndex s') " plaza " = Some "i-01"
      /\ fst (findImageUrls env' "i-01" s')
         = Ret ["https://drive.google.com/thumbnail?id=f1&sz=w800"]
      /\ fst (findImageUrls env' " plaza " s') = Ret []).
Proof. vm_compute. repeat split. Qed.

(* ------------------------------------------------------------------ *)
(** ** Tier 3 *)

Lemma alias_sin_imagenes s c :
  falla_alias s c ->
  con_imagenes
    match map_get (aliasIndex s) c with
    | Some porAlias =>
        if Js.truthy porAlias then map_get (imagenIndex s) porAlias else None
    | None => None
    end = false.
Proof.
  intros H. destruct (map_get (aliasIndex s) c) as [k|] eqn:E; [|reflexivity].
  destruct (Js.truthy k) eqn:Hk; [|reflexivity]. now apply H.
Qed.

(** The fuzzy tier answers when the two exact tiers have nothing. *)
Lemma nivel_parcial env s q :
  normalizar q <> "" -> imagenIndex s <> [] ->
  falla_exacta s (normalizar q) -> falla_alias s (normalizar q) ->
  _busquedaParcial (imagenIndex s) (normalizar q) <> [] ->
  findImageUrls env q s
  = (Ret (_busquedaParcial (imagenIndex s) (normalizar q)), s).
Proof.
  intros Hc Hidx Hex Hal Hp.
  unfold findImageUrls, try_catch, bind, get.
  apply truthy_true_iff in Hc. rewrite Hc. cbn [negb].
  replace (map_size (imagenIndex s) =? 0) with false
    by (destruct (imagenIndex s); [contradiction|reflexivity]).
  unfold buscar_por_niveles, bind, get.
  unfold falla_exacta in Hex. rewrite Hex.
  rewrite (alias_sin_imagenes _ _ Hal).
  apply longitud_positiva in Hp. rewrite Hp. reflexivity.
Qed.

(** C3.  For a query that the exact tier and the alias tier both miss, the
    fuzzy tier scans the primary index; a stored key is a candidate exactly
    when the query occurs in it or it occurs in the query.  With no
    candidate the tier yields nothing.  Otherwise it settles on a candidate
    [(k, f)] of the index whose length differs least from the query's, its
    result is the URLs of [f], and [findImageUrls] returns them (when [f]
    has images) leaving the state as it was.  A candidate of the very length
    of the query ends the scan: what follows it in the index has no say. *)
Theorem C3_fuzzy_tier env q s :
  let c := normalizar q in
  let idx := imagenIndex s in
  c <> "" -> idx <> [] -> falla_exacta s c -> falla_alias s c ->
  (forall k, coincide k c = true <-> aceptada c k)
  /\ match parcial_loop c idx None with
     | None =>
         (forall k f, In (k, f) idx -> ~ aceptada c k)
         /\ _busquedaParcial idx c = []
     | Some (sc, k, f) =>
         In (k, f) idx /\ aceptada c k
         /\ Z.of_nat sc = distancia c k
         /\ (forall k' f', In (k', f') idx -> aceptada c k' ->
                           (distancia c k <= distancia c k')%Z)
         /\ _busquedaParcial idx c = urls f
         /\ (f <> [] -> findImageUrls env q s = (Ret (urls f), s))
     end
  /\ (forall pre k f post,
        idx = (pre ++ (k, f) :: post)%list ->
        aceptada c k -> distancia c k = 0%Z ->
        parcial_loop c idx None = parcial_loop c (pre ++ [(k, f)])%list None).
Proof.
  intros c idx Hc Hidx Hex Hal.
  split; [intros k; apply coincide_iff|]. split.
  - pose proof (parcial_loop_lo_mejor c idx [] None) as H.
    simpl in H. specialize (H (fun _ _ F => match F with end)).
    pose proof (nivel_parcial env s q Hc Hidx Hex Hal) as Hfind.
    fold c idx in Hfind. unfold _busquedaParcial in *.
    destruct (parcial_loop c idx None) as [[[sc k] f]|]; simpl in H.
    + destruct H as (Hin & Hco & -> & Hmin).
      split; [exact Hin|]. split; [now apply coincide_iff|].
      split; [apply score_distancia|]. split.
      * intros k' f' Hin' Hac. rewrite <- !score_distancia.
        apply coincide_iff in Hac.
        specialize (Hmin _ _ Hin' Hac). lia.
      * split; [reflexivity|]. intros Hf. apply Hfind.
        destruct f; [contradiction|discriminate].
    + split; [|reflexivity]. intros k f Hin Hac.
      apply coincide_iff in Hac. rewrite (H _ _ Hin) in Hac. discriminate.
  - intros pre k f post -> Hac Hd. apply parcial_loop_corte.
    + now apply coincide_iff.
    + rewrite <- score_distancia in Hd. lia.
Qed.

(** Scenario C: the stored key ["i-01-002-03x"] contains the query
    ["002-03"]. *)
Lemma C3_fuzzy_tier_witness :
  let env := Ejemplo.mundo "v1"
               (Ejemplo.arbol_de
                  [Ejemplo.carpeta "i-01-002-03x" None ["f1"; "f2"]]) in
  findImageUrls env "002-03" (Ejemplo.tras_construir env)
  = (Ret ["https://drive.google.com/thumbnail?id=f1&sz=w800";
          "https://drive.google.com/thumbnail?id=f2&sz=w800"],
     Ejemplo.tras_construir env).
Proof.
  intros env.
  assert (Hc : normalizar "002-03" <> "") by (vm_compute; discriminate).
  assert (Hi : imagenIndex (Ejemplo.tras_construir env) <> [])
    by (vm_compute; discriminate).
  assert (He : falla_exacta (Ejemplo.tras_construir env)
                            (normalizar "002-03")) by reflexivity.
  assert (Ha : falla_alias (Ejemplo.tras_construir env)
                           (normalizar "002-03"))
    by (intros k Hk; vm_compute in Hk; discriminate).
  pose proof (C3_fuzzy_tier env "002-03" (Ejemplo.tras_construir env)
                Hc Hi He Ha) as H.
  destruct H as (_ & H & _). vm_compute in H.
  destruct H as (_ & _ & _ & _ & _ & H). apply H. discriminate.
Defined.

(** C10.  When the candidate [(k, f)] stands in the index after candidates
    that are all strictly farther from the query and before candidates
    that are none nearer, the fuzzy tier returns the URLs of [f]: among
    candidates at the same least distance the first in insertion order
    wins, and a later one at that distance does not replace it. *)
Theorem C10_first_of_equals c idx pre k f post :
  idx = (pre ++ (k, f) :: post)%list ->
  aceptada c k ->
  (forall k' f', In (k', f') pre -> aceptada c k' ->
                 (distancia c k < distancia c k')%Z) ->
  (forall k' f', In (k', f') post -> aceptada c k' ->
                 (distancia c k <= distancia c k')%Z) ->
  _busquedaParcial idx c = urls f
  /\ forall k' f' resto,
       aceptada c k' -> distancia c k' = distancia c k ->
       parcial_loop c ((k', f') :: resto) (Some (score_de k c, k, f))
       = parcial_loop c resto (Some (score_de k c, k, f)).
Proof.
  intros -> Hac Hpre Hpost. split.
  - unfold _busquedaParcial. rewrite parcial_loop_primero; auto.
    + now apply coincide_iff.
    + intros k' f' Hin Hc'. apply coincide_iff in Hc'.
      specialize (Hpre _ _ Hin Hc'). rewrite <- !score_distancia in Hpre. lia.
    + intros k' f' Hin Hc'. apply coincide_iff in Hc'.
      specialize (Hpost _ _ Hin Hc'). rewrite <- !score_distancia in Hpost.
      lia.
  - intros k' f' resto Hac' Hd. simpl.
    apply coincide_iff in Hac'. rewrite Hac'.
    rewrite <- !score_distancia in Hd.
    replace (score_de k' c <? score_de k c) with false
      by (symmetry; apply Nat.ltb_ge; lia).
    reflexivity.
Qed.

(** Two keys at distance one from the query ["abc"]: the first one wins. *)
Lemma C10_first_of_equals_witness :
  _busquedaParcial
    [("zz", [mkEntry None "u0" None]);
     ("abcd", [mkEntry None "u1" None]);
     ("xabc", [mkEntry None "u2" None])] "abc" = ["u1"].
Proof.
  refine (proj1 (C10_first_of_equals "abc" _
                   [("zz", [mkEntry None "u0" None])]
                   "abcd" [mkEntry None "u1" None]
                   [("xabc", [mkEntry None "u2" None])] eq_refl _ _ _)).
  - apply coincide_iff. reflexivity.
  - intros k' f' [[= <- <-]|[]] Hac. apply coincide_iff in Hac.
    vm_compute in Hac. discriminate.
  - intros k' f' [[= <- <-]|[]] _. vm_compute. discriminate.
Defined.

(* ------------------------------------------------------------------ *)
(** ** Tiers 4 and 5 *)

Lemma try_catch_ret {A} (m : M A) (h : Exn -> M A) s a s' :
  m s = (Ret a, s') -> try_catch m h s = (Ret a, s').
Proof. unfold try_catch. now intros ->. Qed.

Lemma opt_string_eqb_iff a b : opt_string_eqb a b = true <-> a = b.
Proof.
  destruct a as [x|], b as [y|]; simpl; split; try congruence.
  - intros H. apply String.eqb_eq in H. congruence.
  - intros [= ->]. apply String.eqb_refl.
Qed.

Section Recuperacion.

Variable env : Env.

Lemma locales_devuelve k s :
  exists l s', _buscarImagenesLocales env k s = (Ret l, s').
Proof.
  unfold _buscarImagenesLocales. apply try_catch_devuelve.
  intros e s0. do 2 eexists. reflexivity.
Qed.

(** The version check sees a token other than the one held. *)
Lemma verificar_cambio s st d nueva :
  fetch_version env (tick s) = Replied true st (Some d) ->
  Js.or_else (v_version d) (v_lastModified d) = Some nueva ->
  nueva <> "" -> driveTreeVersion s <> Some nueva ->
  verificarActualizacionIndice env s
  = (Ret (mkAct true (Some nueva) None), tras_consulta s).
Proof.
  intros Hf Hn Hne Hd.
  unfold verificarActualizacionIndice, try_catch, bind,
    fetch_drive_tree_version, get, emit, ret. simpl.
  rewrite Hf. simpl. rewrite Hn. simpl.
  apply truthy_true_iff in Hne. rewrite Hne.
  destruct (opt_string_eqb (Some nueva) (driveTreeVersion s)) eqn:E.
  - apply opt_string_eqb_iff in E. congruence.
  - simpl in E. rewrite E. reflexivity.
Qed.

(** Tiers 4 and 5 after three misses and a changed version: one forced
    build, one exact lookup, then the single-key endpoint. *)
Lemma niveles_con_cambio s c st d nueva :
  falla_exacta s c -> falla_alias s c ->
  _busquedaParcial (imagenIndex s) c = [] ->
  fetch_version env (tick s) = Replied true st (Some d) ->
  Js.or_else (v_version d) (v_lastModified d) = Some nueva ->
  nueva <> "" -> driveTreeVersion s <> Some nueva ->
  exists r s2,
    construirIndiceImagenes env true (tras_consulta s) = (Ret r, s2)
    /\ buscar_por_niveles env c s
       = (if con_imagenes (map_get (imagenIndex s2) c)
          then (Ret (exacto_en s2 c), s2)
          else _buscarImagenesLocales env c s2).
Proof.
  intros Hex Hal Hp Hf Hn Hne Hd.
  destruct (construirIndiceImagenes_devuelve env true (tras_consulta s))
    as (r & s2 & E & _).
  exists r, s2. split; [exact E|].
  unfold buscar_por_niveles, bind at 1, get at 1.
  unfold falla_exacta in Hex. rewrite Hex, (alias_sin_imagenes _ _ Hal), Hp.
  cbn [List.length Nat.ltb Nat.leb].
  unfold bind at 1. rewrite (verificar_cambio s st d nueva Hf Hn Hne Hd).
  cbn [necesitaActualizar]. unfold bind at 1, bind at 1. rewrite E.
  unfold bind, get, ret. unfold exacto_en.
  destruct (con_imagenes (map_get (imagenIndex s2) c)); reflexivity.
Qed.

End Recuperacion.

(** C4.  Let [s0] be the state in which the tiers start: the state of the
    call itself, or, when no index is held yet, the one a first successful
    (unforced) build leaves.  If the exact, alias and fuzzy tiers all find
    nothing in [s0] and the version endpoint then answers a token other
    than the one held, the call makes one forced build, looks the key up
    once more in the primary index only, and, if that finds nothing, asks
    the single-key endpoint.  Its trace holds exactly one more forced build
    than before the call, and no other build after the tiers started. *)
Theorem C4_one_forced_rebuild env q s s0 st d nueva :
  let c := normalizar q in
  c <> "" ->
  (imagenIndex s <> [] /\ s0 = s)
  \/ (imagenIndex s = [] /\
      exists r0, construirIndiceImagenes env false s = (Ret r0, s0)
                 /\ success r0 = true) ->
  falla_exacta s0 c -> falla_alias s0 c ->
  _busquedaParcial (imagenIndex s0) c = [] ->
  fetch_version env (tick s0) = Replied true st (Some d) ->
  Js.or_else (v_version d) (v_lastModified d) = Some nueva ->
  nueva <> "" -> driveTreeVersion s0 <> Some nueva ->
  exists r s2,
    construirIndiceImagenes env true (tras_consulta s0) = (Ret r, s2)
    /\ findImageUrls env q s
       = (if con_imagenes (map_get (imagenIndex s2) c)
          then (Ret (exacto_en s2 c), s2)
          else _buscarImagenesLocales env c s2)
    /\ forzadas (trace (snd (findImageUrls env q s)))
       = S (forzadas (trace s))
    /\ construcciones (trace (snd (findImageUrls env q s)))
       = S (construcciones (trace s0)).
Proof.
  intros c Hc Hini Hex Hal Hp Hf Hn Hne Hd.
  destruct (niveles_con_cambio env s0 c st d nueva Hex Hal Hp Hf Hn Hne Hd)
    as (r & s2 & E & Hniv).
  exists r, s2. split; [exact E|].
  set (final := if con_imagenes (map_get (imagenIndex s2) c)
                then (Ret (exacto_en s2 c), s2)
                else _buscarImagenesLocales env c s2) in *.
  assert (Hret : exists l sf, final = (Ret l, sf) /\ sin_construir s2 sf).
  { unfold final. destruct (con_imagenes (map_get (imagenIndex s2) c)).
    - do 2 eexists. split; [reflexivity|apply sin_construir_refl].
    - destruct (locales_devuelve env c s2) as (l & sf & El).
      exists l, sf. split; [exact El|].
      pose proof (sin_construir_locales env c s2) as Hs.
      now rewrite El in Hs. }
  destruct Hret as (l & sf & Efinal & Hsf).
  assert (Hfind : findImageUrls env q s = final).
  { rewrite Efinal. unfold findImageUrls. apply try_catch_ret.
    fold c. apply truthy_true_iff in Hc. rewrite Hc. cbn [negb].
    unfold bind at 1, get at 1.
    destruct Hini as [[Hidx ->]|[Hidx (r0 & E0 & Hs0)]].
    - replace (map_size (imagenIndex s) =? 0) with false
        by (destruct (imagenIndex s); [contradiction|reflexivity]).
      now rewrite Hniv.
    - rewrite Hidx. cbn [map_size List.length Nat.eqb].
      unfold bind at 1. rewrite E0, Hs0. cbn [negb].
      now rewrite Hniv. }
  split; [exact Hfind|].
  rewrite Hfind, Efinal. cbn [snd].
  destruct (sin_construir_cuentas _ _ Hsf) as [Hc1 Hf1].
  destruct (traza_construir env true (tras_consulta s0)) as (evs & Ht & Hev).
  rewrite E in Ht. cbn [snd] in Ht.
  destruct (sin_construir_cuenta evs Hev) as [Hc2 Hf2].
  assert (Hs2 : construcciones (trace s2) = S (construcciones (trace s0))
                /\ forzadas (trace s2) = S (forzadas (trace s0))).
  { rewrite Ht. unfold tras_consulta. cbn [trace].
    rewrite !construcciones_app, !forzadas_app.
    change (EvConstruir true :: evs) with ([EvConstruir true] ++ evs)%list.
    rewrite construcciones_app, forzadas_app, Hc2, Hf2.
    cbn. lia. }
  destruct Hs2 as [Hcs Hfs]. rewrite Hc1, Hf1, Hcs, Hfs.
  split; [|reflexivity]. f_equal.
  destruct Hini as [[_ ->]|[_ (r0 & E0 & _)]]; [reflexivity|].
  destruct (traza_construir env false s) as (evs0 & Ht0 & Hev0).
  rewrite E0 in Ht0. cbn [snd] in Ht0.
  destruct (sin_construir_cuenta evs0 Hev0) as [_ Hf0].
  rewrite Ht0, forzadas_app.
  change (EvConstruir false :: evs0) with ([EvConstruir false] ++ evs0)%list.
  rewrite forzadas_app, Hf0. cbn. lia.
Qed.

(** Scenario D: the key ["x-99"] is unknown to the index built at version
    ["v1"]; the server is at ["v2"] by the time it is asked for. *)
Lemma C4_one_forced_rebuild_witness :
  let env := mundo_cambiante in
  let s := Ejemplo.tras_construir env in
  exists r s2,
    construirIndiceImagenes env true (tras_consulta s) = (Ret r, s2)
    /\ findImageUrls env "x-99" s
       = (if con_imagenes (map_get (imagenIndex s2) (normalizar "x-99"))
          then (Ret (exacto_en s2 (normalizar "x-99")), s2)
          else _buscarImagenesLocales env (normalizar "x-99") s2)
    /\ forzadas (trace (snd (findImageUrls env "x-99" s)))
       = S (forzadas (trace s))
    /\ construcciones (trace (snd (findImageUrls env "x-99" s)))
       = S (construcciones (trace s)).
Proof.
  intros env s.
  apply (C4_one_forced_rebuild env "x-99" s s 200
           (mkVersion (Some "v2") None) "v2").
  - vm_compute; discriminate.
  - left. split; [vm_compute; discriminate|reflexivity].
  - vm_compute; reflexivity.
  - intros k Hk. vm_compute in Hk. discriminate.
  - vm_compute; reflexivity.
  - vm_compute; reflexivity.
  - vm_compute; reflexivity.
  - discriminate.
  - vm_compute; discriminate.
Defined.

Lemma wp_bind_get {B} (f : State -> M B) Q s :
  wp (f s) Q s -> wp (bind get f) Q s.
Proof. trivial. Qed.

Lemma locales_resultado env k s :
  _buscarImagenesLocales env k s
  = (Ret (imagenes_de (fetch_local env (tick s) k)), tras_local s k).
Proof.
  unfold _buscarImagenesLocales, try_catch, bind, fetch_imagenes_local, get,
    emit, ret, throw, tras_local, imagenes_de. simpl.
  destruct (fetch_local env (tick s) k) as [|[] st [[|x l]|]]; reflexivity.
Qed.

(** The version check always returns, having asked the version endpoint
    once; it asks for an update only on a non-empty token other than the
    one held. *)
Lemma verificar_devuelve env s :
  exists act,
    verificarActualizacionIndice env s = (Ret act, tras_consulta s)
    /\ (necesitaActualizar act = true ->
        exists st d v,
          fetch_version env (tick s) = Replied true st (Some d)
          /\ Js.or_else (v_version d) (v_lastModified d) = Some v
          /\ nuevaVersion act = Some v
          /\ v <> "" /\ driveTreeVersion s <> Some v).
Proof.
  unfold verificarActualizacionIndice, fetch_drive_tree_version.
  unfold try_catch, bind, get, emit, ret, throw, tras_consulta.
  cbv beta iota.
  destruct (fetch_version env (tick s)) as [|ok st [d|]] eqn:Hf;
    cbv beta iota.
  - eexists. split; [reflexivity|]. intros E; discriminate E.
  - destruct ok; cbn [negb]; cbv beta iota.
    + destruct (Js.or_else (v_version d) (v_lastModified d)) as [v|] eqn:Hv;
        cbn [Js.truthy_opt andb].
      * destruct (Js.truthy v) eqn:Ht; cbn [andb driveTreeVersion].
        -- destruct (opt_string_eqb (Some v) (driveTreeVersion s)) eqn:He;
             cbn [negb].
           ++ eexists. split; [reflexivity|]. intros E; discriminate E.
           ++ eexists. split; [reflexivity|]. intros _.
              exists st, d, v. repeat split; auto.
              ** now apply truthy_true_iff.
              ** intros Hd. rewrite Hd in He. cbn [opt_string_eqb] in He.
                 now rewrite String.eqb_refl in He.
        -- eexists. split; [reflexivity|]. intros E; discriminate E.
      * eexists. split; [reflexivity|]. intros E; discriminate E.
    + eexists. split; [reflexivity|]. intros E; discriminate E.
  - destruct ok; cbn [negb]; cbv beta iota;
      (eexists; split; [reflexivity|]; intros E; discriminate E).
Qed.

Section NuncaLanza.

Variable env : Env.
Hypothesis Hlocal : sin_locales env.

Lemma locales_wp k s :
  wp (_buscarImagenesLocales env k) vacio_o_del_indice s.
Proof.
  unfold wp, _buscarImagenesLocales, try_catch, bind, fetch_imagenes_local,
    get, emit, ret. simpl.
  specialize (Hlocal (tick s) k).
  destruct (fetch_local env (tick s) k) as [|[] st [[|x l]|]]; simpl;
    now left.
Qed.

Lemma exacto_del_indice s c :
  con_imagenes (map_get (imagenIndex s) c) = true ->
  vacio_o_del_indice (exacto_en s c) s.
Proof.
  unfold exacto_en. destruct (map_get (imagenIndex s) c) as [l|] eqn:E;
    simpl; [|discriminate].
  intros Hl. right. exists c, l. split; [now apply map_get_In|].
  split; [now apply longitud_positiva|reflexivity].
Qed.

Lemma parcial_del_indice s c :
  _busquedaParcial (imagenIndex s) c <> [] ->
  vacio_o_del_indice (_busquedaParcial (imagenIndex s) c) s.
Proof.
  unfold _busquedaParcial.
  pose proof (parcial_loop_lo_mejor c (imagenIndex s) [] None
                (fun _ _ F => match F with end)) as H.
  simpl in H.
  destruct (parcial_loop c (imagenIndex s) None) as [[[sc k] f]|];
    [|now left].
  destruct H as (Hin & _). intros Hne. right. exists k, f.
  split; [exact Hin|]. split; [|reflexivity].
  intros ->. now apply Hne.
Qed.

Lemma niveles_wp c s :
  wp (buscar_por_niveles env c) vacio_o_del_indice s.
Proof.
  unfold buscar_por_niveles. apply wp_bind_get.
  destruct (con_imagenes (map_get (imagenIndex s) c)) eqn:E1.
  { apply wp_ret. now apply exacto_del_indice. }
  cbv zeta.
  match goal with
  | |- wp (if con_imagenes ?d then _ else _) _ _ =>
      destruct (con_imagenes d) eqn:E2
  end.
  { apply wp_ret.
    destruct (map_get (aliasIndex s) c) as [k|]; [|discriminate].
    destruct (Js.truthy k); [|discriminate].
    now apply exacto_del_indice. }
  destruct (0 <? List.length (_busquedaParcial (imagenIndex s) c)) eqn:E3.
  { apply wp_ret. apply parcial_del_indice. now apply longitud_positiva. }
  apply wp_bind_any. intros act s1.
  apply wp_bind with
    (Q := fun _ _ => _).
  eapply wp_mono with
    (Q := fun h s' => h = None \/ h = map_get (imagenIndex s') c).
  - intros h s2 Hh.
    destruct (con_imagenes h) eqn:E4; [|apply locales_wp].
    apply wp_ret. destruct Hh as [->| ->]; [discriminate|].
    now apply exacto_del_indice.
  - destruct (necesitaActualizar act).
    + apply wp_bind_any. intros r s2. apply wp_bind_get. apply wp_ret.
      now right.
    + apply wp_ret. now left.
Qed.

(** Whatever the tiers do, the answer is a miss or comes from the index. *)
Lemma findImageUrls_wp q s :
  wp (findImageUrls env q) vacio_o_del_indice s.
Proof.
  unfold findImageUrls. apply wp_try_catch; [|intros; apply locales_wp].
  destruct (negb (Js.truthy (normalizar q))); [apply locales_wp|].
  apply wp_bind_get.
  destruct (map_size (imagenIndex s) =? 0); [|apply niveles_wp].
  apply wp_bind_any. intros r s1.
  destruct (negb (success r)); [apply locales_wp|apply niveles_wp].
Qed.

(** With nothing at the single-key endpoint, tier 5 is a miss. *)
Lemma locales_vacio k s :
  _buscarImagenesLocales env k s = (Ret [], tras_local s k).
Proof.
  rewrite locales_resultado. specialize (Hlocal (tick s) k).
  unfold imagenes_de.
  destruct (fetch_local env (tick s) k) as [|[] st [[|x l]|]];
    try reflexivity; contradiction.
Qed.

Lemma locales_hallado c k s :
  wp (_buscarImagenesLocales env k) (vacio_o_hallado c) s.
Proof. unfold wp. rewrite locales_vacio. now left. Qed.

Lemma con_imagenes_urls o :
  con_imagenes o = true ->
  match o with Some l => urls l | None => [] end <> [].
Proof.
  destruct o as [[|x l]|]; simpl; intros H; discriminate.
Qed.

Lemma del_indice_exacto s c :
  con_imagenes (map_get (imagenIndex s) c) = true ->
  del_indice s c = exacto_en s c.
Proof. unfold del_indice. now intros ->. Qed.

(** The three tiers of the index decide when one of them finds the key. *)
Lemma niveles_aciertan s c :
  del_indice s c <> [] ->
  buscar_por_niveles env c s = (Ret (del_indice s c), s).
Proof.
  unfold buscar_por_niveles, del_indice, bind at 1, get at 1, exacto_en.
  destruct (con_imagenes (map_get (imagenIndex s) c)); [reflexivity|].
  destruct (map_get (aliasIndex s) c) as [k|].
  - destruct (Js.truthy k); cbn [andb].
    + destruct (con_imagenes (map_get (imagenIndex s) k)); [reflexivity|].
      intros Hp. apply longitud_positiva in Hp. now rewrite Hp.
    + intros Hp. apply longitud_positiva in Hp. cbn [con_imagenes].
      now rewrite Hp.
  - intros Hp. apply longitud_positiva in Hp. cbn [con_imagenes].
    now rewrite Hp.
Qed.

(** When none of them does, tiers 4 and 5 are what is left. *)
Lemma niveles_fallan s c :
  del_indice s c = [] ->
  buscar_por_niveles env c s = niveles_4_y_5 env c s.
Proof.
  unfold buscar_por_niveles, del_indice, bind at 1, get at 1, exacto_en.
  destruct (con_imagenes (map_get (imagenIndex s) c)) eqn:E1.
  { intros H. now apply con_imagenes_urls in E1. }
  destruct (map_get (aliasIndex s) c) as [k|].
  - destruct (Js.truthy k); cbn [andb].
    + destruct (con_imagenes (map_get (imagenIndex s) k)) eqn:E2.
      { intros H. now apply con_imagenes_urls in E2. }
      intros ->. reflexivity.
    + intros ->. reflexivity.
  - intros ->. reflexivity.
Qed.

Lemma recuperacion_wp c s :
  wp (niveles_4_y_5 env c) (vacio_o_exacto c) s.
Proof.
  unfold niveles_4_y_5.
  apply wp_bind_any. intros act s1.
  apply wp_bind with (Q := fun _ _ => _).
  eapply wp_mono with
    (Q := fun h s' => h = None \/ h = map_get (imagenIndex s') c).
  - intros h s2 Hh.
    destruct (con_imagenes h) eqn:E4.
    + apply wp_ret. destruct Hh as [->| ->]; [discriminate|]. now right.
    + unfold wp. rewrite locales_vacio. now left.
  - destruct (necesitaActualizar act).
    + apply wp_bind_any. intros r s2. apply wp_bind_get. apply wp_ret.
      now right.
    + apply wp_ret. now left.
Qed.

(** What tiers 4 and 5 find, the exact tier finds on the index they
    leave. *)
Lemma exacto_hallado c l s' :
  vacio_o_exacto c l s' -> vacio_o_hallado c l s'.
Proof.
  intros [->| ->]; [now left|].
  destruct (con_imagenes (map_get (imagenIndex s') c)) eqn:E.
  - right. symmetry. now apply del_indice_exacto.
  - left. unfold exacto_en.
    now destruct (map_get (imagenIndex s') c) as [[|x l]|].
Qed.

Lemma niveles_hallado c s :
  wp (buscar_por_niveles env c) (vacio_o_hallado c) s.
Proof.
  destruct (del_indice s c) as [|x l] eqn:E.
  - unfold wp. rewrite (niveles_fallan s c E).
    pose proof (recuperacion_wp c s) as H. unfold wp in H.
    destruct (niveles_4_y_5 env c s) as [[l|e] s']; [|exact I].
    now apply exacto_hallado.
  - unfold wp. rewrite niveles_aciertan by (rewrite E; discriminate).
    now right.
Qed.

(** Whatever the tiers do, the answer is a miss or what they give for the
    key on the index held at the end. *)
Lemma findImageUrls_hallado q s :
  wp (findImageUrls env q) (vacio_o_hallado (normalizar q)) s.
Proof.
  unfold findImageUrls.
  apply wp_try_catch; [|intros; apply locales_hallado].
  destruct (negb (Js.truthy (normalizar q))); [apply locales_hallado|].
  apply wp_bind_get.
  destruct (map_size (imagenIndex s) =? 0); [|apply niveles_hallado].
  apply wp_bind_any. intros r s1.
  destruct (negb (success r)); [apply locales_hallado|apply niveles_hallado].
Qed.

(** A call with a key that is not blank is the tiers, run from the state
    in which they start. *)
Lemma findImageUrls_desde q s s0 :
  normalizar q <> "" -> empieza_en env s s0 ->
  findImageUrls env q s
  = try_catch (buscar_por_niveles env (normalizar q))
              (fun _ => _buscarImagenesLocales env (normalizar q)) s0.
Proof.
  intros Hc Hini. unfold findImageUrls, try_catch.
  apply truthy_true_iff in Hc. rewrite Hc. cbn [negb].
  unfold bind at 1, get at 1.
  destruct Hini as [[Hidx ->]|[Hidx (r0 & E0 & Hs0)]].
  - replace (map_size (imagenIndex s) =? 0) with false
      by (destruct (imagenIndex s); [contradiction|reflexivity]).
    reflexivity.
  - rewrite Hidx. cbn [map_size List.length Nat.eqb].
    unfold bind at 1. rewrite E0, Hs0. reflexivity.
Qed.

(** When the three tiers of the index miss the key, the call is tiers 4
    and 5. *)
Lemma findImageUrls_fallan q s s0 :
  normalizar q <> "" -> empieza_en env s s0 ->
  del_indice s0 (normalizar q) = [] ->
  findImageUrls env q s
  = try_catch (niveles_4_y_5 env (normalizar q))
              (fun _ => _buscarImagenesLocales env (normalizar q)) s0.
Proof.
  intros Hc Hini Hmiss. rewrite (findImageUrls_desde q s s0 Hc Hini).
  unfold try_catch. now rewrite (niveles_fallan s0 _ Hmiss).
Qed.

(** A blank key goes to the single-key endpoint. *)
Lemma findImageUrls_en_blanco q s :
  normalizar q = "" ->
  findImageUrls env q s = (Ret [], tras_local s "").
Proof.
  intros Hc. unfold findImageUrls. apply try_catch_ret.
  rewrite Hc. cbn. apply locales_vacio.
Qed.

(** So does a key asked with no index held, when the first build fails. *)
Lemma findImageUrls_sin_indice q s r0 s0 :
  normalizar q <> "" -> imagenIndex s = [] ->
  construirIndiceImagenes env false s = (Ret r0, s0) ->
  success r0 = false ->
  findImageUrls env q s = (Ret [], tras_local s0 (normalizar q)).
Proof.
  intros Hc Hidx E0 Hs0. unfold findImageUrls. apply try_catch_ret.
  apply truthy_true_iff in Hc. rewrite Hc. cbn [negb].
  unfold bind at 1, get at 1.
  rewrite Hidx. cbn [map_size List.length Nat.eqb].
  unfold bind at 1. rewrite E0, Hs0. cbn [negb].
  apply locales_vacio.
Qed.

(** Tiers 4 and 5 when the version check asks for no update: the
    single-key endpoint, and nothing else. *)
Lemma recuperacion_sin_cambio c s act s1 :
  verificarActualizacionIndice env s = (Ret act, s1) ->
  necesitaActualizar act = false ->
  niveles_4_y_5 env c s = (Ret [], tras_local (tras_consulta s) c).
Proof.
  intros Ev Hn.
  destruct (verificar_devuelve env s) as (act' & Ev' & _).
  rewrite Ev in Ev'. injection Ev' as <- ->.
  unfold niveles_4_y_5, bind at 1. rewrite Ev, Hn.
  unfold bind at 1, ret at 1. cbn [con_imagenes].
  apply locales_vacio.
Qed.

End NuncaLanza.

(** C5.  [findImageUrls] returns for every input and in every state and
    world: it never throws.  When the single-key endpoint has nothing to
    give (it fails, or answers nothing), the answer is the empty sequence
    unless a tier finds the key: it is empty or what the tiers give for
    this very key on the index held at the end (the images of one folder
    of that index).  Every miss is the empty sequence: a blank key; a key
    asked with no index held when the first build fails; and a key that
    the exact, the alias and the fuzzy tier all miss in the state [s0] in
    which they start, unless the exact tier finds it after a rebuild.
    When the version check then asks for no update, every tier has missed:
    the answer is exactly the empty sequence, after one version request
    and one request to the single-key endpoint, with the index, the alias
    map, the version and the storage as they were. *)
Theorem C5_never_throws env q s :
  let c := normalizar q in
  exists l s',
    findImageUrls env q s = (Ret l, s')
    /\ (sin_locales env ->
        vacio_o_del_indice l s'
        /\ (l = [] \/ l = del_indice s' c)
        /\ (c = "" -> l = [] /\ s' = tras_local s "")
        /\ (c <> "" -> imagenIndex s = [] ->
            forall r0 s0,
              construirIndiceImagenes env false s = (Ret r0, s0) ->
              success r0 = false ->
              l = [] /\ s' = tras_local s0 c)
        /\ (forall s0,
              c <> "" -> empieza_en env s s0 -> del_indice s0 c = [] ->
              (l = [] \/ l = exacto_en s' c)
              /\ (forall act s1,
                    verificarActualizacionIndice env s0 = (Ret act, s1) ->
                    necesitaActualizar act = false ->
                    l = [] /\ s' = tras_local (tras_consulta s0) c))).
Proof.
  intros c.
  destruct (try_catch_devuelve
              (let claveNorm := normalizar q in
               if negb (Js.truthy claveNorm)
               then _buscarImagenesLocales env ""
               else
                 s1 <- get ;;
                 if map_size (imagenIndex s1) =? 0 then
                   r <- construirIndiceImagenes env false ;;
                   if negb (success r)
                   then _buscarImagenesLocales env claveNorm
                   else buscar_por_niveles env claveNorm
                 else buscar_por_niveles env claveNorm)
              (fun _ => _buscarImagenesLocales env (normalizar q))
              (fun _ s1 => locales_devuelve env (normalizar q) s1) s)
    as (l & s' & E).
  change (findImageUrls env q s = (Ret l, s')) in E.
  exists l, s'. split; [exact E|].
  intros Hl.
  split; [exact (wp_elim _ _ _ _ _ (findImageUrls_wp env Hl q s) E)|].
  split; [exact (wp_elim _ _ _ _ _ (findImageUrls_hallado env Hl q s) E)|].
  split.
  { intros Hc. rewrite (findImageUrls_en_blanco env Hl q s Hc) in E.
    injection E as <- <-. split; reflexivity. }
  split.
  { intros Hc Hidx r0 s0 E0 Hs0.
    rewrite (findImageUrls_sin_indice env Hl q s r0 s0 Hc Hidx E0 Hs0) in E.
    injection E as <- <-. split; reflexivity. }
  intros s0 Hc Hini Hmiss.
  rewrite (findImageUrls_fallan env q s s0 Hc Hini Hmiss) in E. fold c in E.
  split.
  - assert (H : wp (try_catch (niveles_4_y_5 env c)
                      (fun _ => _buscarImagenesLocales env c))
                   (vacio_o_exacto c) s0).
    { apply wp_try_catch; [now apply recuperacion_wp|].
      intros e s1. unfold wp. rewrite (locales_vacio env Hl). now left. }
    exact (wp_elim _ _ _ _ _ H E).
  - intros act s1 Ev Hn.
    unfold try_catch in E.
    rewrite (recuperacion_sin_cambio env Hl c s0 act s1 Ev Hn) in E.
    injection E as <- <-. split; reflexivity.
Qed.

(** Every collaborator is down and nothing is cached: the answer is the
    empty sequence, not an exception. *)
Lemma C5_never_throws_all_down :
  fst (findImageUrls
         (mkEnv (fun _ => Rejected) (fun _ => Rejected) (fun _ _ => Rejected)
                (fun _ => 0%Z) (fun _ _ _ => false))
         "i-01-002-03" Ejemplo.inicial)
  = Ret [].
Proof. vm_compute. reflexivity. Qed.

(** Scenario A with a key that is in no tier, the version unchanged: the
    empty sequence, after the version request and the single-key request. *)
Lemma C5_never_throws_miss :
  let env := Ejemplo.mundo_plaza in
  let s := Ejemplo.tras_construir env in
  del_indice s "zzz" = []
  /\ findImageUrls env "ZZZ " s
     = (Ret [], tras_local (tras_consulta s) "zzz").
Proof. vm_compute. split; reflexivity. Qed.

(* ------------------------------------------------------------------ *)
(** ** Folders without a key *)

Lemma espacio_no_tipo c : Js.is_space c = true -> Patron.is_tipo c = false.
Proof.
  destruct c as [[] [] [] [] [] [] [] []]; vm_compute; congruence.
Qed.

Lemma en_blanco_sin_patron n : en_blanco n = true -> Patron.exec n = None.
Proof.
  induction n as [|c n IH]; simpl; [reflexivity|].
  rewrite andb_true_iff. intros [Hc Hn].
  rewrite (espacio_no_tipo c Hc). now apply IH.
Qed.

Lemma en_blanco_trim n : en_blanco n = true -> Js.trim n = "".
Proof.
  unfold Js.trim. induction n as [|c n IH]; simpl; [reflexivity|].
  rewrite andb_true_iff. intros [Hc Hn]. rewrite Hc. now apply IH.
Qed.

Lemma trimEnd_no_vacio c r :
  Js.is_space c = false -> Js.trimEnd (String c r) <> "".
Proof.
  intros Hc. simpl. destruct (Js.trimEnd r); [rewrite Hc|]; discriminate.
Qed.

Lemma no_en_blanco_trim n : en_blanco n = false -> Js.trim n <> "".
Proof.
  unfold Js.trim. induction n as [|c n IH]; simpl; [discriminate|].
  destruct (Js.is_space c) eqn:Hc; simpl.
  - exact IH.
  - intros _. fold (Js.trimEnd (String c n)). now apply trimEnd_no_vacio.
Qed.

(** C7 (as amended).  A folder that resolves to the empty key (an empty
    server key, or no server key and a name that is absent or blank) is
    skipped whole: the builder's maps and counters are as before it.  A
    folder with no server key whose name is not blank and holds no
    [<type>-<region>-<number>-<sub>] pattern is not skipped on that account:
    it is filed under its name, trimmed and lowered, which is not empty. *)
Theorem C7_skipped_folders b carpeta :
  (sin_clave carpeta -> procesar_carpeta b carpeta = b)
  /\ (forall n,
        c_k carpeta = None -> c_name carpeta = Some n ->
        Patron.exec n = None -> en_blanco n = false ->
        clave_de_carpeta carpeta = Js.toLowerCase (Js.trim n)
        /\ clave_de_carpeta carpeta <> "").
Proof.
  split.
  - intros Hs. unfold procesar_carpeta.
    destruct (c_children carpeta) as [[|it items]|]; try reflexivity.
    assert (Hk : clave_de_carpeta carpeta = "").
    { unfold clave_de_carpeta.
      destruct Hs as [->|[-> Hn]]; [reflexivity|].
      destruct (c_name carpeta) as [n|]; [|reflexivity].
      unfold _normalizarClaveClienteFallback.
      now rewrite (en_blanco_sin_patron n Hn), (en_blanco_trim n Hn). }
    rewrite Hk. reflexivity.
  - intros n Hk Hn Hp Hb. unfold clave_de_carpeta.
    rewrite Hk, Hn. unfold _normalizarClaveClienteFallback. rewrite Hp.
    split; [reflexivity|].
    apply toLowerCase_nonempty. now apply no_en_blanco_trim.
Qed.

(** A folder named with spaces only, holding one file, and a folder named
    ["Sin patron"]. *)
Lemma C7_skipped_folders_witness :
  procesar_carpeta construido_vacio
    (mkCarpeta None (Some "   ") (Some "alias") (Some [Ejemplo.archivo "f4"]))
  = construido_vacio
  /\ clave_de_carpeta
       (mkCarpeta None (Some "Sin patron") None
                  (Some [Ejemplo.archivo "f3"])) = "sin patron".
Proof.
  split.
  - apply (proj1 (C7_skipped_folders construido_vacio _)).
    right. split; reflexivity.
  - apply (proj2 (C7_skipped_folders construido_vacio
                    (mkCarpeta None (Some "Sin patron") None
                               (Some [Ejemplo.archivo "f3"])))
             "Sin patron"); reflexivity.
Defined.

(** C7 as stated fails on a folder without server key whose name holds no
    key pattern: the folder ["Sin patron"] is not skipped, it gets an entry
    under ["sin patron"] and its file is counted. *)
Lemma C7_counterexample :
  Patron.exec "Sin patron" = None
  /\ construir arbol_sin_patron
     = mkConstruido
         [("sin patron",
           [mkEntry None "https://drive.google.com/thumbnail?id=f3&sz=w800"
                    None])]
         [] 1 1.
Proof. vm_compute. split; reflexivity. Qed.

(* ------------------------------------------------------------------ *)
(** ** Freshness of the cache *)

(** C9.  [_cargarDesdeCacheLocal] always returns.  It returns a result
    (and then [{success: true, fromCache: true}]) only when the storage
    holds a metadata record for the version whose age, measured at the
    call, is strictly under [TTL_CACHE_MS], two hours.  A record whose age
    is the TTL exactly, or more, makes it return [null] with the index and
    the alias map left as they were. *)
Theorem C9_ttl_boundary env ver s :
  TTL_CACHE_MS = 7200000%Z
  /\ (exists o s', _cargarDesdeCacheLocal env ver s = (Ret o, s'))
  /\ (forall r s',
        _cargarDesdeCacheLocal env ver s = (Ret (Some r), s') ->
        r = res_en_cache
        /\ exists meta,
             ls_getItem (localStorage s) (CACHE_META_PREFIX ++ ver)
             = Some (StMeta meta)
             /\ (date_now env (tick s) - timestamp meta < TTL_CACHE_MS)%Z)
  /\ (forall meta,
        ls_getItem (localStorage s) (CACHE_META_PREFIX ++ ver)
        = Some (StMeta meta) ->
        (date_now env (tick s) - timestamp meta >= TTL_CACHE_MS)%Z ->
        fst (_cargarDesdeCacheLocal env ver s) = Ret None
        /\ imagenIndex (snd (_cargarDesdeCacheLocal env ver s)) = imagenIndex s
        /\ aliasIndex (snd (_cargarDesdeCacheLocal env ver s)) = aliasIndex s).
Proof.
  split; [reflexivity|]. split.
  { destruct (cargar_cache_devuelve env ver s) as (o & s' & E & _). eauto. }
  split.
  - intros r s' E.
    destruct (cargar_cache_devuelve env ver s) as (o & s1 & E1 & Ho).
    rewrite E in E1. injection E1 as <- <-.
    destruct Ho as [Ho|Ho]; [discriminate|]. injection Ho as ->.
    split; [reflexivity|].
    revert E. unfold _cargarDesdeCacheLocal, try_catch, bind, getItem, ret.
    cbn -[String.append Z.leb Z.sub TTL_CACHE_MS].
    destruct (ls_getItem (localStorage s) (CACHE_PREFIX ++ ver)) as [ci|];
      [|intros E; discriminate E].
    destruct (ls_getItem (localStorage s) (CACHE_META_PREFIX ++ ver))
      as [cm|]; [|intros E; discriminate E].
    destruct (stored_truthy ci && stored_truthy cm);
      [|intros E; discriminate E].
    destruct cm as [?|?|meta|?]; cbn -[String.append Z.leb Z.sub TTL_CACHE_MS];
      try (intros E; discriminate E).
    destruct (TTL_CACHE_MS <=? date_now env (tick s) - timestamp meta)%Z
      eqn:Ht; [intros E; discriminate E|].
    intros _. exists meta. split; [reflexivity|].
    now apply Z.leb_gt in Ht.
  - intros meta Hm Hage.
    unfold _cargarDesdeCacheLocal, try_catch, bind, getItem, ret.
    cbn -[String.append Z.leb Z.sub TTL_CACHE_MS].
    rewrite Hm.
    destruct (ls_getItem (localStorage s) (CACHE_PREFIX ++ ver)) as [ci|];
      [|now repeat split].
    destruct (stored_truthy ci && stored_truthy (StMeta meta));
      [|now repeat split].
    cbn -[String.append Z.leb Z.sub TTL_CACHE_MS].
    replace (TTL_CACHE_MS <=? date_now env (tick s) - timestamp meta)%Z
      with true by (symmetry; apply Z.leb_le; lia).
    now repeat split.
Qed.

(** A record written at time [0] and read two hours later, to the
    millisecond, is stale; one millisecond earlier it is fresh. *)
Lemma C9_ttl_boundary_example :
  let ls := [("imagenIndex_vv1", StIndex [("k", [mkEntry None "u" None])]);
             ("imagenIndex_meta_vv1", StMeta (mkMeta 0 "v1" 1 1))] in
  let s := mkState [] [] None ls 0 [] in
  let reloj t := mkEnv (fun _ => Rejected) (fun _ => Rejected)
                       (fun _ _ => Rejected) (fun _ => t)
                       (fun _ _ _ => true) in
  fst (_cargarDesdeCacheLocal (reloj 7200000%Z) "v1" s) = Ret None
  /\ fst (_cargarDesdeCacheLocal (reloj 7199999%Z) "v1" s)
     = Ret (Some res_en_cache).
Proof. vm_compute. split; reflexivity. Qed.

(* ------------------------------------------------------------------ *)
(** ** The offline fallback *)

Lemma sin_descargar_refl s : sin_descargar s s.
Proof. split; [reflexivity|]. exists []. now rewrite app_nil_r. Qed.

Lemma sin_descargar_trans a b c :
  sin_descargar a b -> sin_descargar b c -> sin_descargar a c.
Proof.
  intros (L1 & e1 & H1 & F1) (L2 & e2 & H2 & F2).
  split; [congruence|]. exists (e1 ++ e2)%list.
  rewrite H2, H1, app_assoc, forallb_app, F1, F2. now split.
Qed.

#[local] Hint Resolve sin_descargar_refl sin_descargar_trans : respeta.

Lemma sin_descargar_paso (f : State -> State) e :
  (forall s, localStorage (f s) = localStorage s) ->
  (forall s, trace (f s) = trace s \/ (trace (f s) = trace s ++ [e])%list) ->
  es_descarga e = false ->
  forall {A} (a : State -> A),
    respeta sin_descargar (fun s => (Ret (a s), f s)).
Proof.
  intros Hl Ht He A a s. split; [apply Hl|]. simpl.
  destruct (Ht s) as [H|H]; rewrite H.
  - exists []. now rewrite app_nil_r.
  - exists [e]. simpl. now rewrite He.
Qed.

Section Fallback.

Variable env : Env.

Lemma sin_descargar_getItem k : respeta sin_descargar (getItem k).
Proof. intros s. apply sin_descargar_refl. Qed.

Lemma sin_descargar_Date_now : respeta sin_descargar (Date_now env).
Proof.
  apply (sin_descargar_paso
           (fun s => mkState (imagenIndex s) (aliasIndex s)
                             (driveTreeVersion s) (localStorage s)
                             (S (tick s)) (trace s))
           EvFetchVersion); auto.
Qed.

Lemma sin_descargar_emit tickea e :
  es_descarga e = false -> respeta sin_descargar (emit tickea e).
Proof.
  intros He.
  apply (sin_descargar_paso
           (fun s => mkState (imagenIndex s) (aliasIndex s)
                             (driveTreeVersion s) (localStorage s)
                             (if tickea then S (tick s) else tick s)
                             (trace s ++ [e])%list)
           e); auto.
Qed.

Lemma sin_descargar_set_imagenIndex m :
  respeta sin_descargar (set_imagenIndex m).
Proof.
  apply (sin_descargar_paso
           (fun s => mkState m (aliasIndex s) (driveTreeVersion s)
                             (localStorage s) (tick s) (trace s))
           EvFetchVersion); auto.
Qed.

Lemma sin_descargar_set_aliasIndex m :
  respeta sin_descargar (set_aliasIndex m).
Proof.
  apply (sin_descargar_paso
           (fun s => mkState (imagenIndex s) m (driveTreeVersion s)
                             (localStorage s) (tick s) (trace s))
           EvFetchVersion); auto.
Qed.

Lemma sin_descargar_set_driveTreeVersion v :
  respeta sin_descargar (set_driveTreeVersion v).
Proof.
  apply (sin_descargar_paso
           (fun s => mkState (imagenIndex s) (aliasIndex s) v
                             (localStorage s) (tick s) (trace s))
           EvFetchVersion); auto.
Qed.

#[local] Hint Resolve sin_descargar_getItem sin_descargar_Date_now
  sin_descargar_set_imagenIndex sin_descargar_set_aliasIndex
  sin_descargar_set_driveTreeVersion : respeta.
#[local] Hint Extern 1 (respeta sin_descargar (mostrarNotificacion _)) =>
  apply sin_descargar_emit; reflexivity : respeta.
#[local] Hint Extern 1 (respeta sin_descargar (emit _ _)) =>
  apply sin_descargar_emit; reflexivity : respeta.

Ltac pasos := repeat (paso_respeta; eauto with respeta).

Lemma sin_descargar_obtener_version :
  respeta sin_descargar (obtener_version env).
Proof. unfold obtener_version, fetch_drive_tree_version. pasos. Qed.

Lemma sin_descargar_cargar_cache v :
  respeta sin_descargar (_cargarDesdeCacheLocal env v).
Proof.
  unfold _cargarDesdeCacheLocal, restaurar_alias, JSON_parse_meta,
    JSON_parse_index, JSON_parse_alias.
  pasos.
Qed.

Hypothesis Hcaido : arbol_caido env.

Lemma descargar_caido s :
  exists e s', _descargarYConstruirIndice env s = (Throw e, s')
               /\ localStorage s' = localStorage s.
Proof.
  unfold _descargarYConstruirIndice, bind, fetch_drive_tree, get, emit, ret,
    throw. simpl.
  specialize (Hcaido (tick s)).
  destruct (fetch_tree env (tick s)) as [|[] st [dd|]]; simpl;
    try contradiction; eauto.
Qed.

(** With the tree endpoint down the body of the build either answers from
    memory or from a fresh cache, without asking for the tree, or throws
    with the storage as it found it. *)
Lemma cuerpo_con_arbol_caido forzar s :
  match construir_cuerpo env forzar s with
  | (Ret _, s1) => sin_descargar s s1
  | (Throw _, s1) => localStorage s1 = localStorage s
  end.
Proof.
  unfold construir_cuerpo, bind at 1.
  pose proof (sin_descargar_obtener_version s) as H1.
  destruct (obtener_version env s) as [[v|e] s1]; simpl in H1;
    [|apply H1].
  unfold bind at 1, get at 1.
  match goal with |- context [if ?c then ret res_en_cache else _] =>
    destruct c end; [exact H1|].
  unfold bind at 1.
  assert (H2 : forall m : M (option BuildResult),
             respeta sin_descargar m ->
             match
               (let (o, s') := m s1 in
                match o with
                | Ret a =>
                    match a with
                    | Some r => ret r
                    | None =>
                        b <- _descargarYConstruirIndice env ;;
                        set_imagenIndex (nuevoIndice b) ;;
                        set_aliasIndex (nuevoAlias b) ;;
                        set_driveTreeVersion (Some v) ;;
                        _guardarEnCacheLocal env v (totalCarpetas b)
                                             (totalArchivos b) ;;
                        mostrarNotificacion
                          (AvisoActualizado (totalCarpetas b)) ;;
                        ret (res_construido (totalCarpetas b)
                                            (totalArchivos b))
                    end s'
                | Throw e => (Throw e, s')
                end)
             with
             | (Ret _, s2) => sin_descargar s s2
             | (Throw _, s2) => localStorage s2 = localStorage s
             end).
  { intros m Hm. specialize (Hm s1).
    destruct (m s1) as [[[r|]|e] s2]; simpl in Hm.
    - eapply sin_descargar_trans; eauto.
    - unfold bind at 1.
      destruct (descargar_caido s2) as (e & s3 & -> & Hl).
      destruct Hm as [Hm _]. destruct H1 as [H1 _]. congruence.
    - destruct Hm as [Hm _]. destruct H1 as [H1 _]. congruence. }
  match goal with |- context [if ?c then _ else ret None] =>
    destruct c end.
  - apply H2, sin_descargar_cargar_cache.
  - apply H2. apply respeta_ret. apply sin_descargar_refl.
Qed.

End Fallback.

(** The scan passes over the keys it does not stop at. *)
Lemma fallback_loop_salta pre resto s :
  (forall k, In k pre -> es_candidato (localStorage s) k = false) ->
  fallback_loop (pre ++ resto)%list s = fallback_loop resto s.
Proof.
  induction pre as [|k pre IH]; intros Hno; [reflexivity|].
  assert (Hk : es_candidato (localStorage s) k = false)
    by (apply Hno; now left).
  assert (IH' : fallback_loop (pre ++ resto)%list s = fallback_loop resto s)
    by (apply IH; intros; apply Hno; now right).
  unfold es_candidato, version_de in Hk.
  cbn [app fallback_loop].
  destruct (es_clave_de_indice k); cbn [negb andb] in *; [|exact IH'].
  unfold bind, getItem.
  destruct (ls_getItem (localStorage s) k) as [ci|]; [|exact IH'].
  destruct (ls_getItem (localStorage s)
              (CACHE_META_PREFIX ++ Js.replace_first_empty k CACHE_PREFIX))
    as [cm|]; [|exact IH'].
  rewrite Hk. exact IH'.
Qed.

(** The scan restores the first key it stops at, whatever its age. *)
Lemma fallback_loop_restaura key resto s l m al :
  es_clave_de_indice key = true ->
  ls_getItem (localStorage s) key = Some (StIndex l) ->
  ls_getItem (localStorage s) (CACHE_META_PREFIX ++ version_de key)
  = Some (StMeta m) ->
  alias_guardado
    (ls_getItem (localStorage s) (CACHE_PREFIX ++ "alias_" ++ version_de key))
  = Some al ->
  fallback_loop (key :: resto) s
  = (Ret (Some res_fallback), restaurado s (version_de key) l al m).
Proof.
  unfold version_de. intros Hk Hi Hm Ha.
  cbn [fallback_loop]. rewrite Hk. cbn [negb].
  unfold bind at 1, getItem at 1. rewrite Hi.
  unfold bind at 1, getItem at 1.
  unfold bind at 1, getItem at 1. rewrite Hm.
  cbn [stored_truthy andb JSON_parse_meta JSON_parse_index].
  unfold bind at 1, ret at 1. unfold bind at 1, ret at 1.
  unfold bind at 1, set_imagenIndex at 1.
  unfold restaurar_alias.
  destruct (ls_getItem (localStorage s)
              (CACHE_PREFIX ++ "alias_" ++ Js.replace_first_empty key CACHE_PREFIX))
    as [[| la | |raw]|]; simpl in Ha; try discriminate.
  - injection Ha as <-. reflexivity.
  - cbn [stored_truthy]. destruct (Js.truthy raw); [discriminate|].
    injection Ha as <-. reflexivity.
  - injection Ha as <-. reflexivity.
Qed.

(** C6 (as amended).  Let the tree endpoint be down, and let the storage
    hold, as the first key the fallback scan stops at (an index key whose
    version token contains neither ["_meta_"] nor ["alias_"], with its
    payload and its metadata record), a version whose payloads parse.  Then
    a build that asks for the tree answers
    [{success: true, fromCache: true, isFallback: true}] and leaves the
    module on that stored version.  Neither the timestamp of the record nor
    the clock is looked at. *)
Theorem C6_offline_fallback env forzar s pre key post l m al r s' :
  arbol_caido env ->
  map fst (localStorage s) = (pre ++ key :: post)%list ->
  (forall k, In k pre -> es_candidato (localStorage s) k = false) ->
  es_clave_de_indice key = true ->
  ls_getItem (localStorage s) key = Some (StIndex l) ->
  ls_getItem (localStorage s) (CACHE_META_PREFIX ++ version_de key)
  = Some (StMeta m) ->
  alias_guardado
    (ls_getItem (localStorage s) (CACHE_PREFIX ++ "alias_" ++ version_de key))
  = Some al ->
  construirIndiceImagenes env forzar s = (Ret r, s') ->
  In EvFetchTree (eventos_nuevos s s') ->
  r = mkResult true (Some true) (Some true) None None
  /\ imagenIndex s' = map_of_entries l
  /\ aliasIndex s' = al
  /\ driveTreeVersion s' = Some (version_de key).
Proof.
  intros Hcaido Hkeys Hpre Hk Hi Hm Ha Hrun Hev.
  revert Hrun. unfold construirIndiceImagenes, try_catch, bind at 1.
  unfold emit at 1.
  set (s1 := mkState (imagenIndex s) (aliasIndex s) (driveTreeVersion s)
                     (localStorage s) (tick s)
                     (trace s ++ [EvConstruir forzar])%list).
  pose proof (cuerpo_con_arbol_caido env Hcaido forzar s1) as Hc.
  destruct (construir_cuerpo env forzar s1) as [[r1|e] s2].
  - intros [= <- <-]. exfalso.
    destruct Hc as (_ & evs & Ht & Hf).
    unfold eventos_nuevos in Hev. rewrite Ht in Hev. unfold s1 in Hev.
    cbn [trace] in Hev. rewrite <- app_assoc in Hev.
    rewrite skipn_app, skipn_all, Nat.sub_diag in Hev. simpl in Hev.
    destruct Hev as [Hev|Hev]; [discriminate|].
    rewrite forallb_forall in Hf. specialize (Hf _ Hev). discriminate.
  - assert (Hls : localStorage s2 = localStorage s) by exact Hc.
    unfold construir_rescate, bind at 1, _cargarFallbackLocal, try_catch,
      bind at 1, get at 1.
    rewrite Hls, Hkeys, fallback_loop_salta
      by (rewrite Hls; exact Hpre).
    rewrite (fallback_loop_restaura key post s2 l m al)
      by (rewrite ?Hls; assumption).
    intros [= <- <-]. repeat split.
Qed.

(** The stored version ["v1"] is a year old, far past the TTL; the server
    answers the version but no tree.  An unforced build falls back on it. *)
Lemma C6_offline_fallback_witness :
  let env := mundo_sin_arbol "v1" in
  let s := mkState [] [] None almacen_v1 0 [] in
  let s' := snd (construirIndiceImagenes env false s) in
  res_fallback = mkResult true (Some true) (Some true) None None
  /\ imagenIndex s' = map_of_entries [("i-01-002-03", [mkEntry None "u1" None])]
  /\ aliasIndex s' = [("plaza centro", "i-01-002-03")]
  /\ driveTreeVersion s' = Some (version_de "imagenIndex_vv1").
Proof.
  intros env s s'.
  apply (C6_offline_fallback env false s ["theme"] "imagenIndex_vv1"
           ["imagenIndex_valias_v1"; "imagenIndex_meta_vv1"]
           [("i-01-002-03", [mkEntry None "u1" None])]
           (mkMeta 0 "v1" 1 1) [("plaza centro", "i-01-002-03")]
           res_fallback s').
  - intros n. exact I.
  - reflexivity.
  - intros k [<-|[]]. reflexivity.
  - reflexivity.
  - reflexivity.
  - reflexivity.
  - reflexivity.
  - vm_compute. reflexivity.
  - vm_compute. auto.
Defined.

(** C6 as stated fails on a version token that contains ["alias_"]: the
    storage holds the index payload and the metadata record of the version
    ["alias_1"], the tree fetch fails, and the build answers
    [{success: false}]: the scan takes the index key
    ["imagenIndex_valias_1"] for an alias payload and passes over it.  It
    also fails when the first version the scan stops at does not parse:
    the version ["v1"] that follows it, whole, is not restored. *)
Lemma C6_counterexample :
  let env := mundo_sin_arbol "alias_1" in
  let s := mkState [] [] None almacen_alias_1 0 [] in
  let s' := mkState [] [] None almacen_ilegible 0 [] in
  (ls_getItem (localStorage s) (CACHE_PREFIX ++ "alias_1")
   = Some (StIndex [("i-01-002-03", [mkEntry None "u1" None])])
   /\ ls_getItem (localStorage s) (CACHE_META_PREFIX ++ "alias_1")
      = Some (StMeta (mkMeta 0 "alias_1" 1 1))
   /\ fst (construirIndiceImagenes env true s) = Ret (res_error NetworkError)
   /\ In EvFetchTree
         (eventos_nuevos s (snd (construirIndiceImagenes env true s))))
  /\ (ls_getItem (localStorage s') (CACHE_PREFIX ++ "v1")
      = Some (StIndex [("i-01-002-03", [mkEntry None "u1" None])])
      /\ ls_getItem (localStorage s') (CACHE_META_PREFIX ++ "v1")
         = Some (StMeta (mkMeta 0 "v1" 1 1))
      /\ fst (construirIndiceImagenes env true s')
         = Ret (res_error NetworkError)
      /\ In EvFetchTree
            (eventos_nuevos s' (snd (construirIndiceImagenes env true s'))))
  /\ success (res_error NetworkError) = false.
Proof. vm_compute. repeat split; now right; right; left. Qed.

(* ------------------------------------------------------------------ *)
(** ** Saving the index *)

Lemma length_append a b :
  String.length (a ++ b) = String.length a + String.length b.
Proof. induction a as [|c a IH]; simpl; [reflexivity|now rewrite IH]. Qed.

Lemma length_replicate n c : String.length (Js.replicate n c) = n.
Proof. induction n as [|n IH]; simpl; [reflexivity|now rewrite IH]. Qed.

Lemma escape_replicate_a n :
  Json.escape (Js.replicate n "a") = Js.replicate n "a".
Proof. induction n as [|n IH]; simpl; [reflexivity|now rewrite IH]. Qed.

Lemma stringify_una_clave k es :
  String.length (Json.stringify (StIndex [(k, es)]))
  = String.length (Json.escape k)
    + String.length (Json.stringify (StIndex [("", es)])).
Proof.
  unfold Json.stringify, Json.array, Json.str. simpl.
  rewrite !length_append. simpl. rewrite !length_append. simpl. lia.
Qed.

Lemma stringify_indice_grande :
  String.length (Json.stringify (StIndex indice_grande)) = 4800 * 1000 + 20.
Proof.
  unfold indice_grande. rewrite stringify_una_clave, escape_replicate_a,
    length_replicate.
  f_equal.
Qed.

Lemma acepta_hasta_cabe cuota ls k v :
  ls_chars (ls_setItem ls k v) <= cuota -> acepta_hasta cuota ls k v = true.
Proof. intros H. now apply Nat.leb_le. Qed.

Lemma tam_alias_vacio : String.length (Json.stringify (StAlias [])) = 2.
Proof. reflexivity. Qed.

Lemma tam_meta_v1 :
  String.length (Json.stringify (StMeta (mkMeta 0 "v1" 1 1))) = 56.
Proof. vm_compute. reflexivity. Qed.

Lemma guardar_con_cuota idx cuota :
  String.length (Json.stringify (StIndex idx)) + 200 <= cuota ->
  ls_getItem
    (localStorage
       (snd (_guardarEnCacheLocal (mundo_con_cuota cuota) "v1" 1 1
                                  (con_indice idx))))
    (CACHE_PREFIX ++ "v1")
  = Some (StIndex idx).
Proof.
  intros Hq. unfold _guardarEnCacheLocal, con_indice.
  cbn -[Json.stringify Nat.leb acepta_hasta].
  unfold try_catch, bind, get, setItem, set_localStorage, Date_now, ret,
    throw.
  assert (Hcabe : forall ls k v,
             ls_chars (ls_setItem ls k v)
             <= String.length (Json.stringify (StIndex idx)) + 200 ->
             acepta_hasta cuota ls k v = true)
    by (intros; apply acepta_hasta_cabe; lia).
  cbn -[Json.stringify Nat.leb acepta_hasta limpiar].
  rewrite Hcabe by (cbn -[Json.stringify]; lia).
  cbn -[Json.stringify Nat.leb acepta_hasta limpiar].
  rewrite Hcabe by (cbn -[Json.stringify]; rewrite tam_alias_vacio; lia).
  cbn -[Json.stringify Nat.leb acepta_hasta limpiar].
  rewrite Hcabe
    by (cbn -[Json.stringify]; rewrite tam_alias_vacio, tam_meta_v1; lia).
  cbn -[Json.stringify Nat.leb acepta_hasta].
  reflexivity.
Qed.

(** C8 as stated fails: [_guardarEnCacheLocal] compares no size with any
    ceiling.  The serialized index below is 4 800 020 characters long, over
    4.5 MiB (4 718 592) in any unit, and the storage takes writes up to
    5 MiB of characters: the payload is written. *)
Lemma C8_counterexample :
  4608 * 1024 < String.length (Json.stringify (StIndex indice_grande))
  /\ ls_getItem
       (localStorage
          (snd (_guardarEnCacheLocal (mundo_con_cuota (5 * 1024 * 1024))
                                     "v1" 1 1 (con_indice indice_grande))))
       (CACHE_PREFIX ++ "v1")
     = Some (StIndex indice_grande).
Proof.
  split.
  - rewrite stringify_indice_grande. lia.
  - apply guardar_con_cuota. rewrite stringify_indice_grande. lia.
Qed.

Section Guardar.

Variable env : Env.

Lemma obtener_version_devuelve s :
  exists v, obtener_version env s = (Ret v, tras_consulta s).
Proof.
  unfold obtener_version, try_catch, bind, fetch_drive_tree_version, get,
    emit, ret, throw, tras_consulta. simpl.
  destruct (fetch_version env (tick s)) as [|[] st [d|]]; simpl; eauto.
  destruct (Js.or_else (Js.or_else (v_version d) (v_lastModified d))
                       (Some "unknown")); eauto.
Qed.

(** A refused first write ends the save: nothing is stored. *)
Lemma guardar_rechazado v c a s :
  storage_accepts env (localStorage s) (CACHE_PREFIX ++ v)
                  (StIndex (imagenIndex s)) = false ->
  _guardarEnCacheLocal env v c a s = (Ret tt, s).
Proof.
  intros Hno. unfold _guardarEnCacheLocal.
  destruct (String.eqb v "unknown"); [reflexivity|].
  unfold try_catch, bind at 1, get at 1, bind at 1, setItem, bind at 1,
    get at 1.
  rewrite Hno. reflexivity.
Qed.

End Guardar.

(* ------------------------------------------------------------------ *)
(** ** Invariants of a built index *)

(** X1.  In the maps the builder returns, every key of the primary index is
    a non-empty string with at least one entry, and every alias is a
    non-empty string that leads to a key present in the primary index. *)
Theorem X1_built_index_invariants driveData :
  (forall k l,
      map_get (nuevoIndice (construir driveData)) k = Some l ->
      k <> "" /\ l <> [])
  /\ (forall a k,
        map_get (nuevoAlias (construir driveData)) a = Some k ->
        a <> "" /\ k <> "" /\
        exists l, map_get (nuevoIndice (construir driveData)) k = Some l
                  /\ l <> []).
Proof. exact (construir_bien_formado driveData). Qed.

(* ------------------------------------------------------------------ *)
(** ** Keys made from folder names *)

Lemma lower_idem c : Js.lower (Js.lower c) = Js.lower c.
Proof. destruct c as [[] [] [] [] [] [] [] []]; reflexivity. Qed.

Lemma is_space_lower c : Js.is_space (Js.lower c) = Js.is_space c.
Proof. destruct c as [[] [] [] [] [] [] [] []]; reflexivity. Qed.

Lemma lower_digit c : Js.is_digit c = true -> Js.lower c = c.
Proof. destruct c as [[] [] [] [] [] [] [] []]; vm_compute; congruence. Qed.

Lemma digit_no_space c : Js.is_digit c = true -> Js.is_space c = false.
Proof. destruct c as [[] [] [] [] [] [] [] []]; vm_compute; congruence. Qed.

Lemma toLowerCase_idem s :
  Js.toLowerCase (Js.toLowerCase s) = Js.toLowerCase s.
Proof.
  induction s as [|c r IH]; simpl; [reflexivity|].
  now rewrite lower_idem, IH.
Qed.

Lemma toLowerCase_app a b :
  Js.toLowerCase (a ++ b) = Js.toLowerCase a ++ Js.toLowerCase b.
Proof. induction a as [|c r IH]; simpl; [reflexivity|now rewrite IH]. Qed.

Lemma toLowerCase_vacio s : Js.toLowerCase s = "" <-> s = "".
Proof. destruct s; simpl; split; congruence. Qed.

Lemma trimStart_lower s :
  Js.trimStart (Js.toLowerCase s) = Js.toLowerCase (Js.trimStart s).
Proof.
  induction s as [|c r IH]; simpl; [reflexivity|].
  rewrite is_space_lower. destruct (Js.is_space c); [exact IH|reflexivity].
Qed.

Lemma trimEnd_lower s :
  Js.trimEnd (Js.toLowerCase s) = Js.toLowerCase (Js.trimEnd s).
Proof.
  induction s as [|c r IH]; simpl; [reflexivity|].
  rewrite IH, is_space_lower.
  destruct (Js.trimEnd r) as [|d t]; simpl; [|reflexivity].
  destruct (Js.is_space c); reflexivity.
Qed.

Lemma trim_lower s : Js.trim (Js.toLowerCase s) = Js.toLowerCase (Js.trim s).
Proof. unfold Js.trim. now rewrite trimStart_lower, trimEnd_lower. Qed.

Lemma trimEnd_idem s : Js.trimEnd (Js.trimEnd s) = Js.trimEnd s.
Proof.
  induction s as [|c r IH]; simpl; [reflexivity|].
  destruct (Js.trimEnd r) as [|d t] eqn:E.
  - destruct (Js.is_space c) eqn:Hc; simpl; [reflexivity|now rewrite Hc].
  - simpl in *. now rewrite IH.
Qed.

Lemma trimStart_empieza_bien s : empieza_bien (Js.trimStart s).
Proof.
  induction s as [|c r IH]; simpl; [exact I|].
  destruct (Js.is_space c) eqn:Hc; [exact IH|exact Hc].
Qed.

Lemma trimEnd_empieza_bien s :
  empieza_bien s -> empieza_bien (Js.trimEnd s).
Proof.
  destruct s as [|c r]; simpl; [trivial|]. intros Hc.
  destruct (Js.trimEnd r); [rewrite Hc|]; exact Hc.
Qed.

Lemma trimStart_empieza s : empieza_bien s -> Js.trimStart s = s.
Proof. destruct s as [|c r]; simpl; [reflexivity|now intros ->]. Qed.

Lemma trim_idem s : Js.trim (Js.trim s) = Js.trim s.
Proof.
  unfold Js.trim.
  rewrite (trimStart_empieza (Js.trimEnd (Js.trimStart s)))
    by apply trimEnd_empieza_bien, trimStart_empieza_bien.
  apply trimEnd_idem.
Qed.

Lemma normalizar_idem q : normalizar (normalizar q) = normalizar q.
Proof.
  unfold normalizar. now rewrite trim_lower, toLowerCase_idem, trim_idem.
Qed.

Lemma trimEnd_sin_espacios s : sin_espacios s = true -> Js.trimEnd s = s.
Proof.
  unfold sin_espacios. induction s as [|c r IH]; simpl; [reflexivity|].
  rewrite andb_true_iff, negb_true_iff. intros [Hc Hr].
  rewrite (IH Hr). destruct r; [now rewrite Hc|reflexivity].
Qed.

Lemma trim_sin_espacios s : sin_espacios s = true -> Js.trim s = s.
Proof.
  intros H. unfold Js.trim.
  rewrite trimStart_empieza.
  - now apply trimEnd_sin_espacios.
  - destruct s as [|c r]; simpl; [exact I|].
    unfold sin_espacios in H. simpl in H.
    apply andb_true_iff in H. destruct H as [H _].
    now apply negb_true_iff in H.
Qed.

Lemma sin_espacios_app a b :
  sin_espacios (a ++ b) = sin_espacios a && sin_espacios b.
Proof.
  unfold sin_espacios. induction a as [|c r IH]; simpl; [reflexivity|].
  now rewrite IH, andb_assoc.
Qed.

Lemma solo_digitos_sin_espacios s :
  solo_digitos s = true -> sin_espacios s = true.
Proof.
  unfold solo_digitos, sin_espacios.
  induction s as [|c r IH]; simpl; [reflexivity|].
  rewrite !andb_true_iff. intros [Hc Hr].
  split; [now rewrite (digit_no_space c Hc)|now apply IH].
Qed.

Lemma solo_digitos_lower s :
  solo_digitos s = true -> Js.toLowerCase s = s.
Proof.
  unfold solo_digitos. induction s as [|c r IH]; simpl; [reflexivity|].
  rewrite andb_true_iff. intros [Hc Hr].
  now rewrite (lower_digit c Hc), (IH Hr).
Qed.

Lemma digits23_grupo s g r :
  Patron.digits23 s = Some (g, r) -> grupo_de_digitos g.
Proof.
  unfold Patron.digits23, grupo_de_digitos, solo_digitos.
  destruct s as [|a [|b t]]; try discriminate.
  destruct (Js.is_digit a) eqn:Ha; [|discriminate].
  destruct (Js.is_digit b) eqn:Hb; [|discriminate]. simpl.
  destruct t as [|c t'].
  - intros [= <- <-]. simpl. rewrite Ha, Hb. auto.
  - destruct (Js.is_digit c) eqn:Hc; intros [= <- <-]; simpl;
      rewrite Ha, Hb, ?Hc; auto.
Qed.

Lemma match_here_capturas s m :
  Patron.match_here s = Some m ->
  Patron.is_tipo (Patron.m1 m) = true
  /\ grupo_de_digitos (Patron.m2 m)
  /\ grupo_de_digitos (Patron.m3 m)
  /\ grupo_de_digitos (Patron.m4 m).
Proof.
  unfold Patron.match_here. destruct s as [|t r0]; [discriminate|].
  destruct (Patron.is_tipo t) eqn:Ht; [|discriminate].
  destruct (Patron.expect_dash r0) as [r1|]; [|discriminate].
  destruct (Patron.digits23 (Patron.skip_spaces r1)) as [[g2 r2]|] eqn:E2;
    [|discriminate].
  destruct (Patron.expect_dash r2) as [r3|]; [|discriminate].
  destruct (Patron.digits23 r3) as [[g3 r4]|] eqn:E3; [|discriminate].
  destruct (Patron.expect_dash r4) as [r5|]; [|discriminate].
  destruct (Patron.digits23 r5) as [[g4 r6]|] eqn:E4; [|discriminate].
  intros [= <-]. simpl.
  split; [exact Ht|].
  split; [exact (digits23_grupo _ _ _ E2)|].
  split; [exact (digits23_grupo _ _ _ E3)|exact (digits23_grupo _ _ _ E4)].
Qed.

Lemma exec_capturas s m :
  Patron.exec s = Some m ->
  Patron.is_tipo (Patron.m1 m) = true
  /\ grupo_de_digitos (Patron.m2 m)
  /\ grupo_de_digitos (Patron.m3 m)
  /\ grupo_de_digitos (Patron.m4 m).
Proof.
  induction s as [|c r IH]; cbn [Patron.exec].
  - discriminate.
  - destruct (Patron.match_here (String c r)) as [m'|] eqn:E.
    + intros [= <-]. now apply match_here_capturas with (s := String c r).
    + exact IH.
Qed.

Lemma tipo_en_minuscula c :
  Patron.is_tipo c = true ->
  Js.lower (if (Js.code (Js.upper c) =? 76) || (Js.code (Js.upper c) =? 49)
            then "I"%char else Js.upper c)
  = letra_de_tipo c
  /\ Js.is_lower (letra_de_tipo c) = true.
Proof.
  destruct c as [[] [] [] [] [] [] [] []]; vm_compute; intros H;
    try discriminate H; split; reflexivity.
Qed.

Lemma padStart_2_grupo g : grupo_de_digitos g -> Js.padStart 2 "0" g = g.
Proof.
  intros [_ [H|H]]; unfold Js.padStart; rewrite H; reflexivity.
Qed.

Lemma padStart_3_grupo g :
  grupo_de_digitos g ->
  Js.padStart 3 "0" g = grupo_central g
  /\ String.length (grupo_central g) = 3
  /\ solo_digitos (grupo_central g) = true.
Proof.
  intros [Hd [H|H]]; unfold Js.padStart, grupo_central; rewrite H; simpl.
  - repeat split; [now rewrite H|]. unfold solo_digitos in *. simpl.
    exact Hd.
  - repeat split; assumption.
Qed.

Lemma forma_de_clave nombre m :
  Patron.exec nombre = Some m ->
  _normalizarClaveClienteFallback nombre
  = String (letra_de_tipo (Patron.m1 m))
           ("-" ++ Patron.m2 m ++ "-" ++ grupo_central (Patron.m3 m)
                ++ "-" ++ Patron.m4 m)
  /\ Js.is_lower (letra_de_tipo (Patron.m1 m)) = true
  /\ grupo_de_digitos (Patron.m2 m)
  /\ (solo_digitos (grupo_central (Patron.m3 m)) = true
      /\ String.length (grupo_central (Patron.m3 m)) = 3)
  /\ grupo_de_digitos (Patron.m4 m).
Proof.
  intros E. destruct (exec_capturas _ _ E) as (Ht & H2 & H3 & H4).
  destruct (tipo_en_minuscula _ Ht) as [Hl Hlow].
  destruct (padStart_3_grupo _ H3) as (Hp & Hlen & Hdig).
  unfold _normalizarClaveClienteFallback. rewrite E.
  cbv zeta. rewrite (padStart_2_grupo _ H2), (padStart_2_grupo _ H4), Hp.
  cbn [Js.toLowerCase]. rewrite Hl.
  repeat rewrite toLowerCase_app.
  rewrite (solo_digitos_lower _ (proj1 H2)), (solo_digitos_lower _ Hdig),
    (solo_digitos_lower _ (proj1 H4)).
  repeat split; try assumption; apply H2 || apply H4.
Qed.

(** X2.  When the name of a folder holds the key pattern, the key made from
    it is a lower-case letter, a two- or three-digit group, a three-digit
    group and a two- or three-digit group, joined by dashes: the letter is
    ["i"] for a captured ["l"], ["L"] or ["1"], the middle group is padded
    with a zero when it has two digits, and the outer groups are the
    captured ones. *)
Theorem X2_recognized_key_shape nombre m :
  Patron.exec nombre = Some m ->
  _normalizarClaveClienteFallback nombre
  = String (letra_de_tipo (Patron.m1 m))
           ("-" ++ Patron.m2 m ++ "-" ++ grupo_central (Patron.m3 m)
                ++ "-" ++ Patron.m4 m)
  /\ Js.is_lower (letra_de_tipo (Patron.m1 m)) = true
  /\ grupo_de_digitos (Patron.m2 m)
  /\ (solo_digitos (grupo_central (Patron.m3 m)) = true
      /\ String.length (grupo_central (Patron.m3 m)) = 3)
  /\ grupo_de_digitos (Patron.m4 m).
Proof. exact (forma_de_clave nombre m). Qed.

(** A name read with a lower-case ["l"] for the type and a two-digit middle
    group. *)
Lemma X2_recognized_key_shape_witness :
  _normalizarClaveClienteFallback "Plaza l- 01-02-003 centro"
  = "i-01-002-003".
Proof.
  exact (proj1 (X2_recognized_key_shape "Plaza l- 01-02-003 centro"
                  (Patron.mkCaptura "l" "01" "02" "003") eq_refl)).
Defined.

(** X3.  Whatever the name of a folder, the key the client makes from it is
    in the normal form of the lookup: trimming and lower-casing it changes
    nothing.  A folder filed under that key is therefore found by the
    exact tier when asked for by the key. *)
Theorem X3_name_keys_are_normal nombre :
  normalizar (_normalizarClaveClienteFallback nombre)
  = _normalizarClaveClienteFallback nombre
  /\ forall env s entradas,
       map_get (imagenIndex s) (_normalizarClaveClienteFallback nombre)
       = Some entradas ->
       _normalizarClaveClienteFallback nombre <> "" -> entradas <> [] ->
       findImageUrls env (_normalizarClaveClienteFallback nombre) s
       = (Ret (urls entradas), s).
Proof.
  assert (Hn : normalizar (_normalizarClaveClienteFallback nombre)
               = _normalizarClaveClienteFallback nombre).
  { destruct (Patron.exec nombre) as [m|] eqn:E.
    - destruct (forma_de_clave nombre m E) as (-> & Hlow & H2 & [Hd Hl] & H4).
      unfold normalizar. rewrite trim_sin_espacios.
      + cbn [Js.toLowerCase].
        repeat rewrite toLowerCase_app.
        rewrite (solo_digitos_lower _ (proj1 H2)), (solo_digitos_lower _ Hd),
          (solo_digitos_lower _ (proj1 H4)).
        f_equal. revert Hlow.
        generalize (letra_de_tipo (Patron.m1 m)).
        intros c. destruct c as [[] [] [] [] [] [] [] []]; vm_compute;
          congruence.
      + change (String (letra_de_tipo (Patron.m1 m))
                  ("-" ++ Patron.m2 m ++ "-" ++ grupo_central (Patron.m3 m)
                       ++ "-" ++ Patron.m4 m))
          with (String (letra_de_tipo (Patron.m1 m)) "-"
                ++ Patron.m2 m ++ "-" ++ grupo_central (Patron.m3 m)
                ++ "-" ++ Patron.m4 m).
        repeat rewrite sin_espacios_app.
        rewrite (solo_digitos_sin_espacios _ (proj1 H2)),
          (solo_digitos_sin_espacios _ Hd),
          (solo_digitos_sin_espacios _ (proj1 H4)).
        revert Hlow. generalize (letra_de_tipo (Patron.m1 m)).
        intros c. destruct c as [[] [] [] [] [] [] [] []]; vm_compute;
          congruence.
    - unfold _normalizarClaveClienteFallback. rewrite E.
      apply normalizar_idem. }
  split; [exact Hn|].
  intros env s entradas Hget Hk He.
  now apply nivel_exacto with (k := _normalizarClaveClienteFallback nombre).
Qed.

(* ------------------------------------------------------------------ *)
(** ** Lookups at the edges *)

(** X4.  An empty or blank key is not looked up in the index and builds
    none: the call asks the single-key endpoint for the empty key, once,
    returns its images if it has any and the empty sequence otherwise, and
    leaves the index, the alias map, the version and the storage as they
    were. *)
Theorem X4_blank_key env q s :
  en_blanco q = true ->
  findImageUrls env q s
  = (Ret (imagenes_de (fetch_local env (tick s) "")), tras_local s "").
Proof.
  intros Hb. unfold findImageUrls. apply try_catch_ret.
  unfold normalizar. rewrite (en_blanco_trim q Hb). cbn.
  apply locales_resultado.
Qed.

(** A key of three spaces, with no index in memory and a server that would
    deliver one. *)
Lemma X4_blank_key_witness :
  findImageUrls Ejemplo.mundo_plaza "   " Ejemplo.inicial
  = (Ret [], tras_local Ejemplo.inicial "").
Proof.
  exact (X4_blank_key Ejemplo.mundo_plaza "   " Ejemplo.inicial eq_refl).
Defined.

(** X5.  A lookup that the exact, the alias or the fuzzy tier answers asks
    nothing of the outside world and changes nothing: whatever the world,
    it returns the same non-empty sequence and leaves the state, trace
    included, as it was, so that asking again gives the same answer. *)
Theorem X5_index_hits_are_pure env q s :
  imagenIndex s <> [] -> normalizar q <> "" ->
  del_indice s (normalizar q) <> [] ->
  findImageUrls env q s = (Ret (del_indice s (normalizar q)), s)
  /\ forall env', findImageUrls env' q s = findImageUrls env q s.
Proof.
  intros Hidx Hc Hhit.
  assert (H : forall e, findImageUrls e q s
                        = (Ret (del_indice s (normalizar q)), s)).
  { intros e. unfold findImageUrls. apply try_catch_ret.
    apply truthy_true_iff in Hc. rewrite Hc. cbn [negb].
    unfold bind at 1, get at 1.
    replace (map_size (imagenIndex s) =? 0) with false
      by (destruct (imagenIndex s); [contradiction|reflexivity]).
    revert Hhit. unfold buscar_por_niveles, del_indice, bind at 1, get at 1,
      exacto_en.
    destruct (con_imagenes (map_get (imagenIndex s) (normalizar q)));
      [reflexivity|].
    destruct (map_get (aliasIndex s) (normalizar q)) as [k|].
    - destruct (Js.truthy k); cbn [andb].
      + destruct (con_imagenes (map_get (imagenIndex s) k)); [reflexivity|].
        intros Hp. apply longitud_positiva in Hp. now rewrite Hp.
      + intros Hp. apply longitud_positiva in Hp. cbn [con_imagenes].
        now rewrite Hp.
    - intros Hp. apply longitud_positiva in Hp. cbn [con_imagenes].
      now rewrite Hp. }
  split; [apply H|]. intros env'. now rewrite !H.
Qed.

(** Scenario B asked in two different worlds. *)
Lemma X5_index_hits_are_pure_witness :
  findImageUrls mundo_cambiante "Plaza Centro"
                (Ejemplo.tras_construir Ejemplo.mundo_plaza)
  = findImageUrls Ejemplo.mundo_plaza "Plaza Centro"
                  (Ejemplo.tras_construir Ejemplo.mundo_plaza).
Proof.
  apply (proj2 (X5_index_hits_are_pure Ejemplo.mundo_plaza "Plaza Centro"
                  (Ejemplo.tras_construir Ejemplo.mundo_plaza)
                  ltac:(vm_compute; discriminate)
                  ltac:(vm_compute; discriminate)
                  ltac:(vm_compute; discriminate))).
Defined.

(* ------------------------------------------------------------------ *)
(** ** Builds at the edges *)

Lemma fallback_sin_candidatos s :
  (forall k, In k (map fst (localStorage s)) ->
             es_candidato (localStorage s) k = false) ->
  _cargarFallbackLocal s = (Ret None, s).
Proof.
  intros Hno. unfold _cargarFallbackLocal, try_catch, bind at 1, get at 1.
  rewrite <- (app_nil_r (map fst (localStorage s))).
  now rewrite (fallback_loop_salta _ [] s Hno).
Qed.

(** X6.  A forced build that cannot get the tree, with nothing in the
    storage that the fallback scan stops at, answers
    [{success: false, error}], shows the error notification, and leaves in
    memory what was there: the index, the alias map and the version held
    are as before the call, and so is the storage. *)
Theorem X6_failed_forced_build_keeps_index env s :
  arbol_caido env ->
  (forall k, In k (map fst (localStorage s)) ->
             es_candidato (localStorage s) k = false) ->
  exists e s',
    construirIndiceImagenes env true s = (Ret (res_error e), s')
    /\ imagenIndex s' = imagenIndex s
    /\ aliasIndex s' = aliasIndex s
    /\ driveTreeVersion s' = driveTreeVersion s
    /\ localStorage s' = localStorage s
    /\ eventos_nuevos s s'
       = [EvConstruir true; EvFetchVersion; EvFetchTree;
          EvNotificar AvisoError].
Proof.
  intros Hcaido Hno.
  unfold construirIndiceImagenes, try_catch, bind at 1, emit at 1.
  set (s1 := mkState (imagenIndex s) (aliasIndex s) (driveTreeVersion s)
                     (localStorage s) (tick s)
                     (trace s ++ [EvConstruir true])%list).
  destruct (obtener_version_devuelve env s1) as (v & Ev).
  unfold construir_cuerpo, bind at 1. rewrite Ev.
  unfold bind at 1, get at 1. cbn [negb andb].
  unfold bind at 1, ret at 1.
  unfold bind at 1, _descargarYConstruirIndice, bind at 1,
    fetch_drive_tree, bind at 1, get at 1, bind at 1, emit at 1, ret at 1.
  cbn [tick tras_consulta s1].
  specialize (Hcaido (S (tick s))).
  assert (Hthrow : exists e,
             (match fetch_tree env (S (tick s)) with
              | Rejected => throw NetworkError
              | Replied ok status body =>
                  if negb ok then throw (HttpError status)
                  else match body with
                       | None => throw SyntaxError
                       | Some driveData => ret (construir driveData)
                       end
              end : M Construido) = throw e).
  { destruct (fetch_tree env (S (tick s))) as [|[] st [dd|]]; cbn [negb];
      try contradiction; eauto. }
  destruct Hthrow as (e & ->). unfold throw at 1.
  unfold construir_rescate, bind at 1.
  rewrite fallback_sin_candidatos by exact Hno.
  unfold bind, mostrarNotificacion, emit, ret.
  exists e. eexists. split; [reflexivity|].
  unfold eventos_nuevos. cbn [imagenIndex aliasIndex driveTreeVersion
                              localStorage trace tras_consulta s1].
  repeat split.
  rewrite <- !app_assoc. rewrite skipn_app, skipn_all, Nat.sub_diag.
  reflexivity.
Qed.

(** The index of scenario A in memory, the server gone, nothing stored. *)
Lemma X6_failed_forced_build_keeps_index_witness :
  let env := mundo_sin_arbol "v2" in
  let s := mkState [("i-01-002-03", [mkEntry None "u1" None])] []
                   (Some "v1") [("theme", StOther "dark")] 0 [] in
  exists e s',
    construirIndiceImagenes env true s = (Ret (res_error e), s')
    /\ imagenIndex s' = imagenIndex s
    /\ aliasIndex s' = aliasIndex s
    /\ driveTreeVersion s' = driveTreeVersion s
    /\ localStorage s' = localStorage s
    /\ eventos_nuevos s s'
       = [EvConstruir true; EvFetchVersion; EvFetchTree;
          EvNotificar AvisoError].
Proof.
  intros env s. apply (X6_failed_forced_build_keeps_index env s).
  - intros n. exact I.
  - intros k [<-|[]]. reflexivity.
Defined.

Lemma obtener_version_valor env s :
  obtener_version env s
  = (Ret (version_leida (fetch_version env (tick s))), tras_consulta s).
Proof.
  unfold obtener_version, try_catch, bind, fetch_drive_tree_version, get,
    emit, ret, throw, tras_consulta, version_leida. simpl.
  destruct (fetch_version env (tick s)) as [|[] st [d|]]; simpl;
    try reflexivity.
  destruct (Js.or_else (Js.or_else (v_version d) (v_lastModified d))
                       (Some "unknown")); reflexivity.
Qed.

(** X7.  An unforced build that finds in memory a non-empty index held
    for the version the server now reports (['unknown'] included, when the
    version endpoint gives no token) answers
    [{success: true, fromCache: true}] from memory: it asks the version
    endpoint and nothing else, reads no storage, and changes neither maps
    nor version. *)
Theorem X7_memory_shortcut env s :
  imagenIndex s <> [] ->
  driveTreeVersion s = Some (version_leida (fetch_version env (tick s))) ->
  construirIndiceImagenes env false s
  = (Ret res_en_cache, tras_version false s).
Proof.
  intros Hidx Hv.
  unfold construirIndiceImagenes, try_catch, bind at 1, emit at 1.
  unfold construir_cuerpo, bind at 1. rewrite obtener_version_valor.
  cbn [tick tras_consulta imagenIndex driveTreeVersion].
  unfold bind at 1, get at 1.
  cbn [negb andb imagenIndex driveTreeVersion tras_consulta]. rewrite Hv.
  replace (opt_string_eqb _ _) with true
    by (symmetry; now apply opt_string_eqb_iff).
  replace (0 <? map_size (imagenIndex s)) with true
    by (destruct (imagenIndex s); [contradiction|reflexivity]).
  unfold ret, tras_version, tras_consulta.
  cbn [andb imagenIndex aliasIndex driveTreeVersion localStorage tick trace].
  now rewrite <- Hv, <- app_assoc.
Qed.

(** The index of scenario A, asked to build again while the server still
    reports ["v1"]. *)
Lemma X7_memory_shortcut_witness :
  construirIndiceImagenes Ejemplo.mundo_plaza false
                          (Ejemplo.tras_construir Ejemplo.mundo_plaza)
  = (Ret res_en_cache,
     tras_version false (Ejemplo.tras_construir Ejemplo.mundo_plaza)).
Proof.
  apply (X7_memory_shortcut Ejemplo.mundo_plaza
           (Ejemplo.tras_construir Ejemplo.mundo_plaza)).
  - vm_compute; discriminate.
  - vm_compute; reflexivity.
Defined.

(** X8.  A build made while the version is ['unknown'] (the version
    endpoint gave no token) neither reads nor writes the storage: when the
    tree arrives it answers [{success: true, fromCache: false}], installs
    the index and the alias map of the tree under the version ['unknown'],
    and leaves the storage as it was.  (An unforced build gets this far
    unless a non-empty index is already held for ['unknown'].) *)
Theorem X8_unknown_version_is_not_stored env forzar s st driveData :
  version_leida (fetch_version env (tick s)) = "unknown" ->
  fetch_tree env (S (tick s)) = Replied true st (Some driveData) ->
  forzar = true \/ driveTreeVersion s <> Some "unknown"
  \/ imagenIndex s = [] ->
  construirIndiceImagenes env forzar s
  = (Ret (res_construido (totalCarpetas (construir driveData))
                         (totalArchivos (construir driveData))),
     mkState (nuevoIndice (construir driveData))
             (nuevoAlias (construir driveData))
             (Some "unknown") (localStorage s) (S (S (tick s)))
             (trace s ++ [EvConstruir forzar; EvFetchVersion; EvFetchTree;
                          EvNotificar
                            (AvisoActualizado
                               (totalCarpetas (construir driveData)))])%list).
Proof.
  intros Hv Hf Hcaso.
  unfold construirIndiceImagenes, try_catch, bind at 1, emit at 1.
  unfold construir_cuerpo, bind at 1. rewrite obtener_version_valor.
  cbn [tick tras_consulta imagenIndex driveTreeVersion]. rewrite Hv.
  unfold bind at 1, get at 1.
  cbn [imagenIndex driveTreeVersion tras_consulta].
  assert (Hcond : negb forzar
                  && opt_string_eqb (driveTreeVersion s) (Some "unknown")
                  && (0 <? map_size (imagenIndex s)) = false).
  { destruct Hcaso as [->|[Hd|Hi]]; [reflexivity| |].
    - destruct (opt_string_eqb (driveTreeVersion s) (Some "unknown")) eqn:E.
      + apply opt_string_eqb_iff in E. contradiction.
      + now rewrite andb_false_r.
    - rewrite Hi. now rewrite andb_false_r. }
  rewrite Hcond.
  replace (negb forzar && negb (String.eqb "unknown" "unknown"))
    with false by (now rewrite andb_false_r).
  unfold bind at 1, ret at 1.
  unfold bind at 1, _descargarYConstruirIndice, bind at 1,
    fetch_drive_tree, bind at 1, get at 1, bind at 1, emit at 1, ret at 1.
  cbn [tick tras_consulta imagenIndex aliasIndex driveTreeVersion localStorage
       trace].
  rewrite Hf. cbn [negb].
  unfold _guardarEnCacheLocal. cbn [String.eqb Ascii.eqb Bool.eqb].
  unfold bind, set_imagenIndex, set_aliasIndex, set_driveTreeVersion,
    mostrarNotificacion, emit, ret.
  cbn [imagenIndex aliasIndex driveTreeVersion localStorage tick trace fst
       snd].
  repeat rewrite <- app_assoc. reflexivity.
Qed.

(** The server gives the tree but reports no version. *)
Lemma X8_unknown_version_is_not_stored_witness :
  let env := mkEnv (fun _ => Rejected)
                   (fun _ => Replied true 200 (Some Ejemplo.arbol_plaza))
                   (fun _ _ => Rejected) (fun _ => 0%Z)
                   (fun _ _ _ => true) in
  localStorage (snd (construirIndiceImagenes env false Ejemplo.inicial)) = []
  /\ driveTreeVersion (snd (construirIndiceImagenes env false Ejemplo.inicial))
     = Some "unknown".
Proof.
  intros env.
  rewrite (X8_unknown_version_is_not_stored env false Ejemplo.inicial 200
             Ejemplo.arbol_plaza eq_refl eq_refl
             (or_intror (or_intror eq_refl))).
  split; reflexivity.
Defined.

(* ------------------------------------------------------------------ *)
(** ** Counters and entries of the builder *)

Section MapSet.

Context {V : Type}.

Lemma map_set_In (m : JsMap V) k v k' v' :
  In (k', v') (map_set m k v) -> (k' = k /\ v' = v) \/ In (k', v') m.
Proof.
  induction m as [|[k0 v0] r IH]; simpl.
  - intros [[= <- <-]|[]]. now left.
  - destruct (String.eqb_spec k0 k) as [->|Hne]; simpl.
    + intros [[= <- <-]|H]; [now left|right; now right].
    + intros [H|H]; [right; now left|].
      destruct (IH H) as [H1|H1]; [now left|right; now right].
Qed.

Lemma map_set_keys_In (m : JsMap V) k v k' :
  In k' (map fst (map_set m k v)) <-> k' = k \/ In k' (map fst m).
Proof.
  induction m as [|[k0 v0] r IH]; simpl.
  - split; [intros [<-|[]]; now left|intros [->|[]]; now left].
  - destruct (String.eqb_spec k0 k) as [->|Hne]; simpl.
    + split; [intros [<-|H]; auto|intros [->|[<-|H]]; auto].
    + rewrite IH. split; [intros [<-|[->|H]]; auto|intros [->|[<-|H]]; auto].
Qed.

Lemma map_set_NoDup (m : JsMap V) k v :
  NoDup (map fst m) -> NoDup (map fst (map_set m k v)).
Proof.
  induction m as [|[k0 v0] r IH]; simpl; intros Hnd.
  - constructor; [intros []|constructor].
  - inversion Hnd as [|? ? Hnotin Hr]; subst.
    destruct (String.eqb_spec k0 k) as [->|Hne]; simpl.
    + now constructor.
    + constructor; [|now apply IH].
      rewrite map_set_keys_In. intros [->|H]; contradiction.
Qed.

Lemma map_set_size (m : JsMap V) k v :
  map_size (map_set m k v) <= S (map_size m).
Proof.
  unfold map_size. induction m as [|[k0 v0] r IH]; simpl; [lia|].
  destruct (String.eqb k0 k); simpl; lia.
Qed.

End MapSet.

Lemma map_set_total_imagenes idx k l :
  total_imagenes (map_set idx k l) <= total_imagenes idx + List.length l.
Proof.
  induction idx as [|[k0 l0] r IH]; simpl; [lia|].
  destruct (String.eqb k0 k); simpl; lia.
Qed.

(** One file adds to the list and to the counter alike. *)
Lemma procesar_item_paso a0 t0 it :
  procesar_item (a0, t0) it
  = ((a0 ++ fst (procesar_item ([], 0) it))%list,
     t0 + List.length (fst (procesar_item ([], 0) it)))
  /\ procesar_item ([], 0) it
     = (fst (procesar_item ([], 0) it),
        List.length (fst (procesar_item ([], 0) it))).
Proof.
  unfold procesar_item.
  destruct (it_mediumUrl it ?? it_thumbnailUrl it ?? it_directUrl it
              ?? match it_i it ?? it_id it with
                 | Some f => if Js.truthy f then Some (_driveUrl f)
                             else None
                 | None => None
                 end) as [u|]; simpl.
  - destruct (Js.truthy_opt (it_i it ?? it_id it) && Js.truthy u);
      simpl; rewrite ?app_nil_r, ?Nat.add_0_r, ?Nat.add_1_r; auto.
  - rewrite app_nil_r, Nat.add_0_r. auto.
Qed.

(** The loop over the files of a folder adds to the list and to the
    counter alike. *)
Lemma procesar_items_cuenta items :
  forall a0 t0,
    fold_left procesar_item items (a0, t0)
    = ((a0 ++ archivos_de items)%list,
       t0 + List.length (archivos_de items)).
Proof.
  unfold archivos_de.
  induction items as [|it items IH]; intros a0 t0; cbn [fold_left].
  - cbn [fst List.length]. now rewrite app_nil_r, Nat.add_0_r.
  - destruct (procesar_item_paso a0 t0 it) as [E1 _].
    destruct (procesar_item_paso [] 0 it) as [_ E2].
    rewrite E1, E2, IH.
    rewrite (IH (fst (procesar_item ([], 0) it))). cbn [fst].
    rewrite length_app, <- app_assoc. f_equal. lia.
Qed.

Lemma archivos_de_urls items e :
  In e (archivos_de items) -> e_url e <> "".
Proof.
  unfold archivos_de.
  assert (H : forall a0 t0,
             (forall x, In x a0 -> e_url x <> "") ->
             forall x, In x (fst (fold_left procesar_item items (a0, t0))) ->
                       e_url x <> "").
  { induction items as [|it items IH]; intros a0 t0 Ha; cbn [fold_left];
      [exact Ha|].
    destruct (procesar_item (a0, t0) it) as [a1 t1] eqn:E.
    apply IH. revert E. unfold procesar_item.
    destruct (it_mediumUrl it ?? it_thumbnailUrl it ?? it_directUrl it
                ?? match it_i it ?? it_id it with
                   | Some f => if Js.truthy f then Some (_driveUrl f)
                               else None
                   | None => None
                   end) as [u|]; [|now intros [= <- <-]].
    destruct (Js.truthy_opt (it_i it ?? it_id it)); cbn [andb];
      [|now intros [= <- <-]].
    destruct (Js.truthy u) eqn:Hu; intros [= <- <-]; [|exact Ha].
    intros x Hx. apply in_app_or in Hx. destruct Hx as [Hx|[<-|[]]]; auto.
    simpl. now apply truthy_true_iff. }
  apply (H [] 0). intros x [].
Qed.

Lemma procesar_carpeta_bien_contado b carpeta :
  bien_contado b -> bien_contado (procesar_carpeta b carpeta).
Proof.
  intros (Hk & Ha & Hs & Hsa & Ht & Hu). unfold procesar_carpeta.
  destruct (c_children carpeta) as [[|it items]|];
    try (repeat split; assumption).
  destruct (Js.truthy (clave_de_carpeta carpeta)); cbn [negb];
    [|repeat split; assumption].
  rewrite procesar_items_cuenta. cbn [app].
  destruct (0 <? List.length (archivos_de (it :: items))) eqn:Hlen.
  - repeat split; cbn [nuevoIndice nuevoAlias totalCarpetas totalArchivos].
    + now apply map_set_NoDup.
    + destruct (c_alias carpeta) as [al|]; [|assumption].
      destruct (Js.truthy al); [now apply map_set_NoDup|assumption].
    + pose proof (map_set_size (nuevoIndice b) (clave_de_carpeta carpeta)
                    (archivos_de (it :: items))). lia.
    + destruct (c_alias carpeta) as [al|]; [|lia].
      destruct (Js.truthy al); [|lia].
      pose proof (map_set_size (nuevoAlias b) (Js.toLowerCase al)
                    (clave_de_carpeta carpeta)). lia.
    + pose proof (map_set_total_imagenes (nuevoIndice b)
                    (clave_de_carpeta carpeta) (archivos_de (it :: items))).
      lia.
    + intros k l e Hin He. apply map_set_In in Hin.
      destruct Hin as [[_ ->]|Hin]; [|now apply (Hu k l e)].
      now apply archivos_de_urls with (items := it :: items).
  - repeat split; cbn [nuevoIndice nuevoAlias totalCarpetas totalArchivos];
      try assumption; lia.
Qed.

Lemma fold_bien_contado {X} (f : Construido -> X -> Construido) :
  (forall b x, bien_contado b -> bien_contado (f b x)) ->
  forall l b, bien_contado b -> bien_contado (fold_left f l b).
Proof.
  intros Hf l. induction l as [|x r IH]; simpl; intros b Hb; auto.
Qed.

Lemma construir_bien_contado driveData : bien_contado (construir driveData).
Proof.
  unfold construir. apply fold_bien_contado.
  - intros b nodo Hb. unfold procesar_nodo.
    destruct (ne_children nodo); [|exact Hb].
    apply fold_bien_contado; auto using procesar_carpeta_bien_contado.
  - unfold bien_contado, construido_vacio, map_size. simpl.
    split; [constructor|]. split; [constructor|].
    split; [lia|]. split; [lia|]. split; [lia|]. intros k l e [].
Qed.

(** X9.  When a build answers that its index is not from a cache, the
    counters it reports bound what is then held: [getIndiceSize] gives at
    most [carpetas], the alias map has at most [carpetas] aliases, and the
    entries of the index are at most [archivos]. *)
Theorem X9_counters_bound_the_index env forzar s r s' :
  construirIndiceImagenes env forzar s = (Ret r, s') ->
  fromCache r = Some false ->
  exists c a n,
    stats r = Some (c, a)
    /\ getIndiceSize s' = (Ret n, s')
    /\ n <= c
    /\ map_size (aliasIndex s') <= c
    /\ total_imagenes (imagenIndex s') <= a.
Proof.
  intros E Hf.
  destruct (construirIndiceImagenes_devuelve env forzar s)
    as (r0 & s0 & E0 & Hinst).
  rewrite E in E0. injection E0 as <- <-.
  destruct (Hinst Hf) as (driveData & -> & Hi & Ha).
  destruct (construir_bien_contado driveData)
    as (_ & _ & Hs & Hsa & Ht & _).
  exists (totalCarpetas (construir driveData)),
         (totalArchivos (construir driveData)),
         (map_size (imagenIndex s')).
  split; [reflexivity|]. split; [reflexivity|].
  rewrite Hi, Ha. auto.
Qed.

Lemma X9_counters_bound_the_index_witness :
  let s' := Ejemplo.tras_construir Ejemplo.mundo_plaza in
  exists c a n,
    stats (res_construido 1 2) = Some (c, a)
    /\ getIndiceSize s' = (Ret n, s')
    /\ n <= c
    /\ map_size (aliasIndex s') <= c
    /\ total_imagenes (imagenIndex s') <= a.
Proof.
  intros s'.
  apply (X9_counters_bound_the_index Ejemplo.mundo_plaza false
           Ejemplo.inicial (res_construido 1 2) s').
  - vm_compute; reflexivity.
  - reflexivity.
Defined.

(** X10.  No entry of a built index has an empty URL. *)
Theorem X10_built_urls_not_empty driveData k l e :
  map_get (nuevoIndice (construir driveData)) k = Some l ->
  In e l -> Js.truthy (e_url e) = true.
Proof.
  intros Hget He. apply truthy_true_iff.
  destruct (construir_bien_contado driveData) as (_ & _ & _ & _ & _ & Hu).
  apply (Hu k l e); [now apply map_get_In|exact He].
Qed.

Lemma X10_built_urls_not_empty_witness :
  Js.truthy (_driveUrl "f1") = true.
Proof.
  apply (X10_built_urls_not_empty Ejemplo.arbol_plaza "i-01-002-03"
           (archivos_de [Ejemplo.archivo "f1"; Ejemplo.archivo "f2"])
           (mkEntry None (_driveUrl "f1") None)).
  - vm_compute; reflexivity.
  - left; reflexivity.
Defined.

(* ------------------------------------------------------------------ *)
(** ** Which folder a key leads to *)

Lemma ultimo_cons {A} (x : A) l :
  ultimo (x :: l) = match ultimo l with Some y => Some y | None => Some x end.
Proof.
  unfold ultimo. simpl. destruct (rev l) as [|y r]; reflexivity.
Qed.

Lemma construir_carpetas driveData :
  construir driveData
  = fold_left procesar_carpeta (carpetas_de driveData) construido_vacio.
Proof.
  unfold construir, carpetas_de.
  generalize construido_vacio.
  induction (match dd_children driveData with Some l => l | None => [] end)
    as [|nodo r IH]; intros b; simpl; [reflexivity|].
  rewrite fold_left_app, IH. f_equal. unfold procesar_nodo.
  destruct (ne_children nodo); reflexivity.
Qed.

(** What one folder does to the two maps. *)
Lemma procesar_carpeta_mapas b carpeta :
  nuevoIndice (procesar_carpeta b carpeta)
  = (if aporta carpeta
     then map_set (nuevoIndice b) (clave_de_carpeta carpeta)
                  (archivos_de_carpeta carpeta)
     else nuevoIndice b)
  /\ nuevoAlias (procesar_carpeta b carpeta)
     = (if aporta carpeta
        then match c_alias carpeta with
             | Some al =>
                 if Js.truthy al
                 then map_set (nuevoAlias b) (Js.toLowerCase al)
                              (clave_de_carpeta carpeta)
                 else nuevoAlias b
             | None => nuevoAlias b
             end
        else nuevoAlias b).
Proof.
  unfold procesar_carpeta, aporta, archivos_de_carpeta.
  destruct (c_children carpeta) as [[|it items]|].
  - rewrite andb_false_r. auto.
  - destruct (Js.truthy (clave_de_carpeta carpeta)); cbn [negb andb]; auto.
    rewrite procesar_items_cuenta. cbn [app].
    destruct (0 <? List.length (archivos_de (it :: items))); auto.
  - rewrite andb_false_r. auto.
Qed.

Lemma indice_de_carpetas k carpetas :
  forall b,
    map_get (nuevoIndice (fold_left procesar_carpeta carpetas b)) k
    = match ultimo (filter (aporta_clave k) carpetas) with
      | Some c => Some (archivos_de_carpeta c)
      | None => map_get (nuevoIndice b) k
      end.
Proof.
  induction carpetas as [|c r IH]; intros b; cbn [fold_left filter];
    [reflexivity|].
  rewrite IH. destruct (procesar_carpeta_mapas b c) as [-> _].
  unfold aporta_clave at 2.
  destruct (aporta c); cbn [andb].
  - destruct (String.eqb_spec (clave_de_carpeta c) k) as [<-|Hne].
    + rewrite ultimo_cons, map_get_set_same.
      now destruct (ultimo (filter _ r)).
    + now rewrite map_get_set_other.
  - reflexivity.
Qed.

Lemma alias_de_carpetas a carpetas :
  forall b,
    map_get (nuevoAlias (fold_left procesar_carpeta carpetas b)) a
    = match ultimo (filter (aporta_alias a) carpetas) with
      | Some c => Some (clave_de_carpeta c)
      | None => map_get (nuevoAlias b) a
      end.
Proof.
  induction carpetas as [|c r IH]; intros b; cbn [fold_left filter];
    [reflexivity|].
  rewrite IH. destruct (procesar_carpeta_mapas b c) as [_ ->].
  unfold aporta_alias at 2.
  destruct (aporta c); cbn [andb]; [|reflexivity].
  destruct (c_alias c) as [al|]; [|reflexivity].
  destruct (Js.truthy al); cbn [andb]; [|reflexivity].
  destruct (String.eqb_spec (Js.toLowerCase al) a) as [<-|Hne].
  - rewrite ultimo_cons, map_get_set_same.
    now destruct (ultimo (filter _ r)).
  - now rewrite map_get_set_other.
Qed.

(** X11.  A key of a built index leads to the files of the last folder of
    the tree, in document order and across states, that is filed under that
    key; earlier folders with the same key are dropped, and a key no folder
    is filed under is absent.  An alias leads in the same way to the key of
    the last filed folder that carries it. *)
Theorem X11_last_folder_wins driveData :
  (forall k,
      map_get (nuevoIndice (construir driveData)) k
      = option_map archivos_de_carpeta
          (ultimo (filter (aporta_clave k) (carpetas_de driveData))))
  /\ (forall a,
        map_get (nuevoAlias (construir driveData)) a
        = option_map clave_de_carpeta
            (ultimo (filter (aporta_alias a) (carpetas_de driveData)))).
Proof.
  rewrite construir_carpetas. split.
  - intros k. rewrite indice_de_carpetas.
    now destruct (ultimo (filter _ _)).
  - intros a. rewrite alias_de_carpetas.
    now destruct (ultimo (filter _ _)).
Qed.

(* ------------------------------------------------------------------ *)
(** ** The request cache of utils.js *)

(** X12.  After a request that succeeded, the next call for the same URL is
    answered from the cache, with the same data and without a request,
    exactly when the data is truthy, the time of the request was not [0]
    and less than five minutes have passed; otherwise it asks again. *)
Theorem X12_fetch_then_refetch {D} (es_truthy : D -> bool)
    (propiedad_error : D -> option (option string))
    (t0 t1 : Z) (status : nat) (data : D) (respuesta : Response D)
    (url : string) (e : Utils.Estado D) :
  Utils.servido_de_cache D es_truthy t0 url e = None ->
  let primera :=
    Utils.fetchData D es_truthy propiedad_error t0
      (Replied true status (Some data)) url e in
  fst primera = inl data
  /\ Utils.pedidos (snd primera) = (Utils.pedidos e ++ [url])%list
  /\ Utils.fetchData D es_truthy propiedad_error t1 respuesta url
       (snd primera)
     = if es_truthy data && negb (t0 =? 0)%Z
          && (t1 - t0 <? Utils.CACHE_TTL)%Z
       then (inl data, snd primera)
       else Utils.pedir D propiedad_error t1 respuesta url (snd primera).
Proof.
  intros Hno primera.
  assert (E : primera
              = (inl data,
                 Utils.mkEstado (map_set (Utils.cache e) url data)
                                (map_set (Utils.cacheTimers e) url t0)
                                (Utils.pedidos e ++ [url])%list)).
  { subst primera. unfold Utils.fetchData. now rewrite Hno. }
  rewrite E. cbn [fst snd Utils.pedidos].
  split; [reflexivity|]. split; [reflexivity|].
  unfold Utils.fetchData, Utils.servido_de_cache.
  cbn [Utils.cache Utils.cacheTimers].
  rewrite !map_get_set_same.
  destruct (es_truthy data && negb (t0 =? 0)%Z
            && (t1 - t0 <? Utils.CACHE_TTL)%Z); reflexivity.
Qed.

Lemma X12_fetch_then_refetch_witness :
  let e := Utils.mkEstado [] [] [] in
  let primera :=
    Utils.fetchData string Js.truthy (fun _ => Some None) 1000
      (Replied true 200 (Some "datos")) "/api/plazas" e in
  fst primera = inl "datos"
  /\ Utils.pedidos (snd primera) = ["/api/plazas"]
  /\ Utils.fetchData string Js.truthy (fun _ => Some None) 300999 Rejected
       "/api/plazas" (snd primera)
     = (inl "datos", snd primera).
Proof.
  intros e.
  apply (X12_fetch_then_refetch Js.truthy (fun _ => Some None) 1000 300999
           200 "datos" Rejected "/api/plazas" e).
  reflexivity.
Defined.

(** X13.  A call for one URL does not change what the cache serves for
    another URL. *)
Theorem X13_urls_are_independent {D} (es_truthy : D -> bool)
    (propiedad_error : D -> option (option string))
    (now now' : Z) (respuesta : Response D) (url url' : string)
    (e : Utils.Estado D) :
  url' <> url ->
  Utils.servido_de_cache D es_truthy now url
    (snd (Utils.fetchData D es_truthy propiedad_error now' respuesta url' e))
  = Utils.servido_de_cache D es_truthy now url e.
Proof.
  intros Hne. unfold Utils.fetchData.
  destruct (Utils.servido_de_cache D es_truthy now' url' e); [reflexivity|].
  unfold Utils.pedir.
  destruct respuesta as [|ok status body]; [reflexivity|].
  destruct ok; cbn [negb].
  - destruct body as [data|]; [|reflexivity].
    unfold Utils.servido_de_cache. cbn [snd Utils.cache Utils.cacheTimers].
    now rewrite !map_get_set_other.
  - destruct body as [err|]; [|reflexivity].
    destruct (propiedad_error err) as [[m|]|]; reflexivity.
Qed.

Lemma X13_urls_are_independent_witness :
  Utils.servido_de_cache string Js.truthy 2000 "/a"
    (snd (Utils.fetchData string Js.truthy (fun _ => Some None) 1500
            (Replied true 200 (Some "b")) "/b"
            (Utils.mkEstado [("/a", "a")] [("/a", 1000%Z)] [])))
  = Utils.servido_de_cache string Js.truthy 2000 "/a"
      (Utils.mkEstado [("/a", "a")] [("/a", 1000%Z)] []).
Proof.
  apply (X13_urls_are_independent Js.truthy (fun _ => Some None) 2000 1500
           (Replied true 200 (Some "b")) "/a" "/b").
  intros E; discriminate E.
Defined.

(** X14.  A call that throws has made exactly one request and has changed
    neither the cached data nor the cached times: a stale entry is not
    served, and it is not removed either. *)
Theorem X14_failed_fetch_keeps_cache {D} (es_truthy : D -> bool)
    (propiedad_error : D -> option (option string))
    (now : Z) (respuesta : Response D) (url : string)
    (e e' : Utils.Estado D) (err : Utils.Error) :
  Utils.fetchData D es_truthy propiedad_error now respuesta url e
    = (inr err, e') ->
  Utils.cache e' = Utils.cache e
  /\ Utils.cacheTimers e' = Utils.cacheTimers e
  /\ Utils.pedidos e' = (Utils.pedidos e ++ [url])%list
  /\ Utils.servido_de_cache D es_truthy now url e = None.
Proof.
  unfold Utils.fetchData.
  destruct (Utils.servido_de_cache D es_truthy now url e);
    [intros E; discriminate E|].
  unfold Utils.pedir.
  destruct respuesta as [|ok status body].
  - intros [= <- <-]. auto.
  - destruct ok; cbn [negb].
    + destruct body as [data|]; [intros E; discriminate E|].
      intros [= <- <-]. auto.
    + destruct body as [er|].
      * destruct (propiedad_error er) as [[m|]|]; intros [= <- <-]; auto.
      * intros [= <- <-]. auto.
Qed.

Lemma X14_failed_fetch_keeps_cache_witness :
  let e := Utils.mkEstado [("/a", "viejo")] [("/a", 1000%Z)] [] in
  let e' := Utils.mkEstado [("/a", "viejo")] [("/a", 1000%Z)] ["/a"] in
  Utils.cache e' = Utils.cache e
  /\ Utils.cacheTimers e' = Utils.cacheTimers e
  /\ Utils.pedidos e' = (Utils.pedidos e ++ ["/a"])%list
  /\ Utils.servido_de_cache string Js.truthy 301000 "/a" e = None.
Proof.
  intros e e'.
  apply (X14_failed_fetch_keeps_cache Js.truthy (fun _ => Some None) 301000
           (Replied false 503 None) "/a" e e'
           (Utils.ErrorHttp "Error 503")).
  vm_compute; reflexivity.
Defined.

(* ------------------------------------------------------------------ *)
(** ** The periodic check *)

(** X15.  The check the timer runs never throws, and it asks the version
    endpoint first.  When that request brings no non-empty token other than
    the version held, it does nothing else: the state is as before but for
    the request.  Otherwise it makes one build, a forced one, from the
    state the request left, and, exactly when the build answers
    [success], shows its own notification last, after whatever the build
    has shown, with the first eight characters of the token that request
    read.  Every build in the run is forced, and there is at most one. *)
Theorem X15_periodic_check env s :
  exists s' evs,
    verificacion_automatica env s = (Ret tt, s')
    /\ trace s' = (trace s ++ EvFetchVersion :: evs)%list
    /\ construcciones evs = forzadas evs
    /\ forzadas evs <= 1
    /\ (forzadas evs = 0 -> s' = tras_consulta s)
    /\ (forall st d v,
          fetch_version env (tick s) = Replied true st (Some d) ->
          Js.or_else (v_version d) (v_lastModified d) = Some v ->
          v <> "" -> driveTreeVersion s <> Some v ->
          forzadas evs = 1)
    /\ (forzadas evs = 1 ->
        exists st d v r s2,
          fetch_version env (tick s) = Replied true st (Some d)
          /\ Js.or_else (v_version d) (v_lastModified d) = Some v
          /\ v <> "" /\ driveTreeVersion s <> Some v
          /\ construirIndiceImagenes env true (tras_consulta s) = (Ret r, s2)
          /\ s' = if success r
                  then notificado s2
                         (AvisoIndiceActualizado
                            (Some (substring_desde_0 8 v)))
                  else s2).
Proof.
  destruct (verificar_devuelve env s) as (act & Ev & Hact).
  unfold verificacion_automatica, try_catch, bind at 1. rewrite Ev.
  destruct (necesitaActualizar act) eqn:Hn.
  - destruct (Hact eq_refl) as (st & d & v & Hf & Hv & Hnv & Hne & Hd).
    destruct (construirIndiceImagenes_devuelve env true (tras_consulta s))
      as (r & s2 & E & _).
    destruct (traza_construir env true (tras_consulta s))
      as (evs & Ht & Hev).
    rewrite E in Ht. cbn [snd] in Ht.
    destruct (sin_construir_cuenta evs Hev) as [Hc Hz].
    unfold bind. rewrite E. rewrite Hnv. cbn [option_map].
    set (a := AvisoIndiceActualizado (Some (substring_desde_0 8 v))).
    set (fin := if success r then [EvNotificar a] else []).
    assert (Hfin : construcciones fin = 0 /\ forzadas fin = 0)
      by (unfold fin; destruct (success r); split; reflexivity).
    destruct Hfin as [Hcf Hff].
    assert (Hcount : construcciones ((EvConstruir true :: evs) ++ fin) = 1
                     /\ forzadas ((EvConstruir true :: evs) ++ fin) = 1).
    { rewrite construcciones_app, forzadas_app, Hcf, Hff.
      change (EvConstruir true :: evs)
        with ([EvConstruir true] ++ evs)%list.
      rewrite construcciones_app, forzadas_app, Hc, Hz. auto. }
    destruct Hcount as [Hc1 Hf1].
    exists (if success r then notificado s2 a else s2),
           ((EvConstruir true :: evs) ++ fin)%list.
    split.
    { destruct (success r); reflexivity. }
    split.
    { unfold fin. destruct (success r); unfold notificado; cbn [trace];
        rewrite Ht; unfold tras_consulta; cbn [trace];
        repeat rewrite <- app_assoc; rewrite ?app_nil_r; reflexivity. }
    rewrite Hc1, Hf1.
    split; [reflexivity|]. split; [lia|].
    split; [intros H0; discriminate H0|].
    split; [reflexivity|].
    intros _. exists st, d, v, r, s2. auto 10.
  - exists (tras_consulta s), [].
    split; [reflexivity|].
    split; [reflexivity|].
    split; [reflexivity|].
    split; [unfold forzadas; simpl; lia|].
    split; [reflexivity|].
    split.
    + intros st d v Hf Hv Hne Hd.
      rewrite (verificar_cambio env s st d v Hf Hv Hne Hd) in Ev.
      injection Ev as <-. discriminate Hn.
    + unfold forzadas. simpl. intros H0; discriminate H0.
Qed.

(* ------------------------------------------------------------------ *)
(** ** The cache in [localStorage] *)

(** The cleanup loop changes the storage only, as [limpieza] says. *)
Lemma limpiar_limpieza ahora n :
  forall i a v ls t tr,
    limpiar ahora n (mkState i a v ls t tr)
    = (Ret tt, mkState i a v (limpieza ahora ls n) t tr).
Proof.
  induction n as [|n IH]; intros i a v ls t tr; [reflexivity|].
  cbn [limpiar limpieza]. unfold bind at 1, get at 1.
  cbn [localStorage]. unfold paso_limpieza, caducado.
  destruct (ls_key ls n) as [key|]; [|unfold bind, ret; apply IH].
  destruct (Js.startsWith key CACHE_META_PREFIX); cbn [andb];
    [|unfold bind at 1, ret at 1; rewrite IH;
      now destruct (ls_getItem ls key)].
  unfold bind at 1, try_catch at 1, bind at 1, getItem at 1.
  cbn [localStorage].
  destruct (ls_getItem ls key) as [[l|l|m|raw]|];
    unfold bind at 1, JSON_parse_meta; cbv beta iota.
  - unfold throw, ret. apply IH.
  - unfold throw, ret. apply IH.
  - unfold ret at 1. cbn [timestamp].
    destruct (TTL_LIMPIEZA_MS <? ahora - timestamp m)%Z.
    + unfold removeItem, bind, get, set_localStorage.
      cbn [localStorage imagenIndex aliasIndex driveTreeVersion tick trace].
      apply IH.
    + unfold ret at 1. apply IH.
  - unfold throw, ret. apply IH.
  - unfold throw, ret. apply IH.
Qed.

Lemma paso_limpieza_nada ahora ls i :
  nada_caducado ahora ls -> paso_limpieza ahora ls i = ls.
Proof.
  intros Hn. unfold paso_limpieza.
  destruct (ls_key ls i) as [key|]; [|reflexivity].
  destruct (ls_getItem ls key) as [v|] eqn:E; [|reflexivity].
  apply map_get_In in E. now rewrite (Hn key v E).
Qed.

Lemma limpieza_nada ahora ls n :
  nada_caducado ahora ls -> limpieza ahora ls n = ls.
Proof.
  intros Hn. induction n as [|n IH]; [reflexivity|].
  cbn [limpieza]. now rewrite paso_limpieza_nada.
Qed.

(** The three keys of a version are three keys. *)
Lemma clave_indice_alias v :
  CACHE_PREFIX ++ v <> CACHE_PREFIX ++ "alias_" ++ v.
Proof.
  intros E. apply (f_equal String.length) in E.
  rewrite !length_append in E. simpl in E. lia.
Qed.

Lemma clave_indice_meta v w : CACHE_PREFIX ++ v <> CACHE_META_PREFIX ++ w.
Proof. unfold CACHE_PREFIX, CACHE_META_PREFIX. simpl. congruence. Qed.

Lemma clave_alias_meta v w :
  CACHE_PREFIX ++ "alias_" ++ v <> CACHE_META_PREFIX ++ w.
Proof. unfold CACHE_PREFIX, CACHE_META_PREFIX. simpl. congruence. Qed.

Lemma con_version_lee ls v idx al m :
  ls_getItem (con_version ls v idx al m) (CACHE_PREFIX ++ v)
    = Some (StIndex idx)
  /\ ls_getItem (con_version ls v idx al m) (CACHE_PREFIX ++ "alias_" ++ v)
     = Some (StAlias al)
  /\ ls_getItem (con_version ls v idx al m) (CACHE_META_PREFIX ++ v)
     = Some (StMeta m).
Proof.
  unfold con_version, ls_getItem, ls_setItem. repeat split.
  - rewrite map_get_set_other
      by (intros E; symmetry in E; now apply clave_indice_meta in E).
    rewrite map_get_set_other
      by (intros E; symmetry in E; now apply clave_indice_alias in E).
    apply map_get_set_same.
  - rewrite map_get_set_other
      by (intros E; symmetry in E; now apply clave_alias_meta in E).
    apply map_get_set_same.
  - apply map_get_set_same.
Qed.

Lemma con_version_nada_caducado ahora ls v idx al m :
  nada_caducado ahora ls ->
  (ahora - timestamp m <= TTL_LIMPIEZA_MS)%Z ->
  nada_caducado ahora (con_version ls v idx al m).
Proof.
  intros Hn Hm key x Hin. unfold con_version, ls_setItem in Hin.
  apply map_set_In in Hin. destruct Hin as [[-> ->]|Hin].
  { unfold caducado. apply andb_false_iff. right. now apply Z.ltb_ge. }
  apply map_set_In in Hin. destruct Hin as [[-> ->]|Hin].
  { unfold caducado. apply andb_false_r. }
  apply map_set_In in Hin. destruct Hin as [[-> ->]|Hin].
  { unfold caducado. apply andb_false_r. }
  now apply Hn.
Qed.

(** What a save leaves when the storage takes the three writes. *)
Lemma guardar_estado_acepta env v c a s :
  v <> "unknown" ->
  acepta_version env (localStorage s) v (imagenIndex s) (aliasIndex s)
                 (mkMeta (date_now env (tick s)) v c a) ->
  let ls := con_version (localStorage s) v (imagenIndex s) (aliasIndex s)
              (mkMeta (date_now env (tick s)) v c a) in
  _guardarEnCacheLocal env v c a s
  = (Ret tt,
     mkState (imagenIndex s) (aliasIndex s) (driveTreeVersion s)
             (limpieza (date_now env (S (tick s))) ls (List.length ls))
             (S (S (tick s))) (trace s)).
Proof.
  intros Hv (H1 & H2 & H3) ls. unfold _guardarEnCacheLocal.
  destruct (String.eqb_spec v "unknown") as [->|_]; [contradiction|].
  unfold try_catch, bind at 1, get at 1.
  unfold bind at 1, setItem at 1, bind at 1, get at 1. rewrite H1.
  unfold set_localStorage at 1.
  cbn [localStorage imagenIndex aliasIndex driveTreeVersion tick trace].
  unfold bind at 1, setItem at 1, bind at 1, get at 1.
  cbn [localStorage]. rewrite H2.
  unfold set_localStorage at 1.
  cbn [localStorage imagenIndex aliasIndex driveTreeVersion tick trace].
  unfold bind at 1, Date_now at 1.
  cbn [localStorage imagenIndex aliasIndex driveTreeVersion tick trace].
  unfold bind at 1, setItem at 1, bind at 1, get at 1.
  cbn [localStorage]. rewrite H3.
  unfold set_localStorage at 1.
  cbn [localStorage imagenIndex aliasIndex driveTreeVersion tick trace].
  unfold bind at 1, Date_now at 1.
  cbn [localStorage imagenIndex aliasIndex driveTreeVersion tick trace].
  unfold bind at 1, get at 1. cbn [localStorage].
  rewrite limpiar_limpieza. reflexivity.
Qed.

Lemma guardar_estado env v c a s :
  v <> "unknown" -> sin_cuota env ->
  let ls := con_version (localStorage s) v (imagenIndex s) (aliasIndex s)
              (mkMeta (date_now env (tick s)) v c a) in
  _guardarEnCacheLocal env v c a s
  = (Ret tt,
     mkState (imagenIndex s) (aliasIndex s) (driveTreeVersion s)
             (limpieza (date_now env (S (tick s))) ls (List.length ls))
             (S (S (tick s))) (trace s)).
Proof.
  intros Hv Hq. apply guardar_estado_acepta; [exact Hv|].
  repeat split; apply Hq.
Qed.

(** C8 (as amended).  The save has no size ceiling of its own, and the
    build does not depend on it.  Whatever the size of the index, a forced
    build whose tree download succeeds answers
    [{success: true, fromCache: false, stats}] with the whole index and
    alias map of the tree in memory, and its save attempts the writes: what
    is stored depends on the storage alone.  When the storage refuses the
    index payload (its quota is exceeded), the error is swallowed and the
    storage is left as it was.  When the version is not ['unknown'], the
    storage takes the three writes and the cleanup finds no metadata record
    older than it allows, the storage is left with the three records
    written, and the index payload, the alias payload and the metadata
    record can be read back, whole. *)
Theorem C8_no_size_ceiling env s st driveData :
  fetch_tree env (S (tick s)) = Replied true st (Some driveData) ->
  let b := construir driveData in
  let v := version_leida (fetch_version env (tick s)) in
  let m := mkMeta (date_now env (S (S (tick s)))) v
                  (totalCarpetas b) (totalArchivos b) in
  let ahora := date_now env (S (S (S (tick s)))) in
  let escrito :=
    con_version (localStorage s) v (nuevoIndice b) (nuevoAlias b) m in
  exists s',
    construirIndiceImagenes env true s
    = (Ret (res_construido (totalCarpetas b) (totalArchivos b)), s')
    /\ imagenIndex s' = nuevoIndice b
    /\ aliasIndex s' = nuevoAlias b
    /\ driveTreeVersion s' = Some v
    /\ (storage_accepts env (localStorage s) (CACHE_PREFIX ++ v)
                        (StIndex (nuevoIndice b)) = false ->
        localStorage s' = localStorage s)
    /\ (v <> "unknown" ->
        acepta_version env (localStorage s) v (nuevoIndice b) (nuevoAlias b)
                       m ->
        nada_caducado ahora (localStorage s) ->
        (ahora - timestamp m <= TTL_LIMPIEZA_MS)%Z ->
        localStorage s' = escrito
        /\ ls_getItem (localStorage s') (CACHE_PREFIX ++ v)
           = Some (StIndex (nuevoIndice b))
        /\ ls_getItem (localStorage s') (CACHE_PREFIX ++ "alias_" ++ v)
           = Some (StAlias (nuevoAlias b))
        /\ ls_getItem (localStorage s') (CACHE_META_PREFIX ++ v)
           = Some (StMeta m)).
Proof.
  intros Hf b v m ahora escrito.
  unfold construirIndiceImagenes, try_catch, bind at 1, emit at 1.
  unfold construir_cuerpo, bind at 1. rewrite obtener_version_valor.
  cbn [tick tras_consulta imagenIndex driveTreeVersion]. fold v.
  unfold bind at 1, get at 1. cbn [negb andb].
  unfold bind at 1, ret at 1.
  unfold bind at 1, _descargarYConstruirIndice, bind at 1,
    fetch_drive_tree, bind at 1, get at 1, bind at 1, emit at 1, ret at 1.
  cbn [tick tras_consulta imagenIndex aliasIndex driveTreeVersion localStorage
       trace].
  rewrite Hf. cbn [negb]. fold b.
  unfold ret at 1.
  unfold bind at 1, set_imagenIndex at 1.
  unfold bind at 1, set_aliasIndex at 1.
  unfold bind at 1, set_driveTreeVersion at 1.
  cbn [imagenIndex aliasIndex driveTreeVersion localStorage tick trace].
  unfold bind at 1.
  match goal with
  | |- context [_guardarEnCacheLocal env v ?c ?a ?st] =>
      set (s4 := st);
      destruct (guardar_devuelve env v c a s4) as (s5 & Eg & Hq);
      pose proof (guardar_rechazado env v c a s4) as Hrech;
      pose proof (guardar_estado_acepta env v c a s4) as Hacepta
  end.
  rewrite Eg. unfold bind, mostrarNotificacion, emit, ret.
  eexists. split; [reflexivity|].
  destruct Hq as (H1 & H2 & H3 & _).
  cbn [imagenIndex aliasIndex driveTreeVersion localStorage].
  rewrite H1, H2, H3. unfold s4.
  cbn [imagenIndex aliasIndex driveTreeVersion localStorage].
  split; [reflexivity|]. split; [reflexivity|]. split; [reflexivity|].
  split.
  - intros Hno. rewrite (Hrech Hno) in Eg. injection Eg as <-. reflexivity.
  - intros Hv Hok Hn Ht.
    rewrite (Hacepta Hv Hok) in Eg. injection Eg as <-.
    cbn [localStorage imagenIndex aliasIndex tick s4].
    fold m ahora escrito.
    rewrite limpieza_nada
      by (apply con_version_nada_caducado; [exact Hn|exact Ht]).
    split; [reflexivity|]. apply con_version_lee.
Qed.

(** Scenario A: the storage takes the writes and holds the three records
    of version ["v1"] after the build. *)
Lemma C8_no_size_ceiling_witness :
  let env := Ejemplo.mundo_plaza in
  let s := Ejemplo.inicial in
  let b := construir Ejemplo.arbol_plaza in
  let v := version_leida (fetch_version env (tick s)) in
  let m := mkMeta (date_now env (S (S (tick s)))) v
                  (totalCarpetas b) (totalArchivos b) in
  let ahora := date_now env (S (S (S (tick s)))) in
  let escrito :=
    con_version (localStorage s) v (nuevoIndice b) (nuevoAlias b) m in
  exists s',
    construirIndiceImagenes env true s
    = (Ret (res_construido (totalCarpetas b) (totalArchivos b)), s')
    /\ imagenIndex s' = nuevoIndice b
    /\ aliasIndex s' = nuevoAlias b
    /\ driveTreeVersion s' = Some v
    /\ (storage_accepts env (localStorage s) (CACHE_PREFIX ++ v)
                        (StIndex (nuevoIndice b)) = false ->
        localStorage s' = localStorage s)
    /\ (v <> "unknown" ->
        acepta_version env (localStorage s) v (nuevoIndice b) (nuevoAlias b)
                       m ->
        nada_caducado ahora (localStorage s) ->
        (ahora - timestamp m <= TTL_LIMPIEZA_MS)%Z ->
        localStorage s' = escrito
        /\ ls_getItem (localStorage s') (CACHE_PREFIX ++ v)
           = Some (StIndex (nuevoIndice b))
        /\ ls_getItem (localStorage s') (CACHE_PREFIX ++ "alias_" ++ v)
           = Some (StAlias (nuevoAlias b))
        /\ ls_getItem (localStorage s') (CACHE_META_PREFIX ++ v)
           = Some (StMeta m)).
Proof.
  intros env s.
  apply (C8_no_size_ceiling env s 200 Ejemplo.arbol_plaza).
  reflexivity.
Defined.

(** Scenario A: after the build the three records of version ["v1"] are
    in the storage. *)
Lemma C8_no_size_ceiling_example :
  let s' := snd (construirIndiceImagenes Ejemplo.mundo_plaza true
                                         Ejemplo.inicial) in
  map fst (localStorage s')
  = ["imagenIndex_vv1"; "imagenIndex_valias_v1"; "imagenIndex_meta_vv1"]
  /\ ls_getItem (localStorage s') "imagenIndex_vv1"
     = Some (StIndex (nuevoIndice (construir Ejemplo.arbol_plaza))).
Proof. vm_compute. split; reflexivity. Qed.

Lemma map_set_nuevo {V} (m : JsMap V) k v :
  ~ In k (map fst m) -> map_set m k v = (m ++ [(k, v)])%list.
Proof.
  induction m as [|[k0 v0] r IH]; simpl; intros Hn; [reflexivity|].
  destruct (String.eqb_spec k0 k) as [->|_]; [exfalso; auto|].
  rewrite IH; auto.
Qed.

(** [new Map(Array.from(m.entries()))] is [m]. *)
Lemma map_of_entries_entries {V} (m : JsMap V) :
  NoDup (map fst m) -> map_of_entries m = m.
Proof.
  unfold map_of_entries.
  assert (H : forall l acc,
             NoDup (map fst (acc ++ l)) ->
             fold_left (fun (m0 : JsMap V) (kv : string * V) =>
                          map_set m0 (fst kv) (snd kv)) l acc
             = (acc ++ l)%list).
  { induction l as [|[k v] l IH]; intros acc Hnd; simpl.
    - now rewrite app_nil_r.
    - rewrite map_set_nuevo.
      + rewrite IH; rewrite <- app_assoc; [reflexivity|exact Hnd].
      + rewrite map_app in Hnd. simpl in Hnd.
        apply NoDup_remove_2 in Hnd. intros Hin. apply Hnd.
        apply in_or_app. now left. }
  intros Hnd. now apply (H m []).
Qed.

(** X16.  What a save writes, a later load of the same version reads back:
    when the storage takes the three writes, no metadata record is older
    than the cleanup allows, and less than two hours have passed on the
    clock, [_cargarDesdeCacheLocal] installs the two maps as they were at
    the save, whatever the module held in between (a reload of the page
    empties it). *)
Theorem X16_save_then_load env v c a s s2 :
  v <> "unknown" ->
  NoDup (map fst (imagenIndex s)) ->
  NoDup (map fst (aliasIndex s)) ->
  sin_cuota env ->
  nada_caducado (date_now env (S (tick s))) (localStorage s) ->
  (date_now env (S (tick s)) - date_now env (tick s) <= TTL_LIMPIEZA_MS)%Z ->
  localStorage s2 = localStorage (snd (_guardarEnCacheLocal env v c a s)) ->
  (date_now env (tick s2) - date_now env (tick s) < TTL_CACHE_MS)%Z ->
  _cargarDesdeCacheLocal env v s2
  = (Ret (Some res_en_cache),
     mkState (imagenIndex s) (aliasIndex s) (Some v) (localStorage s2)
             (S (tick s2)) (trace s2 ++ [EvNotificar AvisoDesdeCache])%list).
Proof.
  intros Hv Hni Hna Hq Hn Ht Hls Hfresh.
  rewrite (guardar_estado env v c a s Hv Hq) in Hls.
  cbn [snd localStorage] in Hls.
  rewrite limpieza_nada in Hls
    by (apply con_version_nada_caducado; [exact Hn|exact Ht]).
  destruct (con_version_lee (localStorage s) v (imagenIndex s) (aliasIndex s)
              (mkMeta (date_now env (tick s)) v c a)) as (Li & La & Lm).
  rewrite <- Hls in Li, La, Lm.
  unfold _cargarDesdeCacheLocal. apply try_catch_ret.
  unfold bind at 1, getItem at 1. rewrite Li.
  unfold bind at 1, getItem at 1. rewrite La.
  unfold bind at 1, getItem at 1. rewrite Lm.
  cbn [stored_truthy andb].
  unfold bind at 1, JSON_parse_meta, ret at 1.
  unfold bind at 1, Date_now at 1. cbn [timestamp].
  apply Z.leb_gt in Hfresh. rewrite Hfresh.
  unfold bind at 1, JSON_parse_index, ret at 1.
  unfold bind at 1, set_imagenIndex at 1.
  unfold bind at 1, restaurar_alias. cbn [stored_truthy].
  unfold bind at 1, JSON_parse_alias, ret at 1. unfold ret at 1.
  unfold bind, set_aliasIndex, set_driveTreeVersion, mostrarNotificacion,
    emit, ret.
  cbn [localStorage imagenIndex aliasIndex driveTreeVersion tick trace].
  now rewrite !map_of_entries_entries.
Qed.

Lemma X16_save_then_load_witness :
  let env := Ejemplo.mundo_plaza in
  let s := Ejemplo.tras_construir env in
  let s2 :=
    mkState [] [] None
            (localStorage (snd (_guardarEnCacheLocal env "v2" 1 2 s))) 7 [] in
  _cargarDesdeCacheLocal env "v2" s2
  = (Ret (Some res_en_cache),
     mkState (imagenIndex s) (aliasIndex s) (Some "v2") (localStorage s2)
             8 [EvNotificar AvisoDesdeCache]).
Proof.
  intros env s s2.
  apply (X16_save_then_load env "v2" 1 2 s s2).
  - intros E; discriminate E.
  - vm_compute. repeat constructor. intros [].
  - vm_compute. repeat constructor. intros [].
  - intros ls k x. reflexivity.
  - intros key x Hin. vm_compute in Hin.
    repeat (destruct Hin as [[= <- <-]|Hin]; [vm_compute; reflexivity|]).
    destruct Hin.
  - vm_compute. intros E; discriminate E.
  - reflexivity.
  - vm_compute. reflexivity.
Defined.

(* ------------------------------------------------------------------ *)
(** ** A forced build *)

(** X18.  A forced build that receives the tree installs it, whatever the
    storage holds and whether or not the storage takes the writes of the
    save: it answers [{success: true, fromCache: false}] with the counters
    of the tree, the two maps are those of the tree, the version is the one
    the version endpoint gave (['unknown'] if none), and the trace shows
    the two requests and the notification of the update. *)
Theorem X18_forced_build_installs_the_tree env s st driveData :
  fetch_tree env (S (tick s)) = Replied true st (Some driveData) ->
  exists s',
    construirIndiceImagenes env true s
    = (Ret (res_construido (totalCarpetas (construir driveData))
                           (totalArchivos (construir driveData))), s')
    /\ imagenIndex s' = nuevoIndice (construir driveData)
    /\ aliasIndex s' = nuevoAlias (construir driveData)
    /\ driveTreeVersion s'
       = Some (version_leida (fetch_version env (tick s)))
    /\ trace s'
       = (trace s ++ [EvConstruir true; EvFetchVersion; EvFetchTree;
                      EvNotificar
                        (AvisoActualizado
                           (totalCarpetas (construir driveData)))])%list.
Proof.
  intros Hf.
  unfold construirIndiceImagenes, try_catch, bind at 1, emit at 1.
  unfold construir_cuerpo, bind at 1. rewrite obtener_version_valor.
  cbn [tick tras_consulta imagenIndex driveTreeVersion].
  set (ver := version_leida (fetch_version env (tick s))).
  unfold bind at 1, get at 1. cbn [negb andb].
  unfold bind at 1, ret at 1.
  unfold bind at 1, _descargarYConstruirIndice, bind at 1,
    fetch_drive_tree, bind at 1, get at 1, bind at 1, emit at 1, ret at 1.
  cbn [tick tras_consulta imagenIndex aliasIndex driveTreeVersion localStorage
       trace].
  rewrite Hf. cbn [negb].
  unfold ret at 1.
  unfold bind at 1, set_imagenIndex at 1.
  unfold bind at 1, set_aliasIndex at 1.
  unfold bind at 1, set_driveTreeVersion at 1.
  cbn [imagenIndex aliasIndex driveTreeVersion localStorage tick trace].
  unfold bind at 1.
  match goal with
  | |- context [_guardarEnCacheLocal env ver ?c ?a ?s0] =>
      destruct (guardar_devuelve env ver c a s0)
        as (s1 & -> & Hi & Ha & Hv & Ht)
  end.
  cbn [imagenIndex aliasIndex driveTreeVersion trace] in Hi, Ha, Hv, Ht.
  unfold bind, mostrarNotificacion, emit, ret.
  eexists. split; [reflexivity|].
  cbn [imagenIndex aliasIndex driveTreeVersion localStorage tick trace].
  rewrite Hi, Ha, Hv, Ht. repeat rewrite <- app_assoc. auto.
Qed.

(** The storage refuses every write: the build still installs the tree. *)
Lemma X18_forced_build_installs_the_tree_witness :
  let env := mkEnv (fun _ => Replied true 200
                                (Some (mkVersion (Some "v1") None)))
                   (fun _ => Replied true 200 (Some Ejemplo.arbol_plaza))
                   (fun _ _ => Rejected) (fun _ => 0%Z)
                   (fun _ _ _ => false) in
  let s := Ejemplo.inicial in
  let driveData := Ejemplo.arbol_plaza in
  exists s',
    construirIndiceImagenes env true s
    = (Ret (res_construido (totalCarpetas (construir driveData))
                           (totalArchivos (construir driveData))), s')
    /\ imagenIndex s' = nuevoIndice (construir driveData)
    /\ aliasIndex s' = nuevoAlias (construir driveData)
    /\ driveTreeVersion s'
       = Some (version_leida (fetch_version env (tick s)))
    /\ trace s'
       = (trace s ++ [EvConstruir true; EvFetchVersion; EvFetchTree;
                      EvNotificar
                        (AvisoActualizado
                           (totalCarpetas (construir driveData)))])%list.
Proof.
  intros env s driveData.
  apply (X18_forced_build_installs_the_tree env s 200 driveData).
  reflexivity.
Defined.

(* ------------------------------------------------------------------ *)
(** ** Queries that differ in case or in the space around them *)

(** X19.  A lookup sees its argument only through the normal form: the
    normal form of a key gives the very run the key gives, and so do two
    keys that differ only in case or in the white space around them. *)
Theorem X19_lookup_sees_the_normal_form env q s :
  findImageUrls env (normalizar q) s = findImageUrls env q s
  /\ (forall q', normalizar q' = normalizar q ->
                 findImageUrls env q' s = findImageUrls env q s).
Proof.
  split.
  - unfold findImageUrls. now rewrite normalizar_idem.
  - intros q' E. unfold findImageUrls. now rewrite E.
Qed.

(* ------------------------------------------------------------------ *)
(** ** From a save to the offline fallback *)

Lemma version_de_clave b : version_de (CACHE_PREFIX ++ b) = b.
Proof.
  unfold version_de, CACHE_PREFIX. cbn [String.append].
  cbn [Js.replace_first_empty prefix Ascii.eqb Bool.eqb String.length Js.drop].
  destruct b; reflexivity.
Qed.

Lemma clave_de_indice_forma k :
  es_clave_de_indice k = true -> k = CACHE_PREFIX ++ version_de k.
Proof.
  unfold es_clave_de_indice, Js.startsWith. rewrite !andb_true_iff.
  intros [[Hp _] _]. apply prefix_iff in Hp. destruct Hp as (b & ->).
  now rewrite version_de_clave.
Qed.

Lemma clave_alias_no_indice v :
  es_clave_de_indice (CACHE_PREFIX ++ "alias_" ++ v) = false.
Proof.
  unfold es_clave_de_indice.
  replace (Js.includes (CACHE_PREFIX ++ "alias_" ++ v) "alias_") with true;
    [apply andb_false_r|].
  unfold CACHE_PREFIX. cbn. destruct v; reflexivity.
Qed.

Lemma clave_meta_no_indice v :
  es_clave_de_indice (CACHE_META_PREFIX ++ v) = false.
Proof.
  unfold es_clave_de_indice.
  replace (Js.includes (CACHE_META_PREFIX ++ v) "_meta_") with true;
    [now rewrite andb_false_r|].
  unfold CACHE_META_PREFIX. cbn. reflexivity.
Qed.

Lemma append_inj_l (p a b : string) : p ++ a = p ++ b -> a = b.
Proof.
  induction p as [|c p IH]; simpl; [auto|]. intros [= E]. auto.
Qed.

(** Writing a version makes no other key one the fallback scan stops at. *)
Lemma candidato_tras_guardar ls v idx al m k :
  es_candidato ls k = false ->
  k <> CACHE_PREFIX ++ v ->
  es_candidato (con_version ls v idx al m) k = false.
Proof.
  intros Hno Hk. unfold es_candidato in *.
  destruct (es_clave_de_indice k) eqn:Ek; [|reflexivity].
  cbn [andb] in *.
  assert (Hka : k <> CACHE_PREFIX ++ "alias_" ++ v).
  { intros ->. rewrite clave_alias_no_indice in Ek. discriminate. }
  assert (Hkm : k <> CACHE_META_PREFIX ++ v).
  { intros ->. rewrite clave_meta_no_indice in Ek. discriminate. }
  assert (Hm : CACHE_META_PREFIX ++ version_de k <> CACHE_META_PREFIX ++ v).
  { intros E. apply append_inj_l in E. apply Hk.
    rewrite (clave_de_indice_forma k Ek). now rewrite E. }
  unfold con_version, ls_getItem, ls_setItem in *.
  rewrite !(map_get_set_other _ _ k) by congruence.
  rewrite (map_get_set_other _ (CACHE_META_PREFIX ++ v)) by congruence.
  rewrite (map_get_set_other _ (CACHE_PREFIX ++ "alias_" ++ v))
    by (apply clave_alias_meta).
  rewrite (map_get_set_other _ (CACHE_PREFIX ++ v))
    by (apply clave_indice_meta).
  exact Hno.
Qed.

Lemma primera_aparicion (k : string) l :
  In k l -> exists pre post, l = (pre ++ k :: post)%list /\ ~ In k pre.
Proof.
  induction l as [|x l IH]; [intros []|].
  destruct (String.eqb_spec x k) as [->|Hne].
  - intros _. exists [], l. split; [reflexivity|intros []].
  - intros [H|H]; [contradiction|].
    destruct (IH H) as (pre & post & -> & Hn).
    exists (x :: pre), post. split; [reflexivity|].
    intros [E|E]; [contradiction|auto].
Qed.

(** A forced build that cannot get the tree goes to its [catch] with the
    module as it was. *)
Lemma forzada_sin_arbol env s :
  arbol_caido env ->
  exists e,
    construirIndiceImagenes env true s
    = construir_rescate e
        (mkState (imagenIndex s) (aliasIndex s) (driveTreeVersion s)
                 (localStorage s) (S (S (tick s)))
                 (trace s ++ [EvConstruir true; EvFetchVersion;
                              EvFetchTree])%list).
Proof.
  intros Hcaido.
  unfold construirIndiceImagenes, try_catch, bind at 1, emit at 1.
  unfold construir_cuerpo, bind at 1. rewrite obtener_version_valor.
  cbn [tick tras_consulta imagenIndex driveTreeVersion].
  unfold bind at 1, get at 1. cbn [negb andb].
  unfold bind at 1, ret at 1.
  unfold bind at 1, _descargarYConstruirIndice, bind at 1,
    fetch_drive_tree, bind at 1, get at 1, bind at 1, emit at 1, ret at 1.
  cbn [tick tras_consulta imagenIndex aliasIndex driveTreeVersion localStorage
       trace].
  specialize (Hcaido (S (tick s))).
  assert (Hthrow : exists e,
             (match fetch_tree env (S (tick s)) with
              | Rejected => throw NetworkError
              | Replied ok status body =>
                  if negb ok then throw (HttpError status)
                  else match body with
                       | None => throw SyntaxError
                       | Some driveData => ret (construir driveData)
                       end
              end : M Construido) = throw e).
  { destruct (fetch_tree env (S (tick s))) as [|[] st [dd|]]; cbn [negb];
      try contradiction; eauto. }
  destruct Hthrow as (e & ->). unfold throw at 1.
  exists e. repeat rewrite <- app_assoc. reflexivity.
Qed.

(** X20.  What a save writes, the offline fallback restores: when the
    version token brings neither ["_meta_"] nor ["alias_"] into its key,
    the storage held no version the fallback scan stops at, took the three
    writes, and lost nothing to the cleanup, a forced build that cannot get
    the tree answers [{success: true, fromCache: true, isFallback: true}]
    and installs the two maps as they were at the save, under the saved
    version, whatever the module held in between and however old the
    record is. *)
Theorem X20_save_then_offline_restore env v c a s s2 :
  v <> "unknown" ->
  Js.includes (CACHE_PREFIX ++ v) "_meta_" = false ->
  Js.includes (CACHE_PREFIX ++ v) "alias_" = false ->
  NoDup (map fst (imagenIndex s)) ->
  NoDup (map fst (aliasIndex s)) ->
  sin_cuota env ->
  nada_caducado (date_now env (S (tick s))) (localStorage s) ->
  (date_now env (S (tick s)) - date_now env (tick s) <= TTL_LIMPIEZA_MS)%Z ->
  (forall k, es_candidato (localStorage s) k = false) ->
  localStorage s2 = localStorage (snd (_guardarEnCacheLocal env v c a s)) ->
  arbol_caido env ->
  exists s',
    construirIndiceImagenes env true s2 = (Ret res_fallback, s')
    /\ imagenIndex s' = imagenIndex s
    /\ aliasIndex s' = aliasIndex s
    /\ driveTreeVersion s' = Some v
    /\ localStorage s' = localStorage s2.
Proof.
  intros Hv Hmeta Halias Hni Hna Hq Hn Ht Hno Hls Hcaido.
  rewrite (guardar_estado env v c a s Hv Hq) in Hls.
  cbn [snd localStorage] in Hls.
  rewrite limpieza_nada in Hls
    by (apply con_version_nada_caducado; [exact Hn|exact Ht]).
  set (m := mkMeta (date_now env (tick s)) v c a) in *.
  destruct (con_version_lee (localStorage s) v (imagenIndex s) (aliasIndex s)
              m) as (Li & La & Lm).
  rewrite <- Hls in Li, La, Lm.
  assert (Hkey : es_clave_de_indice (CACHE_PREFIX ++ v) = true).
  { unfold es_clave_de_indice. rewrite Hmeta, Halias.
    unfold Js.startsWith, CACHE_PREFIX. cbn. now destruct v. }
  destruct (primera_aparicion (CACHE_PREFIX ++ v) (map fst (localStorage s2)))
    as (pre & post & Hkeys & Hpre).
  { apply map_get_In in Li. now apply (in_map fst) in Li. }
  destruct (forzada_sin_arbol env s2 Hcaido) as (e & ->).
  unfold construir_rescate, bind at 1, _cargarFallbackLocal, try_catch,
    bind at 1, get at 1.
  cbn [localStorage]. rewrite Hkeys.
  rewrite fallback_loop_salta.
  2:{ cbn [localStorage]. intros k Hk. rewrite Hls.
      apply candidato_tras_guardar; [apply Hno|].
      intros ->. contradiction. }
  rewrite (fallback_loop_restaura (CACHE_PREFIX ++ v) post _
             (imagenIndex s) m (map_of_entries (aliasIndex s))).
  - unfold restaurado.
    cbn [localStorage imagenIndex aliasIndex driveTreeVersion tick trace].
    eexists. split; [reflexivity|].
    cbn [localStorage imagenIndex aliasIndex driveTreeVersion tick trace].
    rewrite version_de_clave, !map_of_entries_entries by assumption.
    auto.
  - exact Hkey.
  - exact Li.
  - cbn [localStorage]. now rewrite version_de_clave.
  - cbn [localStorage]. rewrite version_de_clave, La. reflexivity.
Qed.

(** A first build saves version ["v1"]; the page is loaded again a year
    later with the server gone. *)
Lemma X20_save_then_offline_restore_witness :
  let env := mundo_sin_arbol "v1" in
  let s := mkState [("i-01-002-03", [mkEntry None "u1" None])]
                   [("plaza centro", "i-01-002-03")] None
                   [("theme", StOther "dark")] 0 [] in
  let s2 := mkState [] [] None
              (localStorage (snd (_guardarEnCacheLocal env "v1" 1 1 s)))
              0 [] in
  exists s',
    construirIndiceImagenes env true s2 = (Ret res_fallback, s')
    /\ imagenIndex s' = imagenIndex s
    /\ aliasIndex s' = aliasIndex s
    /\ driveTreeVersion s' = Some "v1"
    /\ localStorage s' = localStorage s2.
Proof.
  intros env s s2.
  apply (X20_save_then_offline_restore env "v1" 1 1 s s2).
  - intros E; discriminate E.
  - reflexivity.
  - reflexivity.
  - vm_compute. repeat constructor. intros [].
  - vm_compute. repeat constructor. intros [].
  - intros ls k x. reflexivity.
  - intros key x [[= <- <-]|[]]. reflexivity.
  - vm_compute. intros E; discriminate E.
  - intros k. unfold es_candidato. cbn [localStorage s ls_getItem map_get].
    destruct (es_clave_de_indice k) eqn:Ek; [|reflexivity].
    destruct (String.eqb_spec "theme" k) as [<-|_];
      [vm_compute in Ek; discriminate Ek|reflexivity].
  - reflexivity.
  - intros n. exact I.
Defined.
